(** * nightsight: tiled inference (inference.py)

    A shallow embedding of [generateRandomString], [patchify] (with its
    inner [start_points]), [reconstruct], [_inference] and [inference], and
    the properties of the tiling pipeline proved over it.

    Conventions of the embedding
    - Python integers are [Z]; Python lists are [list].
    - A float is a value of an IEEE 754 binary format: the rational a
      finite value denotes, an infinity, or NaN.  An operation is computed
      exactly and its result rounded to the format, to nearest and ties to
      even ([Float.round]); a rounded magnitude of [2^emax] or more is an
      infinity.  Python floats are binary64 and [torch.float] is binary32.
      The two zeros are one value: they compare equal, and nothing in the
      module tells them apart.
    - An array is a nested list of such values; its shape is read off the
      lists, and its element type ([dtype]) travels beside it to the one
      place it is looked at, the division by 255.  A numpy array and a
      torch tensor are both such a list: [reconstruct] is given its patches
      as a tensor, as [_inference] gives them.  Arrays with an axis of
      length zero are outside the model (no image has one), and so are
      complex arrays.
    - The [while True] loop of [start_points] runs on fuel; [Timeout] is
      the answer of a run that has not finished within its fuel. *)

From Stdlib Require Import ZArith QArith Qround Qpower Lqa Lia.
From Stdlib Require Import String Ascii Sorted.
From stdpp Require Import base tactics list.

Local Open Scope Z_scope.

(** ** Outcomes of a call *)

(** The exceptions the module raises or lets escape. *)
Inductive exn : Type :=
  | ValueError (msg : string)
  | IOError
  | IndexError
  | RuntimeError
  | UnboundLocalError
  | OverflowError
  | OtherError.

Inductive result (A : Type) : Type :=
  | Ret (a : A)
  | Raise (e : exn)
  | Timeout.

Arguments Ret {A} a.
Arguments Raise {A} e.
Arguments Timeout {A}.

(** Sequencing: an exception or an exhausted run ends the computation. *)
#[global] Instance result_ret : MRet result := fun _ a => Ret a.
#[global] Instance result_bind : MBind result := fun _ _ k m =>
  match m with
  | Ret a => k a
  | Raise e => Raise e
  | Timeout => Timeout
  end.

(** ** Floats *)

Module Float.

(** A binary format: [prec] bits of significand, the exponent [emin] of
    its least positive value [2^emin], and [emax], where [2^emax] is the
    first magnitude out of range. *)
Record format : Type := Format { prec : Z; emin : Z; emax : Z }.

(** Python's [float] and numpy's [float64]. *)
Definition binary64 : format := Format 53 (-1074) 1024.

(** [torch.float]. *)
Definition binary32 : format := Format 24 (-149) 128.

Definition pow2 (e : Z) : Q := ((2 # 1) ^ e)%Q.

(** [floor(log2 q)], for [q > 0]. *)
Definition ilog2 (q : Q) : Z :=
  let k := Z.log2 (Qnum q) - Z.log2 (Z.pos (Qden q)) in
  if Qle_bool (pow2 k) q then k else k - 1.

(** The nearest integer, a tie going to the even one. *)
Definition rint (x : Q) : Z :=
  let f := Qfloor x in
  match (x - inject_Z f ?= 1 # 2)%Q with
  | Lt => f
  | Gt => f + 1
  | Eq => if Z.even f then f else f + 1
  end.

(** The exponent of the last place of [a > 0]: [prec] bits from the leading
    one, and not below [emin]. *)
Definition exponent (fmt : format) (a : Q) : Z :=
  Z.max (ilog2 a - (prec fmt - 1)) (emin fmt).

Definition round_pos (fmt : format) (a : Q) : Q :=
  let e := exponent fmt a in
  (inject_Z (rint (a / pow2 e)) * pow2 e)%Q.

(** Rounding to nearest, ties to even, before the range is looked at; the
    result is in lowest terms. *)
Definition round (fmt : format) (q : Q) : Q :=
  Qred match (q ?= 0)%Q with
       | Eq => 0
       | Gt => round_pos fmt q
       | Lt => - round_pos fmt (- q)
       end%Q.

Inductive fl : Type :=
  | Fin (q : Q)
  | PInf
  | NInf
  | NaN.

(** A rounded result that has left the range is an infinity. *)
Definition finish (fmt : format) (r : Q) : fl :=
  if Qle_bool (pow2 (emax fmt)) r then PInf
  else if Qle_bool r (- pow2 (emax fmt)) then NInf
  else Fin r.

Definition round_fl (fmt : format) (q : Q) : fl := finish fmt (round fmt q).

(** The conversion of a number to the format. *)
Definition cast (fmt : format) (v : fl) : fl :=
  match v with
  | Fin q => round_fl fmt q
  | _ => v
  end.

(** [v] is a value of the format. *)
Definition is_float (fmt : format) (v : fl) : Prop := cast fmt v = v.

Definition fl_opp (v : fl) : fl :=
  match v with
  | Fin q => Fin (- q)
  | PInf => NInf
  | NInf => PInf
  | NaN => NaN
  end.

(** [a - b] *)
Definition fl_sub (fmt : format) (a b : fl) : fl :=
  match a, b with
  | Fin x, Fin y => round_fl fmt (x - y)
  | NaN, _ | _, NaN => NaN
  | PInf, PInf | NInf, NInf => NaN
  | PInf, _ | _, NInf => PInf
  | NInf, _ | _, PInf => NInf
  end.

(** A finite [x] times the infinity [i]. *)
Definition scale_inf (x : Q) (i : fl) : fl :=
  match (x ?= 0)%Q with
  | Eq => NaN
  | Gt => i
  | Lt => fl_opp i
  end.

(** [a * b] *)
Definition fl_mul (fmt : format) (a b : fl) : fl :=
  match a, b with
  | Fin x, Fin y => round_fl fmt (x * y)
  | NaN, _ | _, NaN => NaN
  | Fin x, i | i, Fin x => scale_inf x i
  | PInf, PInf | NInf, NInf => PInf
  | PInf, NInf | NInf, PInf => NInf
  end.

(** [v / d] for a finite divisor [d > 0]. *)
Definition fl_div_pos (fmt : format) (v : fl) (d : Q) : fl :=
  match v with
  | Fin q => round_fl fmt (q / d)
  | _ => v
  end.

(** Truncation towards zero. *)
Definition trunc (q : Q) : Z := Z.quot (Qnum q) (Z.pos (Qden q)).

(** [lo <= v <= hi], for a finite [v]. *)
Definition between (lo hi : Q) (v : fl) : Prop :=
  match v with
  | Fin q => (lo <= q /\ q <= hi)%Q
  | _ => False
  end.

End Float.

Import Float.

Arguments pow2 : simpl never.
Arguments round : simpl never.
Arguments round_fl : simpl never.

Coercion Fin : Q >-> fl.

(** ** Python numbers *)

Module Py.

(** An [int] or a [float]. *)
Inductive pynum : Type :=
  | PyInt (z : Z)
  | PyFloat (v : fl).

(** The least int that does not convert to a float: it rounds to
    [2^1024]. *)
Definition float_int_limit : Z := 2 ^ 1024 - 2 ^ 970.

(** The conversion of the int operand of a mixed operation: it is rounded
    to the nearest float, and an int too large for one is an
    [OverflowError]. *)
Definition float_of_int (z : Z) : result fl :=
  match round_fl binary64 (inject_Z z) with
  | Fin x => Ret (Fin x)
  | _ => Raise OverflowError
  end.

Definition to_float (x : pynum) : result fl :=
  match x with
  | PyInt z => float_of_int z
  | PyFloat v => Ret v
  end.

(** [a - b] *)
Definition py_sub (a b : pynum) : result pynum :=
  match a, b with
  | PyInt x, PyInt y => Ret (PyInt (x - y))
  | _, _ =>
      x ← to_float a; y ← to_float b; Ret (PyFloat (fl_sub binary64 x y))
  end.

(** [a * b] *)
Definition py_mul (a b : pynum) : result pynum :=
  match a, b with
  | PyInt x, PyInt y => Ret (PyInt (x * y))
  | _, _ =>
      x ← to_float a; y ← to_float b; Ret (PyFloat (fl_mul binary64 x y))
  end.

(** [int(x)]: a float is truncated towards zero; an infinity is an
    [OverflowError] and NaN a [ValueError]. *)
Definition py_int (x : pynum) : result Z :=
  match x with
  | PyInt z => Ret z
  | PyFloat (Fin q) => Ret (trunc q)
  | PyFloat NaN => Raise (ValueError "cannot convert float NaN to integer")
  | PyFloat _ => Raise OverflowError
  end.

End Py.

Import Py.

Coercion PyFloat : fl >-> pynum.

(** ** The grid of start offsets: [start_points] *)

Module Grid.

(** [stride = int(split_size * (1-overlap))] *)
Definition stride_of (split_size : Z) (overlap : pynum) : result Z :=
  d ← py_sub (PyInt 1) overlap;
  p ← py_mul (PyInt split_size) d;
  py_int p.

(** One pass of the body of [while True]: the state is [(points, counter)];
    [inr] is the [break] with the final list. *)
Definition loop_body (size split_size stride : Z) (st : list Z * Z)
  : (list Z * Z) + list Z :=
  let '(points, counter) := st in
  let pt := stride * counter in
  if pt + split_size >=? size
  then inr (points ++ [size - split_size])
  else inl (points ++ [pt], counter + 1).

Fixpoint loop (fuel : nat) (size split_size stride : Z) (st : list Z * Z)
  : result (list Z) :=
  match fuel with
  | O => Timeout
  | S fuel' =>
      match loop_body size split_size stride st with
      | inr points => Ret points
      | inl st' => loop fuel' size split_size stride st'
      end
  end.

Definition start_points (fuel : nat) (size split_size : Z) (overlap : pynum)
  : result (list Z) :=
  stride ← stride_of split_size overlap;
  loop fuel size split_size stride ([0], 1).

(** The loop terminates when some amount of fuel lets it return. *)
Definition terminates (size split_size : Z) (overlap : pynum) : Prop :=
  exists fuel points, start_points fuel size split_size overlap = Ret points.

(** It diverges when no amount of fuel does. *)
Definition diverges (size split_size : Z) (overlap : pynum) : Prop :=
  forall fuel, start_points fuel size split_size overlap = Timeout.

(** The windows [[o, o + split_size)] of a grid cover [x]. *)
Definition covered (split_size : Z) (points : list Z) (x : Z) : Prop :=
  exists o, o ∈ points /\ o <= x < o + split_size.

End Grid.

Import Grid.

(** ** Arrays *)

Module Tensor.

(** Pixel data: an image is [rows x columns x channels]; a batch is a list
    of images. *)
Abbreviation tensor3 := (list (list (list fl))).
Abbreviation tensor4 := (list (list (list (list fl)))).

(** The element types [torch.from_numpy] takes, the complex ones apart. *)
Inductive dtype : Type :=
  | Bool
  | UInt8
  | Int8
  | Int16
  | Int32
  | Int64
  | Float16
  | Float32
  | Float64.

(** [t.shape[0]], [t.shape[1]], [t.shape[2]] *)
Definition shape0 {A} (t : list A) : Z := Z.of_nat (length t).
Definition shape1 {A} (t : list (list A)) : Z := shape0 (hd [] t).
Definition shape2 {A} (t : list (list (list A))) : Z := shape1 (hd [] t).

Definition shape {A} (t : list (list (list A))) : Z * Z * Z :=
  (shape0 t, shape1 t, shape2 t).

(** An axis of length [n] whose entries all satisfy [inner]. *)
Definition axis {A} (n : Z) (inner : A -> bool) (l : list A) : bool :=
  (shape0 l =? n) && forallb inner l.

Definition scalar {A} (_ : A) : bool := true.

Definition has_shape3 {A} (a b c : Z) (t : list (list (list A))) : bool :=
  axis a (axis b (axis c scalar)) t.

Definition has_shape4 {A} (n a b c : Z) (t : list (list (list (list A))))
  : bool :=
  axis n (has_shape3 a b c) t.

(** Bounds of a slice [l[i:j]] of a sequence of length [len]: a negative
    bound counts from the end, and both are clamped to [0, len]. *)
Definition slice_bound (len i : Z) : Z :=
  if i <? 0 then Z.max 0 (i + len) else Z.min i len.

Definition slice_start {A} (l : list A) (i : Z) : nat :=
  Z.to_nat (slice_bound (shape0 l) i).

Definition slice_len {A} (l : list A) (i j : Z) : nat :=
  Z.to_nat (slice_bound (shape0 l) j - slice_bound (shape0 l) i).

(** [l[i:j]] *)
Definition py_slice {A} (l : list A) (i j : Z) : list A :=
  take (slice_len l i j) (drop (slice_start l i) l).

(** [image[i:i2, j:j2]] *)
Definition slice2 {A} (t : list (list A)) (i i2 j j2 : Z) : list (list A) :=
  (fun row => py_slice row j j2) <$> py_slice t i i2.

(** Broadcasting of an assigned value along one axis: the axis has the
    length of the destination, or length 1 and is repeated. *)
Definition fits {A} (n : nat) (l : list A) : bool :=
  (length l =? n)%nat || (length l =? 1)%nat.

Definition expand {A} (n : nat) (l : list A) : list A :=
  if (length l =? n)%nat then l
  else match l with x :: _ => replicate n x | [] => [] end.

Definition can_broadcast (h w c : nat) (src : tensor3) : bool :=
  fits h src
  && forallb (fun row : list (list fl) => fits w row && forallb (fits c) row)
       src.

Definition broadcast (h w c : nat) (src : tensor3) : tensor3 :=
  expand h ((fun row : list (list fl) => expand w (expand c <$> row)) <$> src).

(** [l[i:j] = src] on a tensor axis, [src] of the length of the slice. *)
Definition splice {A} (l : list A) (i j : Z) (src : list A) : list A :=
  take (slice_start l i) l ++ src
  ++ drop (slice_start l i + slice_len l i j) l.

(** [f] on every value of an image. *)
Definition map3 (f : fl -> fl) (t : tensor3) : tensor3 :=
  (fun row : list (list fl) => (fun px : list fl => f <$> px) <$> row) <$> t.

(** [result[i:i2, j:j2] = src] on a [torch.float] tensor: the value is
    converted to float32 and broadcast to the region [(h, w, c)] the two
    slices select, and a value that cannot be is a [RuntimeError]. *)
Definition assign_region (res : tensor3) (i i2 j j2 : Z) (src : tensor3)
  : result tensor3 :=
  let h := slice_len res i i2 in
  let w := slice_len (hd [] res) j j2 in
  let c := length (hd [] (hd [] res)) in
  if can_broadcast h w c src
  then Ret (splice res i i2
              (zip_with (fun row v => splice row j j2 v)
                        (py_slice res i i2)
                        (broadcast h w c (map3 (cast binary32) src))))
  else Raise RuntimeError.

(** [torch.zeros(image_size, dtype=torch.float)] *)
Definition zeros (image_size : Z * Z * Z) : result tensor3 :=
  let '(h, w, c) := image_size in
  if (h <? 0) || (w <? 0) || (c <? 0) then Raise RuntimeError
  else Ret (replicate (Z.to_nat h)
              (replicate (Z.to_nat w) (replicate (Z.to_nat c) (Fin 0)))).

(** [t.permute(2, 0, 1)]: rows, columns, channels to channels, rows,
    columns. *)
Definition hwc_to_chw (t : tensor3) : tensor3 :=
  (fun c => (fun row : list (list fl) => (fun px => nth c px (Fin 0)) <$> row)
              <$> t)
    <$> seq 0 (Z.to_nat (shape2 t)).

(** [t.permute(1, 2, 0)]: channels, rows, columns to rows, columns,
    channels. *)
Definition chw_to_hwc (t : tensor3) : tensor3 :=
  (fun r => (fun c => (fun plane => nth c (nth r plane []) (Fin 0)) <$> t)
              <$> seq 0 (Z.to_nat (shape2 t)))
    <$> seq 0 (Z.to_nat (shape1 t)).

(** [np.asarray(splits)]: the patches are stacked into one array, which
    they can be when they all have one shape. *)
Definition np_asarray (splits : list tensor3) : result tensor4 :=
  if forallb (fun p => bool_decide (shape p = shape (hd [] splits))) splits
  then Ret splits
  else Raise (ValueError "inhomogeneous shape").

(** The element type of [torch.div(t, torch.Tensor([255.0]))]: the type
    the element type of [t] and the float32 of the divisor promote to.
    float64 stays, every other type becomes float32. *)
Definition div_format (dt : dtype) : format :=
  match dt with
  | Float64 => binary64
  | _ => binary32
  end.

(** One value of [torch.div(t, torch.Tensor([255.0]))]: it is converted
    to the promoted type and divided there. *)
Definition div255_value (dt : dtype) (v : fl) : fl :=
  fl_div_pos (div_format dt) (cast (div_format dt) v) 255.

(** [torch.div(t, torch.Tensor([255.0]))], elementwise on a batch of
    element type [dt]. *)
Definition div255 (dt : dtype) (t : tensor4) : tensor4 :=
  map3 (div255_value dt) <$> t.

(** [t[r, c]]: the pixel in row [r] and column [c], if there is one. *)
Definition pixel (t : tensor3) (r c : nat) : option (list fl) :=
  row ← t !! r; row !! c.

(** The values of a batch. *)
Definition values (t : tensor4) : list fl := concat (concat (concat t)).

(** Every value of an image satisfies [P]. *)
Definition all_values (P : fl -> Prop) (t : tensor3) : Prop :=
  Forall (Forall (Forall P)) t.

End Tensor.

Import Tensor.

(** ** [patchify] and [reconstruct] *)

(** [for x in xs: body], threading the local state. *)
Fixpoint for_in {X S} (xs : list X) (body : X -> S -> result S) (s : S)
  : result S :=
  match xs with
  | [] => Ret s
  | x :: xs' => s' ← body x s; for_in xs' body s'
  end.

Definition patchify (fuel : nat) (image : tensor3) (split_size : Z)
    (overlap : pynum) : result (tensor4 * list Z * list Z) :=
  Y_points ← start_points fuel (shape0 image) split_size overlap;
  X_points ← start_points fuel (shape1 image) split_size overlap;
  let splits :=
    i ← Y_points; j ← X_points;
    [slice2 image i (i + split_size) j (j + split_size)] in
  splits ← np_asarray splits;
  Ret (splits, X_points, Y_points).

(** The body of the two loops of [reconstruct], lines 60 and 61, on the
    state [(result, count)]; [splits[count]] past the end is an
    [IndexError]. *)
Definition paste (splits : tensor4) (split_size i j : Z)
    (st : tensor3 * nat) : result (tensor3 * nat) :=
  let '(res, count) := st in
  match splits !! count with
  | None => Raise IndexError
  | Some patch =>
      res' ← assign_region res i (i + split_size) j (j + split_size) patch;
      Ret (res', S count)
  end.

Definition reconstruct (splits : tensor4) (split_size : Z) (overlap : pynum)
    (image_size : Z * Z * Z) (X_points Y_points : list Z) : result tensor3 :=
  result0 ← zeros image_size;
  st ← for_in Y_points (fun i =>
          for_in X_points (fun j => paste splits split_size i j))
        (result0, O);
  Ret st.1.

(** The pairs [(i, j)] in the order the two nested loops over [Y_points]
    and [X_points] visit them. *)
Definition visits (Y_points X_points : list Z) : list (Z * Z) :=
  i ← Y_points; j ← X_points; [(i, j)].

(** The pixel [(r, col)] lies in the window placed at [(i, j)]. *)
Definition in_window (split_size : Z) (p : Z * Z) (r col : nat) : Prop :=
  (p.1 <= Z.of_nat r < p.1 + split_size)
  /\ (p.2 <= Z.of_nat col < p.2 + split_size).

#[global] Instance in_window_dec split_size p r col :
  Decision (in_window split_size p r col).
Proof. unfold in_window. apply _. Defined.

(** ** [_inference] *)

(** The argument [inp]: a string, an array with its element type, or
    anything else. *)
Inductive pyobj : Type :=
  | PyStr (s : string)
  | PyArray (dt : dtype) (a : tensor3)
  | PyOther.

(** What [_inference] calls outside this module: the two file readers
    [np.load] and [np.asarray(Image.open(.))], and the name drawn by
    [generateRandomString(10)]. *)
Record world : Type := World {
  np_load : string -> result (dtype * tensor3);
  pil_open : string -> result (dtype * tensor3);
  generateRandomString : string
}.

(** The network: a batch to the triple [(ei_1, ei, A)]. *)
Definition network : Type := tensor4 -> tensor4 * tensor4 * tensor4.

(** What is known of the network, which is not part of this module: on a
    batch of [c_in]-channel images it answers, as [ei], a batch of as many
    [c_out]-channel images of the same height and width. *)
Definition shape_preserving (c_in c_out : Z) (net : network) : Prop :=
  forall (n h w : Z) (x : tensor4),
    has_shape4 n c_in h w x = true ->
    has_shape4 n c_out h w (net x).1.2 = true.

(** [try: image = load(path)  except (ValueError, IOError): image = None] *)
Definition try_load {A} (r : result A) : result (option A) :=
  match r with
  | Ret a => Ret (Some a)
  | Raise (ValueError _) | Raise IOError => Ret None
  | Raise e => Raise e
  | Timeout => Timeout
  end.

(** Lines 66 to 94: the image, with its element type, and the name it
    goes by. *)
Definition resolve_input (w : world) (inp : pyobj)
  : result (dtype * tensor3 * string) :=
  match inp with
  | PyStr image_path =>
      image ← try_load (np_load w image_path);
      image ← try_load (pil_open w image_path);
      match image with
      | None => Raise (ValueError "Invalid path.")
      | Some (dt, image) => Ret (dt, image, image_path)
      end
  | PyArray dt image =>
      Ret (dt, image, (generateRandomString w ++ ".jpg")%string)
  | PyOther => Raise (ValueError "Invalid input.")
  end.

(** The locals [original_shape], [X_points], [Y_points]: bound in the
    splitting branch only. *)
Definition split_locals : Type := option ((Z * Z * Z) * list Z * list Z).

(** Lines 97 to 105: the batch, and the locals of the branch taken. *)
Definition make_batch (fuel : nat) (image : tensor3) (image_size : Z)
  : result (tensor4 * split_locals) :=
  if (shape0 image >? image_size * 2) || (shape1 image >? image_size * 2)
  then
    let original_shape := shape image in
    '(splits, X_points, Y_points) ← patchify fuel image image_size (1 # 8);
    Ret (splits, Some (original_shape, X_points, Y_points))
  else Ret ([image], None).

(** Lines 109 to 111: the tensor handed to the network, for a batch of
    element type [dt]. *)
Definition net_input (dt : dtype) (batch : tensor4) : tensor4 :=
  div255 dt (hwc_to_chw <$> batch).

(** [t.squeeze(0).permute(2, 0, 1)] on a 3-axis tensor: a first axis of
    length 1 is dropped, and then [permute] has one axis too few. *)
Definition squeeze0_permute201 (t : tensor3) : result tensor3 :=
  if shape0 t =? 1 then Raise RuntimeError else Ret (hwc_to_chw t).

(** Lines 121 to 126. *)
Definition assemble (ei : tensor4) (image_size : Z) (locals : split_locals)
  : result tensor3 :=
  match ei with
  | [item] => Ret item
  | _ =>
      match locals with
      | None => Raise UnboundLocalError
      | Some (original_shape, X_points, Y_points) =>
          r ← reconstruct (chw_to_hwc <$> ei) image_size (1 # 8)
                original_shape X_points Y_points;
          squeeze0_permute201 r
      end
  end.

Definition _inference (fuel : nat) (w : world) (net : network) (inp : pyobj)
    (image_size : Z) : result (tensor3 * string) :=
  '(dt, image, image_path) ← resolve_input w inp;
  '(batch, locals) ← make_batch fuel image image_size;
  let '(ei_1, ei, A) := net (net_input dt batch) in
  result ← assemble ei image_size locals;
  Ret (result, image_path).

(** A network that answers, as [ei], the batch it was given. *)
Definition pass_through (net : network) : Prop :=
  forall x : tensor4, (net x).1.2 = x.

(** ** [generateRandomString] *)

Module Random.

(** [string.ascii_lowercase] *)
Definition ascii_lowercase : string := "abcdefghijklmnopqrstuvwxyz".

(** [random.choice(seq)]: the element at an index below [len(seq)] that the
    generator picks, here the number it draws reduced modulo the length;
    an empty sequence is an [IndexError]. *)
Definition choice (draw : nat) (seq : string) : result ascii :=
  match String.get (draw mod String.length seq) seq with
  | Some c => Ret c
  | None => Raise IndexError
  end.

(** [''.join(random.choice(letters) for i in range(n))], the draws of the
    generator taken from the [k]-th on. *)
Fixpoint join_choices (draws : nat -> nat) (k n : nat) (letters : string)
  : result string :=
  match n with
  | O => Ret EmptyString
  | S n' =>
      c ← choice (draws k) letters;
      s ← join_choices draws (S k) n' letters;
      Ret (String c s)
  end.

Definition generateRandomString (draws : nat -> nat) (length : Z)
  : result string :=
  let letters := ascii_lowercase in
  join_choices draws 0 (Z.to_nat length) letters.

End Random.

(** ** [inference] *)

(** The argument [images]: one input, or a list of them. *)
Inductive images_arg : Type :=
  | OneImage (inp : pyobj)
  | ImageList (inps : list pyobj).

(** What [inference] does to the disk, in order. *)
Inductive event : Type :=
  | Mkdir (outdir : string)
  | SaveImage (ei : tensor3) (outdir name : string).

(** What [inference] calls outside this module: the loading of the weights
    into a network in evaluation mode (lines 137 to 143), what the [k]-th
    call of [_inference] finds of the world, [Path.mkdir] and
    [save_image]. *)
Record host : Type := Host {
  load_network : string -> result network;
  world_of_call : nat -> world;
  mkdir : string -> result unit;
  save_image : tensor3 -> string -> string -> result unit
}.

(** [s.split(sep)] for a separator of one character: every occurrence
    splits, and empty pieces are kept. *)
Fixpoint split_on (sep : ascii) (s : string) : list string :=
  match s with
  | EmptyString => [EmptyString]
  | String c s' =>
      if Ascii.eqb c sep then EmptyString :: split_on sep s'
      else match split_on sep s' with
           | piece :: pieces => String c piece :: pieces
           | [] => [String c EmptyString]
           end
  end.

(** [sep.join(pieces)] *)
Fixpoint join_with (sep : ascii) (pieces : list string) : string :=
  match pieces with
  | [] => EmptyString
  | [piece] => piece
  | piece :: pieces' => (piece ++ String sep (join_with sep pieces'))%string
  end.

(** [image_path.split('/')[-1]] *)
Definition basename (image_path : string) : string :=
  List.last (split_on "/"%char image_path) EmptyString.

(** Lines 145 to 147: the calls of [_inference], the [k]-th first. *)
Fixpoint infer_each (fuel : nat) (h : host) (net : network)
    (images : list pyobj) (image_size : Z) (k : nat)
  : result (list (tensor3 * string)) :=
  match images with
  | [] => Ret []
  | inp :: images' =>
      r ← _inference fuel (world_of_call h k) net inp image_size;
      results ← infer_each fuel h net images' image_size (S k);
      Ret (r :: results)
  end.

(** Lines 150 to 156: the events of the saving loop, and how it ends. *)
Fixpoint save_each (h : host) (outdir : string)
    (results : list (tensor3 * string)) : list event * result unit :=
  match results with
  | [] => ([], Ret tt)
  | (ei, image_path) :: results' =>
      match mkdir h outdir with
      | Ret _ =>
          let output_name := basename image_path in
          match save_image h ei outdir output_name with
          | Ret _ =>
              let '(events, r) := save_each h outdir results' in
              (Mkdir outdir :: SaveImage ei outdir output_name :: events, r)
          | Raise e => ([Mkdir outdir], Raise e)
          | Timeout => ([Mkdir outdir], Timeout)
          end
      | Raise e => ([], Raise e)
      | Timeout => ([], Timeout)
      end
  end.

(** [inference]: the events on the disk, and the value returned or the
    exception raised. *)
Definition inference (fuel : nat) (h : host) (weights : string)
    (images : images_arg) (image_size : Z) (outdir : option string)
  : list event * result (list (tensor3 * string)) :=
  let images := match images with
                | OneImage inp => [inp]
                | ImageList inps => inps
                end in
  match net ← load_network h weights;
        infer_each fuel h net images image_size 0 with
  | Ret results =>
      match outdir with
      | None => ([], Ret results)
      | Some outdir =>
          let '(events, r) := save_each h outdir results in
          (events, _ ← r; Ret results)
      end
  | Raise e => ([], Raise e)
  | Timeout => ([], Timeout)
  end.

(** The events of a saving loop in which nothing fails: for every result,
    the directory is made and the image is saved under its base name. *)
Definition saved_events (outdir : string)
    (results : list (tensor3 * string)) : list event :=
  r ← results; [Mkdir outdir; SaveImage r.1 outdir (basename r.2)].

(** * Properties *)

(** ** Rounding *)

Section FloatFacts.

Local Open Scope Q_scope.

Lemma pow2_pos e : 0 < pow2 e.
Proof. by apply Qpower_0_lt. Qed.

Lemma pow2_add a b : pow2 (a + b) == pow2 a * pow2 b.
Proof. by apply Qpower_plus. Qed.

Lemma pow2_le a b : (a <= b)%Z -> pow2 a <= pow2 b.
Proof. intros H. by apply Qpower_le_compat_l. Qed.

Lemma pow2_lt a b : (a < b)%Z -> pow2 a < pow2 b.
Proof. intros H. by apply Qpower_lt_compat_l. Qed.

Lemma pow2_lt_inv a b : pow2 a < pow2 b -> (a < b)%Z.
Proof.
  intros H. destruct (Z.lt_ge_cases a b) as [|Hge]; [done|].
  apply pow2_le in Hge. lra.
Qed.

Lemma pow2_Z n : (0 <= n)%Z -> pow2 n == inject_Z (2 ^ n).
Proof. intros H. unfold pow2. by rewrite Zpower_Qpower. Qed.

Lemma ilog2_spec q : 0 < q -> pow2 (ilog2 q) <= q /\ q < pow2 (ilog2 q + 1).
Proof.
  intros Hq. destruct q as [n d].
  assert (0 < n)%Z as Hn by (unfold Qlt in Hq; simpl in Hq; lia).
  unfold ilog2. cbn [Qnum Qden].
  set (a := Z.log2 n). set (b := Z.log2 (Z.pos d)).
  destruct (Z.log2_spec n Hn) as [Ha1 Ha2].
  destruct (Z.log2_spec (Z.pos d) ltac:(lia)) as [Hb1 Hb2].
  fold a in Ha1, Ha2. fold b in Hb1, Hb2.
  assert (0 <= a)%Z by apply Z.log2_nonneg.
  assert (0 <= b)%Z by apply Z.log2_nonneg.
  assert (Hd : 0 < inject_Z (Z.pos d)) by done.
  assert (Hn2 : inject_Z n < pow2 (a + 1)).
  { rewrite pow2_Z by lia. rewrite <- Zlt_Qlt. lia. }
  assert (Hd1 : pow2 b <= inject_Z (Z.pos d)).
  { rewrite pow2_Z by lia. by rewrite <- Zle_Qle. }
  assert (Hup : n # d < pow2 (a - b + 1)).
  { rewrite Qmake_Qdiv. apply Qlt_shift_div_r; [done|].
    eapply Qlt_le_trans; [exact Hn2|].
    replace (a + 1)%Z with (a - b + 1 + b)%Z by lia. rewrite pow2_add.
    apply Qmult_le_l; [apply pow2_pos|done]. }
  assert (Hn1 : pow2 a <= inject_Z n).
  { rewrite pow2_Z by lia. by rewrite <- Zle_Qle. }
  assert (Hd2 : inject_Z (Z.pos d) <= pow2 (b + 1)).
  { rewrite pow2_Z by lia. rewrite <- Zle_Qle. lia. }
  assert (Hlow : pow2 (a - b - 1) <= n # d).
  { rewrite Qmake_Qdiv. apply Qle_shift_div_l; [done|].
    eapply Qle_trans; [|exact Hn1].
    replace a with (a - b - 1 + (b + 1))%Z at 2 by lia. rewrite pow2_add.
    apply Qmult_le_l; [apply pow2_pos|done]. }
  destruct (Qle_bool (pow2 (a - b)) (n # d)) eqn:E.
  - apply Qle_bool_iff in E. by split.
  - split; [done|]. replace (a - b - 1 + 1)%Z with (a - b)%Z by lia.
    apply Qnot_le_lt. intros Hle. apply Qle_bool_iff in Hle. congruence.
Qed.

Lemma ilog2_unique q k : pow2 k <= q -> q < pow2 (k + 1) -> ilog2 q = k.
Proof.
  intros H1 H2.
  assert (0 < q) as Hq by (pose proof (pow2_pos k); lra).
  destruct (ilog2_spec q Hq) as [H3 H4].
  assert (ilog2 q < k + 1)%Z by (apply pow2_lt_inv; lra).
  assert (k < ilog2 q + 1)%Z by (apply pow2_lt_inv; lra).
  lia.
Qed.

Lemma ilog2_comp x y : 0 < x -> x == y -> ilog2 x = ilog2 y.
Proof.
  intros Hx Hxy. destruct (ilog2_spec x Hx) as [H1 H2].
  symmetry. apply ilog2_unique; lra.
Qed.

Lemma ilog2_mono x y : 0 < x -> x <= y -> (ilog2 x <= ilog2 y)%Z.
Proof.
  intros Hx Hxy. destruct (ilog2_spec x Hx) as [H1 _].
  destruct (ilog2_spec y ltac:(lra)) as [_ H2].
  assert (ilog2 x < ilog2 y + 1)%Z by (apply pow2_lt_inv; lra). lia.
Qed.

Lemma rint_comp x y : x == y -> rint x = rint y.
Proof.
  intros H. unfold rint. rewrite (Qfloor_comp x y H).
  by rewrite (Qcompare_comp (x - inject_Z (Qfloor y)) (y - inject_Z (Qfloor y))
                ltac:(by rewrite H) (1 # 2) (1 # 2) ltac:(reflexivity)).
Qed.

Lemma rint_range x : (Qfloor x <= rint x <= Qfloor x + 1)%Z.
Proof.
  unfold rint. destruct (_ ?= _); [destruct (Z.even _)|..]; lia.
Qed.

Lemma rint_Z n : rint (inject_Z n) = n.
Proof.
  unfold rint. rewrite Qfloor_Z.
  destruct (Qcompare_spec (inject_Z n - inject_Z n) (1 # 2)); [lra|done|lra].
Qed.

Lemma rint_mono x y : x <= y -> (rint x <= rint y)%Z.
Proof.
  intros Hxy. pose proof (Qfloor_resp_le x y Hxy) as Hf.
  destruct (Z.eq_dec (Qfloor x) (Qfloor y)) as [Heq|Hne].
  - unfold rint. rewrite Heq.
    destruct (Qcompare_spec (x - inject_Z (Qfloor y)) (1 # 2)),
             (Qcompare_spec (y - inject_Z (Qfloor y)) (1 # 2));
      destruct (Z.even (Qfloor y)); try lia; lra.
  - pose proof (rint_range x). pose proof (rint_range y). lia.
Qed.

Lemma rint_le_Z x n : x <= inject_Z n -> (rint x <= n)%Z.
Proof. intros H. rewrite <- (rint_Z n). by apply rint_mono. Qed.

Lemma rint_ge_Z x n : inject_Z n <= x -> (n <= rint x)%Z.
Proof. intros H. rewrite <- (rint_Z n). by apply rint_mono. Qed.

Lemma Qdiv_pow2 a e : a / pow2 e * pow2 e == a.
Proof. pose proof (pow2_pos e). field. lra. Qed.

Section Rounding.

Variable fmt : format.
Hypothesis Hprec : (1 <= prec fmt)%Z.

Lemma exponent_mono a b :
  0 < a -> a <= b -> (exponent fmt a <= exponent fmt b)%Z.
Proof.
  intros Ha Hab. pose proof (ilog2_mono a b Ha Hab). unfold exponent. lia.
Qed.

Lemma exponent_comp a b : 0 < a -> a == b -> exponent fmt a = exponent fmt b.
Proof. intros Ha Hab. unfold exponent. by rewrite (ilog2_comp a b). Qed.

(** The scaled magnitude lies below [2^prec]. *)
Lemma scaled_lt a : 0 < a -> a / pow2 (exponent fmt a) < pow2 (prec fmt).
Proof.
  intros Ha. destruct (ilog2_spec a Ha) as [_ Hup].
  apply Qlt_shift_div_r; [apply pow2_pos|]. rewrite <- pow2_add.
  eapply Qlt_le_trans; [exact Hup|]. apply pow2_le. unfold exponent. lia.
Qed.

Lemma significand_le a :
  0 < a -> (rint (a / pow2 (exponent fmt a)) <= 2 ^ prec fmt)%Z.
Proof.
  intros Ha. apply rint_le_Z. rewrite <- pow2_Z by lia.
  apply Qlt_le_weak. by apply scaled_lt.
Qed.

Lemma significand_nonneg a : 0 < a -> (0 <= rint (a / pow2 (exponent fmt a)))%Z.
Proof.
  intros Ha. apply rint_ge_Z. apply Qle_shift_div_l; [apply pow2_pos|].
  change (inject_Z 0) with 0. rewrite Qmult_0_l. lra.
Qed.

Lemma significand_ge a :
  0 < a -> (emin fmt < exponent fmt a)%Z ->
  (2 ^ (prec fmt - 1) <= rint (a / pow2 (exponent fmt a)))%Z.
Proof.
  intros Ha He. apply rint_ge_Z. rewrite <- pow2_Z by lia.
  apply Qle_shift_div_l; [apply pow2_pos|]. rewrite <- pow2_add.
  destruct (ilog2_spec a Ha) as [Hlow _].
  eapply Qle_trans; [|exact Hlow]. apply pow2_le. unfold exponent in *. lia.
Qed.

Lemma round_pos_nonneg a : 0 < a -> 0 <= round_pos fmt a.
Proof.
  intros Ha. unfold round_pos. apply Qmult_le_0_compat.
  - change 0 with (inject_Z 0). rewrite <- Zle_Qle. by apply significand_nonneg.
  - apply Qlt_le_weak, pow2_pos.
Qed.

Lemma round_pos_comp a b :
  0 < a -> a == b -> round_pos fmt a == round_pos fmt b.
Proof.
  intros Ha Hab. unfold round_pos. rewrite (exponent_comp a b Ha Hab).
  rewrite (rint_comp (a / pow2 (exponent fmt b)) (b / pow2 (exponent fmt b)));
    [reflexivity|by rewrite Hab].
Qed.

Lemma round_pos_mono a b :
  0 < a -> a <= b -> round_pos fmt a <= round_pos fmt b.
Proof.
  intros Ha Hab. assert (0 < b) as Hb by lra.
  pose proof (exponent_mono a b Ha Hab) as He.
  destruct (Z.eq_dec (exponent fmt a) (exponent fmt b)) as [Heq|Hne].
  - unfold round_pos. rewrite Heq. apply Qmult_le_compat_r.
    + rewrite <- Zle_Qle. apply rint_mono.
      apply Qmult_le_compat_r; [done|]. apply Qinv_le_0_compat.
      apply Qlt_le_weak, pow2_pos.
    + apply Qlt_le_weak, pow2_pos.
  - assert (emin fmt < exponent fmt b)%Z as Hnorm by (unfold exponent in *; lia).
    pose proof (significand_le a Ha) as Hm.
    pose proof (significand_ge b Hb Hnorm) as Hm'.
    unfold round_pos.
    apply Qle_trans with (pow2 (prec fmt + exponent fmt a)).
    + rewrite pow2_add, (pow2_Z (prec fmt)) by lia.
      apply Qmult_le_compat_r; [by rewrite <- Zle_Qle|].
      apply Qlt_le_weak, pow2_pos.
    + apply Qle_trans with (pow2 (prec fmt - 1 + exponent fmt b)).
      * apply pow2_le. lia.
      * rewrite pow2_add, (pow2_Z (prec fmt - 1)) by lia.
        apply Qmult_le_compat_r; [by rewrite <- Zle_Qle|].
        apply Qlt_le_weak, pow2_pos.
Qed.

(** A number [M * 2^E] with [M] of at most [prec] bits and [E] in range is
    a value of the format: rounding leaves it as it is. *)
Lemma round_pos_repr a (M E : Z) :
  (0 < M < 2 ^ prec fmt)%Z -> (emin fmt <= E)%Z ->
  a == inject_Z M * pow2 E -> round_pos fmt a == a.
Proof.
  intros HM HE Ha. pose proof (pow2_pos E) as HpE.
  assert (0 < inject_Z M) as HM0.
  { change 0 with (inject_Z 0). rewrite <- Zlt_Qlt. lia. }
  assert (0 < a) as Hpos.
  { rewrite Ha. by apply Qmult_lt_0_compat. }
  assert (a < pow2 (prec fmt + E)) as Hup.
  { rewrite Ha, pow2_add, (pow2_Z (prec fmt)) by lia.
    apply Qmult_lt_compat_r; [done|]. rewrite <- Zlt_Qlt. lia. }
  destruct (ilog2_spec a Hpos) as [Hlow _].
  assert (ilog2 a < prec fmt + E)%Z by (apply pow2_lt_inv; lra).
  set (e := exponent fmt a).
  assert (e <= E)%Z as HeE by (unfold e, exponent; lia).
  assert (a / pow2 e == inject_Z (M * 2 ^ (E - e))) as Hscaled.
  { rewrite inject_Z_mult, <- (pow2_Z (E - e)) by lia.
    apply Qmult_inj_r with (pow2 e); [pose proof (pow2_pos e); lra|].
    rewrite Qdiv_pow2, <- Qmult_assoc, <- pow2_add.
    by replace (E - e + e)%Z with E by lia. }
  unfold round_pos. fold e. rewrite (rint_comp _ _ Hscaled), rint_Z.
  rewrite <- Hscaled. apply Qdiv_pow2.
Qed.

(** What rounding returns is a value of the format. *)
Lemma round_pos_fixed a :
  0 < a ->
  round_pos fmt a == 0
  \/ (0 < round_pos fmt a
      /\ round_pos fmt (round_pos fmt a) == round_pos fmt a).
Proof.
  intros Ha. pose proof (significand_nonneg a Ha) as H0.
  pose proof (significand_le a Ha) as H1.
  set (m := rint (a / pow2 (exponent fmt a))) in *.
  set (e := exponent fmt a).
  assert (round_pos fmt a = inject_Z m * pow2 e) as Hr by done.
  assert (emin fmt <= e)%Z by (unfold e, exponent; lia).
  pose proof (pow2_pos e) as Hpe.
  destruct (Z.eq_dec m 0%Z) as [Hm0|Hm0].
  { left. rewrite Hr, Hm0. ring. }
  right.
  assert (0 < round_pos fmt a) as Hpos.
  { rewrite Hr. apply Qmult_lt_0_compat; [|done].
    change 0 with (inject_Z 0). rewrite <- Zlt_Qlt. lia. }
  split; [done|].
  destruct (Z.eq_dec m (2 ^ prec fmt)%Z) as [Hmax|Hmax].
  - apply (round_pos_repr _ 1 (prec fmt + e)).
    + split; [lia|]. apply Z.pow_gt_1; lia.
    + lia.
    + rewrite Hr, Hmax, pow2_add, <- (pow2_Z (prec fmt)) by lia. ring.
  - apply (round_pos_repr _ m e); [lia|done|by rewrite Hr].
Qed.

Lemma round_pos_eq q : 0 < q -> round fmt q == round_pos fmt q.
Proof.
  intros Hq. unfold round. rewrite Qred_correct.
  destruct (Qcompare_spec q 0); [lra|lra|reflexivity].
Qed.

Lemma round_neg_eq q : q < 0 -> round fmt q == - round_pos fmt (- q).
Proof.
  intros Hq. unfold round. rewrite Qred_correct.
  destruct (Qcompare_spec q 0); [lra|reflexivity|lra].
Qed.

Lemma round_zero q : q == 0 -> round fmt q = 0.
Proof.
  intros Hq. unfold round. destruct (Qcompare_spec q 0); [done|lra|lra].
Qed.

Lemma round_comp x y : x == y -> round fmt x = round fmt y.
Proof.
  intros Hxy. unfold round.
  rewrite (Qcompare_comp x y Hxy 0 0 ltac:(reflexivity)).
  apply Qred_complete. destruct (Qcompare_spec y 0) as [|Hlt|Hgt]; [done|..].
  - apply Qopp_comp, round_pos_comp; [lra|by rewrite Hxy].
  - apply round_pos_comp; [lra|done].
Qed.

Lemma round_nonneg q : 0 <= q -> 0 <= round fmt q.
Proof.
  intros Hq. destruct (Qlt_le_dec 0 q) as [Hpos|Hle].
  - rewrite round_pos_eq by done. by apply round_pos_nonneg.
  - rewrite (round_zero q) by lra. lra.
Qed.

Lemma round_nonpos q : q <= 0 -> round fmt q <= 0.
Proof.
  intros Hq. destruct (Qlt_le_dec q 0) as [Hneg|Hle].
  - rewrite round_neg_eq by done.
    pose proof (round_pos_nonneg (- q) ltac:(lra)). lra.
  - rewrite (round_zero q) by lra. lra.
Qed.

(** Rounding is monotone. *)
Lemma round_mono x y : x <= y -> round fmt x <= round fmt y.
Proof.
  intros Hxy. destruct (Qlt_le_dec 0 x) as [Hx|Hx].
  - rewrite !round_pos_eq by lra. by apply round_pos_mono.
  - destruct (Qlt_le_dec y 0) as [Hy|Hy].
    + rewrite !round_neg_eq by lra. apply Qopp_le_compat.
      apply round_pos_mono; lra.
    + apply Qle_trans with 0; [by apply round_nonpos|by apply round_nonneg].
Qed.

(** A value of the format is rounded to itself. *)
Lemma round_repr q (M E : Z) :
  (Z.abs M < 2 ^ prec fmt)%Z -> (emin fmt <= E)%Z ->
  q == inject_Z M * pow2 E -> round fmt q == q.
Proof.
  intros HM HE Hq. pose proof (pow2_pos E) as HpE.
  destruct (Z.lt_trichotomy M 0%Z) as [Hneg|[Hz|Hpos]].
  - assert (inject_Z M < 0) by (change 0 with (inject_Z 0); rewrite <- Zlt_Qlt; lia).
    assert (q < 0) as Hq0.
    { rewrite Hq. apply Qlt_le_trans with (0 * pow2 E); [|lra].
      by apply Qmult_lt_compat_r. }
    rewrite round_neg_eq by done.
    rewrite (round_pos_repr (- q) (- M) E); [ring|lia|done|].
    rewrite Hq, inject_Z_opp. ring.
  - rewrite round_zero; [|rewrite Hq, Hz; ring]. rewrite Hq, Hz. ring.
  - assert (0 < inject_Z M) by (change 0 with (inject_Z 0); rewrite <- Zlt_Qlt; lia).
    assert (0 < q) as Hq0 by (rewrite Hq; by apply Qmult_lt_0_compat).
    rewrite round_pos_eq by done. apply (round_pos_repr q M E); [lia|done..].
Qed.

Lemma round_inject_Z (n : Z) :
  (Z.abs n <= 2 ^ prec fmt)%Z -> (emin fmt <= 0)%Z ->
  round fmt (inject_Z n) == inject_Z n.
Proof.
  intros Hn He.
  destruct (Z.eq_dec (Z.abs n) (2 ^ prec fmt)%Z) as [Hmax|Hmax].
  - apply (round_repr _ (Z.sgn n) (prec fmt)).
    + assert (1 < 2 ^ prec fmt)%Z by (apply Z.pow_gt_1; lia). lia.
    + lia.
    + rewrite (pow2_Z (prec fmt)), <- inject_Z_mult by lia. rewrite <- Hmax.
      by destruct n.
  - apply (round_repr _ n 0); [lia|done|]. unfold pow2. simpl. ring.
Qed.

Lemma round_canonical x q : round fmt x == q -> round fmt x = Qred q.
Proof.
  intros H. unfold round in *. apply Qred_complete.
  by rewrite Qred_correct in H.
Qed.

(** Rounding twice is rounding once. *)
Lemma round_idem q : round fmt (round fmt q) = round fmt q.
Proof.
  assert (Hred : Qred (round fmt q) = round fmt q).
  { unfold round. apply Qred_complete, Qred_correct. }
  rewrite <- Hred at 2. apply round_canonical.
  destruct (Q_dec q 0) as [[Hneg|Hpos]|Hz].
  - pose proof (round_neg_eq q Hneg) as Hr.
    destruct (round_pos_fixed (- q) ltac:(lra)) as [H0|[Hp Hfix]].
    + rewrite (round_zero (round fmt q)) by lra. lra.
    + rewrite round_neg_eq by lra.
      rewrite (round_pos_comp (- round fmt q) (round_pos fmt (- q))) by lra.
      lra.
  - pose proof (round_pos_eq q Hpos) as Hr.
    destruct (round_pos_fixed q Hpos) as [H0|[Hp Hfix]].
    + rewrite (round_zero (round fmt q)) by lra. lra.
    + rewrite round_pos_eq by lra.
      rewrite (round_pos_comp (round fmt q) (round_pos fmt q)) by lra.
      lra.
  - rewrite (round_zero q Hz). by rewrite round_zero.
Qed.

End Rounding.

Section FloatValues.

Variable fmt : format.
Hypothesis Hprec : (1 <= prec fmt)%Z.

Lemma finish_fin r :
  - pow2 (emax fmt) < r -> r < pow2 (emax fmt) -> finish fmt r = Fin r.
Proof.
  intros Hlo Hhi. unfold finish.
  destruct (Qle_bool (pow2 (emax fmt)) r) eqn:E1.
  { apply Qle_bool_iff in E1. lra. }
  destruct (Qle_bool r (- pow2 (emax fmt))) eqn:E2; [|done].
  apply Qle_bool_iff in E2. lra.
Qed.

Lemma finish_fin_inv r x :
  finish fmt r = Fin x -> x = r /\ - pow2 (emax fmt) < r /\ r < pow2 (emax fmt).
Proof.
  unfold finish.
  destruct (Qle_bool (pow2 (emax fmt)) r) eqn:E1; [done|].
  destruct (Qle_bool r (- pow2 (emax fmt))) eqn:E2; [done|].
  intros [= <-]. split; [done|]. split; apply Qnot_le_lt; intros Hle;
    apply Qle_bool_iff in Hle; congruence.
Qed.

(** A result between two numbers that round into the range is finite, and
    lies between what they round to. *)
Lemma round_fl_between lo hi q :
  lo <= q -> q <= hi ->
  - pow2 (emax fmt) < round fmt lo -> round fmt hi < pow2 (emax fmt) ->
  round_fl fmt q = Fin (round fmt q)
  /\ round fmt lo <= round fmt q /\ round fmt q <= round fmt hi.
Proof.
  intros Hlo Hhi Hrlo Hrhi.
  pose proof (round_mono fmt Hprec lo q Hlo).
  pose proof (round_mono fmt Hprec q hi Hhi).
  split; [|done]. apply finish_fin; lra.
Qed.

Lemma round_fl_idem q : cast fmt (round_fl fmt q) = round_fl fmt q.
Proof.
  unfold round_fl. destruct (finish fmt (round fmt q)) as [x| | |] eqn:E;
    [|done..].
  apply finish_fin_inv in E as (-> & Hlo & Hhi). simpl. unfold round_fl.
  rewrite round_idem by done. by apply finish_fin.
Qed.

(** Converting twice is converting once. *)
Lemma cast_idem v : cast fmt (cast fmt v) = cast fmt v.
Proof. destruct v; [apply round_fl_idem|done..]. Qed.

End FloatValues.

Lemma binary64_prec : (1 <= prec binary64)%Z.
Proof. done. Qed.

Lemma binary32_prec : (1 <= prec binary32)%Z.
Proof. done. Qed.

Lemma Qred_inject_Z z : Qred (inject_Z z) = inject_Z z.
Proof.
  unfold Qred, inject_Z.
  pose proof (Z.ggcd_gcd z 1) as Hg. pose proof (Z.ggcd_correct_divisors z 1) as Hd.
  destruct (Z.ggcd z 1) as [g [a b]]. simpl in *.
  rewrite Z.gcd_1_r in Hg. subst g. destruct Hd as [Ha Hb].
  rewrite Z.mul_1_l in Ha, Hb. by subst.
Qed.

(** The integers up to [2^53] are binary64 values. *)
Lemma round_binary64_Z z :
  (Z.abs z <= 2 ^ 53)%Z -> round binary64 (inject_Z z) = inject_Z z.
Proof.
  intros Hz. rewrite <- (Qred_inject_Z z) at 2. apply round_canonical.
  by apply round_inject_Z.
Qed.

(** The integers up to [2^24] are float32 values, the 8-bit values among
    them. *)
Lemma int_is_float32 (z : Z) :
  (Z.abs z <= 2 ^ 24)%Z -> is_float binary32 (Fin (inject_Z z)).
Proof.
  intros Hz. unfold is_float. cbn [cast]. unfold round_fl.
  assert (round binary32 (inject_Z z) = inject_Z z) as ->.
  { rewrite <- (Qred_inject_Z z) at 2. apply round_canonical.
    apply round_inject_Z; [done|simpl; lia|done]. }
  assert (inject_Z (2 ^ 24) < pow2 (emax binary32)) by by vm_compute.
  assert (- inject_Z (2 ^ 24) <= inject_Z z /\ inject_Z z <= inject_Z (2 ^ 24))
    as [Hlo Hhi].
  { rewrite <- inject_Z_opp, <- !Zle_Qle. lia. }
  apply finish_fin; lra.
Qed.

(** *** Truncation *)

Lemma trunc_floor q : 0 <= q -> trunc q = Qfloor q.
Proof.
  destruct q as [n d]. unfold Qle, trunc, Qfloor. simpl. intros Hn.
  apply Z.quot_div_nonneg; lia.
Qed.

Lemma trunc_nonneg q : 0 <= q -> (0 <= trunc q)%Z.
Proof.
  intros Hq. rewrite trunc_floor by done. change 0%Z with (Qfloor 0).
  by apply Qfloor_resp_le.
Qed.

Lemma trunc_nonpos q : q <= 0 -> (trunc q <= 0)%Z.
Proof.
  destruct q as [n d]. unfold Qle, trunc. simpl. intros Hn.
  rewrite <- (Z.opp_involutive n), Z.quot_opp_l by done.
  apply Z.opp_nonpos_nonneg, Z.quot_pos; lia.
Qed.

Lemma trunc_mono x y : 0 <= x -> x <= y -> (trunc x <= trunc y)%Z.
Proof.
  intros Hx Hxy. rewrite !trunc_floor by lra. by apply Qfloor_resp_le.
Qed.

Lemma trunc_inject_Z z : trunc (inject_Z z) = z.
Proof. unfold trunc. simpl. apply Z.quot_1_r. Qed.

Lemma trunc_le_Z q z : 0 <= q -> q <= inject_Z z -> (trunc q <= z)%Z.
Proof.
  intros Hq Hz. rewrite <- (trunc_inject_Z z). by apply trunc_mono.
Qed.

End FloatFacts.

(** ** The stride *)

Section StrideFacts.

Local Open Scope Q_scope.

Lemma round64_0 : round binary64 0 = 0.
Proof. by vm_compute. Qed.

Lemma round64_1 : round binary64 1 = 1.
Proof. by vm_compute. Qed.

Lemma pow2_1024_gt_1 : 1 < pow2 1024.
Proof. change 1 with (pow2 0). by apply pow2_lt. Qed.

Lemma float_int_limit_above : (2 ^ 53 < float_int_limit)%Z.
Proof. done. Qed.

Lemma float_of_int_inv z v :
  float_of_int z = Ret v ->
  v = Fin (round binary64 (inject_Z z))
  /\ - pow2 1024 < round binary64 (inject_Z z)
  /\ round binary64 (inject_Z z) < pow2 1024.
Proof.
  unfold float_of_int, round_fl.
  destruct (finish binary64 (round binary64 (inject_Z z))) as [x| | |] eqn:E;
    [|done..].
  intros [= <-]. by apply finish_fin_inv in E as (-> & Hlo & Hhi).
Qed.

Lemma float_of_int_cases z :
  float_of_int z = Ret (Fin (round binary64 (inject_Z z)))
  \/ float_of_int z = Raise OverflowError.
Proof.
  destruct (float_of_int z) as [v| |] eqn:E.
  - left. by apply float_of_int_inv in E as (-> & _).
  - right. unfold float_of_int in E. by destruct (round_fl _ _); simplify_eq.
  - unfold float_of_int in E. by destruct (round_fl _ _).
Qed.

Lemma float_of_int_1 : float_of_int 1 = Ret (Fin 1).
Proof. by vm_compute. Qed.

(** The ints that convert: those below [float_int_limit] in magnitude. *)
Lemma float_of_int_small z :
  (0 <= z < float_int_limit)%Z ->
  float_of_int z = Ret (Fin (round binary64 (inject_Z z))).
Proof.
  intros Hz. unfold float_of_int, round_fl.
  assert (Hlast : round binary64 (inject_Z (float_int_limit - 1)) < pow2 1024)
    by by vm_compute.
  pose proof (round_mono binary64 binary64_prec (inject_Z z)
                (inject_Z (float_int_limit - 1))
                ltac:(rewrite <- Zle_Qle; lia)) as Hup.
  pose proof (round_nonneg binary64 (inject_Z z)
                ltac:(change 0 with (inject_Z 0); rewrite <- Zle_Qle; lia))
    as Hlow.
  pose proof pow2_1024_gt_1.
  rewrite finish_fin; [done|simpl; lra..].
Qed.

Lemma float_of_int_overflow z :
  (float_int_limit <= z)%Z -> float_of_int z = Raise OverflowError.
Proof.
  intros Hz. unfold float_of_int, round_fl.
  assert (Hfirst : pow2 1024 <= round binary64 (inject_Z float_int_limit))
    by by vm_compute.
  pose proof (round_mono binary64 binary64_prec (inject_Z float_int_limit)
                (inject_Z z) ltac:(rewrite <- Zle_Qle; lia)) as Hup.
  unfold finish. simpl emax.
  rewrite (proj2 (Qle_bool_iff _ _)); [done|lra].
Qed.

Lemma stride_of_int split_size (z : Z) :
  stride_of split_size (PyInt z) = Ret (split_size * (1 - z))%Z.
Proof. reflexivity. Qed.

(** Line 25 on a float overlap: the window is converted, and the product
    of two floats is truncated. *)
Lemma stride_of_float split_size (v : fl) :
  stride_of split_size (PyFloat v)
  = (x ← float_of_int split_size;
     py_int (PyFloat (fl_mul binary64 x (fl_sub binary64 (Fin 1) v)))).
Proof.
  unfold stride_of, py_sub, py_mul, to_float. rewrite float_of_int_1.
  cbn [mbind result_bind mret result_ret].
  by destruct (float_of_int split_size).
Qed.

(** [1 - overlap] for an overlap in [0, 1]. *)
Lemma one_minus_unit (f : Q) :
  0 <= f -> f <= 1 ->
  fl_sub binary64 (Fin 1) (Fin f) = Fin (round binary64 (1 - f))
  /\ 0 <= round binary64 (1 - f) /\ round binary64 (1 - f) <= 1.
Proof.
  intros H0 H1. pose proof pow2_1024_gt_1.
  destruct (round_fl_between binary64 binary64_prec 0 1 (1 - f))
    as (Hfin & Hlo & Hhi); [lra|lra|rewrite round64_0; simpl; lra
                           |rewrite round64_1; simpl; lra|].
  rewrite round64_0 in Hlo. rewrite round64_1 in Hhi. done.
Qed.

(** A float times a float in [0, 1]: the product stays between 0 and the
    first. *)
Lemma mul_unit_nonneg (x d : Q) :
  0 <= x -> round binary64 x = x -> x < pow2 1024 -> 0 <= d -> d <= 1 ->
  fl_mul binary64 (Fin x) (Fin d) = Fin (round binary64 (x * d))
  /\ 0 <= round binary64 (x * d) /\ round binary64 (x * d) <= x.
Proof.
  intros Hx Hfx Hmax Hd0 Hd1. pose proof pow2_1024_gt_1.
  destruct (round_fl_between binary64 binary64_prec 0 x (x * d))
    as (Hfin & Hlo & Hhi); [nra|nra|rewrite round64_0; simpl; lra
                           |rewrite Hfx; simpl; lra|].
  rewrite round64_0 in Hlo. rewrite Hfx in Hhi. done.
Qed.

Lemma mul_unit_nonpos (x d : Q) :
  x <= 0 -> round binary64 x = x -> - pow2 1024 < x -> 0 <= d -> d <= 1 ->
  fl_mul binary64 (Fin x) (Fin d) = Fin (round binary64 (x * d))
  /\ x <= round binary64 (x * d) /\ round binary64 (x * d) <= 0.
Proof.
  intros Hx Hfx Hmin Hd0 Hd1. pose proof pow2_1024_gt_1.
  destruct (round_fl_between binary64 binary64_prec x 0 (x * d))
    as (Hfin & Hlo & Hhi); [nra|nra|rewrite Hfx; simpl; lra
                           |rewrite round64_0; simpl; lra|].
  rewrite round64_0 in Hhi. rewrite Hfx in Hlo. done.
Qed.

(** The stride for a float overlap in [0, 1], once the window has been
    converted. *)
Lemma stride_of_unit_eq split_size (f x : Q) :
  float_of_int split_size = Ret (Fin x) -> 0 <= f -> f <= 1 ->
  stride_of split_size f
  = Ret (trunc (round binary64 (x * round binary64 (1 - f)))).
Proof.
  intros Hx H0 H1. rewrite stride_of_float, Hx.
  cbn [mbind result_bind].
  destruct (one_minus_unit f H0 H1) as (-> & Hd0 & Hd1).
  apply float_of_int_inv in Hx as (Hxeq & Hmin & Hmax).
  injection Hxeq as ->.
  set (x := round binary64 (inject_Z split_size)) in *.
  assert (round binary64 x = x) as Hfx by apply (round_idem _ binary64_prec).
  destruct (Qlt_le_dec x 0) as [Hneg|Hpos].
  - by destruct (mul_unit_nonpos x _ ltac:(lra) Hfx Hmin Hd0 Hd1) as (-> & _).
  - by destruct (mul_unit_nonneg x _ Hpos Hfx Hmax Hd0 Hd1) as (-> & _).
Qed.

(** For a window that is not negative and an overlap in [0, 1] the stride
    is not negative, and not above a window of at most [2^53]. *)
Lemma stride_of_unit split_size (f : Q) :
  (0 <= split_size)%Z -> 0 <= f -> f <= 1 ->
  exists s, stride_of split_size f = (_ ← float_of_int split_size; Ret s)
            /\ (0 <= s)%Z /\ ((split_size <= 2 ^ 53)%Z -> (s <= split_size)%Z).
Proof.
  intros Hs H0 H1.
  destruct (float_of_int_cases split_size) as [Hx|Hx].
  - rewrite (stride_of_unit_eq _ _ _ Hx H0 H1), Hx.
    eexists. split; [reflexivity|].
    destruct (one_minus_unit f H0 H1) as (_ & Hd0 & Hd1).
    pose proof (float_of_int_inv _ _ Hx) as (_ & Hmin & Hmax).
    set (x := round binary64 (inject_Z split_size)) in *.
    assert (round binary64 x = x) as Hfx by apply (round_idem _ binary64_prec).
    assert (0 <= x) as Hx0.
    { apply round_nonneg.
      change 0 with (inject_Z 0). rewrite <- Zle_Qle. lia. }
    destruct (mul_unit_nonneg x _ Hx0 Hfx Hmax Hd0 Hd1) as (_ & Hlo & Hhi).
    split; [by apply trunc_nonneg|].
    intros Hsmall. apply trunc_le_Z; [done|].
    apply Qle_trans with x; [exact Hhi|]. unfold x.
    rewrite round_binary64_Z by lia. apply Qle_refl.
  - exists 0%Z. rewrite stride_of_float, Hx. split; [done|]. split; lia.
Qed.

(** A larger overlap gives a stride that is no larger. *)
Lemma stride_of_antitone split_size (f1 f2 : Q) (s1 s2 : Z) :
  (0 <= split_size)%Z -> 0 <= f1 -> f1 <= f2 -> f2 <= 1 ->
  stride_of split_size f1 = Ret s1 -> stride_of split_size f2 = Ret s2 ->
  (s2 <= s1)%Z.
Proof.
  intros Hs H0 H12 H1 Hs1 Hs2.
  destruct (float_of_int_cases split_size) as [Hx|Hx].
  2: { by rewrite stride_of_float, Hx in Hs1. }
  rewrite (stride_of_unit_eq _ f1 _ Hx) in Hs1 by lra.
  rewrite (stride_of_unit_eq _ f2 _ Hx) in Hs2 by lra.
  injection Hs1 as <-. injection Hs2 as <-.
  destruct (one_minus_unit f1) as (_ & Hd1 & _); [lra..|].
  destruct (one_minus_unit f2) as (_ & Hd2 & Hd2'); [lra..|].
  pose proof (round_mono binary64 binary64_prec (1 - f2) (1 - f1) ltac:(lra))
    as Hd.
  pose proof (float_of_int_inv _ _ Hx) as (_ & Hmin & Hmax).
  set (x := round binary64 (inject_Z split_size)) in *.
  assert (round binary64 x = x) as Hfx by apply (round_idem _ binary64_prec).
  assert (0 <= x) as Hx0.
  { apply round_nonneg.
    change 0 with (inject_Z 0). rewrite <- Zle_Qle. lia. }
  destruct (mul_unit_nonneg x _ Hx0 Hfx Hmax Hd2 Hd2') as (_ & Hlo & _).
  apply trunc_mono; [done|]. apply (round_mono _ binary64_prec). nra.
Qed.

(** Overlap 0.0: the stride is the window, for a window of at most
    [2^53]. *)
Lemma stride_of_zero split_size :
  (0 <= split_size <= 2 ^ 53)%Z ->
  stride_of split_size (PyFloat (Fin 0)) = Ret split_size.
Proof.
  intros Hs.
  pose proof (float_of_int_small split_size
                ltac:(pose proof float_int_limit_above; lia)) as Hx.
  rewrite round_binary64_Z in Hx by lia.
  rewrite (stride_of_unit_eq _ _ _ Hx) by done. f_equal.
  assert (round binary64 (1 - 0) = 1) as -> by by vm_compute.
  rewrite (round_comp binary64 (inject_Z split_size * 1) (inject_Z split_size))
    by ring.
  rewrite round_binary64_Z by lia. apply trunc_inject_Z.
Qed.

Lemma round64_seven_eighths : round binary64 (1 - (1 # 8)) = 7 # 8.
Proof. by vm_compute. Qed.

(** The stride of [_inference], at overlap 1/8, is positive from
    window_size 2 on. *)
Lemma stride_eighth_pos (split_size : Z) :
  (2 <= split_size < float_int_limit)%Z ->
  exists s, stride_of split_size (1 # 8) = Ret s /\ (0 < s)%Z.
Proof.
  intros Hs. pose proof (float_of_int_small split_size ltac:(lia)) as Hx.
  rewrite (stride_of_unit_eq _ _ _ Hx) by done.
  eexists. split; [reflexivity|]. rewrite round64_seven_eighths.
  set (x := round binary64 (inject_Z split_size)).
  assert (2 <= x) as Hx2.
  { assert (round binary64 (inject_Z 2) = 2) as <- by by vm_compute.
    apply (round_mono _ binary64_prec). rewrite <- Zle_Qle. lia. }
  assert (7 # 4 <= round binary64 (x * (7 # 8))) as Hr.
  { assert (round binary64 (7 # 4) = 7 # 4) as <- by by vm_compute.
    apply (round_mono _ binary64_prec). lra. }
  apply Z.lt_le_trans with (trunc (7 # 4)); [done|].
  apply trunc_mono; [done|exact Hr].
Qed.

(** It is zero or below for a window of at most 1. *)
Lemma stride_eighth_nonpos (split_size : Z) :
  (split_size <= 1)%Z ->
  exists s, stride_of split_size (1 # 8)
            = (_ ← float_of_int split_size; Ret s)
            /\ (s <= 0)%Z.
Proof.
  intros Hs. destruct (float_of_int_cases split_size) as [Hx|Hx].
  2: { exists 0%Z. by rewrite stride_of_float, Hx. }
  rewrite (stride_of_unit_eq _ _ _ Hx), Hx by done.
  eexists. split; [reflexivity|]. rewrite round64_seven_eighths.
  pose proof (float_of_int_inv _ _ Hx) as (_ & Hmin & Hmax).
  set (x := round binary64 (inject_Z split_size)) in *.
  assert (round binary64 x = x) as Hfx by apply (round_idem _ binary64_prec).
  assert (x <= 1) as Hx1.
  { rewrite <- round64_1. apply (round_mono _ binary64_prec).
    change 1 with (inject_Z 1). rewrite <- Zle_Qle. lia. }
  destruct (Qlt_le_dec x 0) as [Hneg|Hpos].
  - destruct (mul_unit_nonpos x (7 # 8) ltac:(lra) Hfx Hmin) as (_ & _ & Hhi);
      [done..|]. by apply trunc_nonpos.
  - destruct (mul_unit_nonneg x (7 # 8) Hpos Hfx Hmax) as (_ & Hlo & _);
      [done..|].
    assert (round binary64 (x * (7 # 8)) <= 7 # 8) as Hr.
    { apply Qle_trans with (round binary64 (7 # 8)); [|by vm_compute].
      apply (round_mono _ binary64_prec). lra. }
    change 0%Z with (trunc (7 # 8)). by apply trunc_mono.
Qed.

End StrideFacts.

(** ** The model at work *)

(** The floats nearest 0.1, in binary64 and in binary32. *)
Example round64_tenth :
  round binary64 (1 # 10) = 3602879701896397 # 36028797018963968.
Proof. by vm_compute. Qed.

Example round32_tenth : round binary32 (1 # 10) = 13421773 # 134217728.
Proof. by vm_compute. Qed.

(** Above [2^53] not every int is a float: a tie goes to the even
    significand. *)
Example float_of_int_ties :
  float_of_int (2 ^ 53 + 1) = Ret (Fin (inject_Z (2 ^ 53)))
  /\ float_of_int (2 ^ 53 + 3) = Ret (Fin (inject_Z (2 ^ 53 + 4))).
Proof. split; by vm_compute. Qed.

(** The largest int that converts, and the first that does not. *)
Example float_of_int_range :
  float_of_int (float_int_limit - 1)
  = Ret (Fin (inject_Z (2 ^ 1024 - 2 ^ 971)))
  /\ float_of_int float_int_limit = Raise OverflowError.
Proof. split; by vm_compute. Qed.

Example start_points_600_256 :
  start_points 3 600 256 (1 # 8) = Ret [0; 224; 344].
Proof. by vm_compute. Qed.

Example start_points_half_overlap :
  start_points 4 600 256 (1 # 2) = Ret [0; 128; 256; 344].
Proof. by vm_compute. Qed.

Example start_points_window_one : start_points 50 3 1 (1 # 8) = Timeout.
Proof. by vm_compute. Qed.

(** The float nearest 0.1: [1 - overlap] and the product are rounded, and
    the stride of a window of 10 is 9. *)
Example start_points_tenth :
  start_points 11 100 10 (3602879701896397 # 36028797018963968)
  = Ret [0; 9; 18; 27; 36; 45; 54; 63; 72; 81; 90].
Proof. by vm_compute. Qed.

(** An overlap of [2^-60]: [1 - overlap] is rounded to 1. *)
Example start_points_tiny_overlap :
  start_points 2 3 1 (1 # 1152921504606846976) = Ret [0; 1; 2].
Proof. by vm_compute. Qed.

(** A window that does not convert to a float. *)
Example start_points_overflow :
  start_points 1 (2 ^ 1025) (2 ^ 1024) (1 # 2) = Raise OverflowError.
Proof. by vm_compute. Qed.

Example patchify_4_by_4 :
  patchify 5 [[[Fin 1]; [Fin 2]; [Fin 3]; [Fin 4]];
              [[Fin 5]; [Fin 6]; [Fin 7]; [Fin 8]];
              [[Fin 9]; [Fin 10]; [Fin 11]; [Fin 12]];
              [[Fin 13]; [Fin 14]; [Fin 15]; [Fin 16]]] 2 (PyInt 0)
  = Ret ([[[[Fin 1]; [Fin 2]]; [[Fin 5]; [Fin 6]]];
          [[[Fin 3]; [Fin 4]]; [[Fin 7]; [Fin 8]]];
          [[[Fin 9]; [Fin 10]]; [[Fin 13]; [Fin 14]]];
          [[[Fin 11]; [Fin 12]]; [[Fin 15]; [Fin 16]]]],
         [0; 2], [0; 2]).
Proof. by vm_compute. Qed.

Example reconstruct_overwrites :
  reconstruct [[[[Fin 1]; [Fin 1]]]; [[[Fin 2]; [Fin 2]]]] 2 (PyInt 0)
    (1, 3, 1) [0; 1] [0]
  = Ret [[[Fin 1]; [Fin 2]; [Fin 2]]].
Proof. by vm_compute. Qed.

(** The canvas is float32: the float nearest 0.1 comes back as the
    float32 nearest to it. *)
Example reconstruct_casts :
  reconstruct [[[[Fin (3602879701896397 # 36028797018963968)]]]] 1 (PyInt 0)
    (1, 1, 1) [0] [0]
  = Ret [[[Fin (13421773 # 134217728)]]].
Proof. by vm_compute. Qed.

Example reconstruct_too_few_patches :
  reconstruct [[[[Fin 1]; [Fin 1]]]] 2 (PyInt 0) (1, 3, 1) [0; 1] [0]
  = Raise IndexError.
Proof. by vm_compute. Qed.

Example slice_negative_start : py_slice [1; 2; 3; 4; 5] (-2) 5 = [4; 5].
Proof. reflexivity. Qed.

(** [torch.div] of the float32 value 1 by 255, and of the 8-bit value
    51. *)
Example div255_one : div255_value Float32 (Fin 1) = Fin (8421505 # 2147483648).
Proof. by vm_compute. Qed.

Example div255_51 : div255_value UInt8 (Fin 51) = Fin (13421773 # 67108864).
Proof. by vm_compute. Qed.

(** ** The grid *)

Section GridFacts.

Implicit Types (size split_size stride counter : Z) (points : list Z).

(** More fuel never changes an answer already reached. *)
Lemma loop_fuel_mono fuel fuel' size split_size stride st points :
  (fuel <= fuel')%nat ->
  loop fuel size split_size stride st = Ret points ->
  loop fuel' size split_size stride st = Ret points.
Proof.
  revert fuel' st. induction fuel as [|fuel IH]; intros fuel' st Hle; [done|].
  destruct fuel' as [|fuel']; [lia|]. simpl.
  destruct (loop_body size split_size stride st); [|done].
  apply IH. lia.
Qed.

(** The list a finished loop returns: the points it was entered with, the
    multiples of the stride it accepted, and the clamped last point. *)
Lemma loop_closed_form fuel size split_size stride points counter res :
  loop fuel size split_size stride (points, counter) = Ret res ->
  exists n, 0 <= n
    /\ res = points ++ (Z.mul stride <$> seqZ counter n) ++ [size - split_size]
    /\ (forall k, counter <= k < counter + n -> stride * k + split_size < size)
    /\ size <= stride * (counter + n) + split_size.
Proof.
  revert points counter.
  induction fuel as [|fuel IH]; intros points counter; [done|].
  simpl. destruct (Z.geb_spec (stride * counter + split_size) size) as [Hge|Hlt].
  - intros [= <-]. exists 0. rewrite Z.add_0_r.
    split; [lia|]. split; [by rewrite seqZ_nil|]. split; [lia|done].
  - intros (n & Hn & -> & Hacc & Hstop)%IH. exists (n + 1).
    split; [lia|]. split; [|split].
    + rewrite (seqZ_cons counter (n + 1)) by lia.
      replace (Z.pred (n + 1)) with n by lia.
      by rewrite fmap_cons, <- !app_assoc.
    + intros k Hk. destruct (decide (k = counter)) as [->|]; [lia|].
      apply Hacc. lia.
    + by replace (counter + (n + 1)) with (Z.succ counter + n) by lia.
Qed.

(** A positive stride brings the loop to its [break]. *)
Lemma loop_returns fuel size split_size stride points counter :
  0 < stride ->
  (Z.to_nat (size - split_size - stride * counter) < fuel)%nat ->
  exists res, loop fuel size split_size stride (points, counter) = Ret res.
Proof.
  intros Hpos. revert points counter.
  induction fuel as [|fuel IH]; intros points counter Hfuel; [lia|].
  simpl. destruct (Z.geb_spec (stride * counter + split_size) size); [by eexists|].
  apply IH. nia.
Qed.

(** The first test already succeeds when the extent is no larger than one
    window and the stride is not negative. *)
Lemma loop_one_window fuel size split_size stride :
  size <= split_size -> 0 <= stride ->
  loop (S fuel) size split_size stride ([0], 1) = Ret [0; size - split_size].
Proof.
  intros Hsz Hst. simpl.
  destruct (Z.geb_spec (stride * 1 + split_size) size); [done|lia].
Qed.

(** With a stride of zero (or below) and an extent above one window the
    test of the loop never succeeds. *)
Lemma loop_never_breaks fuel size split_size stride points counter :
  stride <= 0 -> 0 <= counter -> split_size < size ->
  loop fuel size split_size stride (points, counter) = Timeout.
Proof.
  intros Hst. revert points counter.
  induction fuel as [|fuel IH]; intros points counter Hc Hsz; [done|].
  simpl. destruct (Z.geb_spec (stride * counter + split_size) size); [nia|].
  apply IH; lia.
Qed.

End GridFacts.

Section GridClaims.

Implicit Types (size split_size stride : Z) (overlap : pynum) (points : list Z).

Lemma start_points_stride fuel size split_size overlap stride :
  stride_of split_size overlap = Ret stride ->
  start_points fuel size split_size overlap
  = loop fuel size split_size stride ([0], 1).
Proof. intros H. unfold start_points. by rewrite H. Qed.

Lemma start_points_inv fuel size split_size overlap points :
  start_points fuel size split_size overlap = Ret points ->
  exists stride, stride_of split_size overlap = Ret stride
    /\ loop fuel size split_size stride ([0], 1) = Ret points.
Proof.
  unfold start_points.
  destruct (stride_of split_size overlap) as [stride| |]; [|done..].
  intros H. by exists stride.
Qed.

(** The grid of a finished call: the multiples [0, s, .., n*s] of the stride
    [s], then the clamped last offset. *)
Lemma start_points_closed_form fuel size split_size overlap points :
  start_points fuel size split_size overlap = Ret points ->
  exists s n, stride_of split_size overlap = Ret s /\ 0 <= n
    /\ points = (Z.mul s <$> seqZ 0 (n + 1)) ++ [size - split_size]
    /\ (forall k, 1 <= k <= n -> s * k + split_size < size)
    /\ size <= s * (n + 1) + split_size.
Proof.
  intros (s & Hs & (n & Hn & -> & Hacc & Hstop)%loop_closed_form)%start_points_inv.
  exists s, n. split; [done|]. split; [done|]. split; [|split].
  - rewrite (seqZ_cons 0 (n + 1)) by lia.
    replace (Z.pred (n + 1)) with n by lia.
    rewrite fmap_cons, Z.mul_0_r. reflexivity.
  - intros k Hk. apply Hacc. lia.
  - by replace (n + 1) with (1 + n) by lia.
Qed.

Lemma start_points_fuel_mono fuel fuel' size split_size overlap points :
  (fuel <= fuel')%nat ->
  start_points fuel size split_size overlap = Ret points ->
  start_points fuel' size split_size overlap = Ret points.
Proof.
  intros Hle (s & Hs & Hloop)%start_points_inv.
  rewrite (start_points_stride _ _ _ _ _ Hs).
  by apply (loop_fuel_mono fuel).
Qed.

(** [start_points] returns once the fuel exceeds the extent, when the
    stride is positive. *)
Lemma start_points_returns fuel size split_size overlap stride :
  stride_of split_size overlap = Ret stride ->
  0 < stride -> 0 <= split_size ->
  (Z.to_nat size < fuel)%nat ->
  exists points, start_points fuel size split_size overlap = Ret points.
Proof.
  intros Hs Hst Hws Hfuel. rewrite (start_points_stride _ _ _ _ _ Hs).
  apply loop_returns; [done|lia].
Qed.

(** Membership in a grid. *)
Lemma elem_of_grid (s n last o : Z) :
  0 <= n ->
  o ∈ (Z.mul s <$> seqZ 0 (n + 1)) ++ [last]
  <-> (exists k, 0 <= k <= n /\ o = s * k) \/ o = last.
Proof.
  intros Hn. rewrite elem_of_app, list_elem_of_fmap, list_elem_of_singleton.
  split; (intros [(k & Hk1 & Hk2)|?]; [left|by right]); exists k.
  - apply elem_of_seqZ in Hk2. split; [lia|done].
  - split; [tauto|]. apply elem_of_seqZ. lia.
Qed.

(** A finished grid with a stride that is not negative starts at 0, stays
    inside the extent and ends flush with it. *)
Lemma start_points_in_range fuel size split_size overlap stride points :
  0 < split_size <= size ->
  stride_of split_size overlap = Ret stride -> 0 <= stride ->
  start_points fuel size split_size overlap = Ret points ->
  head points = Some 0
  /\ Forall (fun o => 0 <= o /\ o + split_size <= size) points
  /\ last points = Some (size - split_size).
Proof.
  intros Hsz Hs Hs0 (s & n & Hs' & Hn & -> & Hacc & Hstop)%start_points_closed_form.
  assert (s = stride) as -> by congruence.
  split; [|split].
  - rewrite (seqZ_cons 0 (n + 1)) by lia. simpl. f_equal. lia.
  - apply Forall_forall.
    intros o [(k & Hk & ->)| ->]%elem_of_grid; [|lia|lia].
    destruct (decide (k = 0)) as [->|]; [lia|].
    specialize (Hacc k ltac:(lia)). nia.
  - apply last_snoc.
Qed.

(** With a stride that is not above the window, its windows cover the
    extent and nothing else. *)
Lemma start_points_covers fuel size split_size overlap stride points :
  0 < split_size <= size ->
  stride_of split_size overlap = Ret stride -> 0 <= stride <= split_size ->
  start_points fuel size split_size overlap = Ret points ->
  forall x, 0 <= x < size <-> covered split_size points x.
Proof.
  intros Hsz Hs Hs0 Hrun.
  destruct (start_points_in_range _ _ _ _ _ _ Hsz Hs ltac:(lia) Hrun)
    as (_ & Hin & _).
  apply start_points_closed_form in Hrun
    as (s & n & Hs' & Hn & -> & Hacc & Hstop).
  assert (s = stride) as -> by congruence.
  intros x. unfold covered. split.
  - intros Hx. destruct (decide (size - split_size <= x)) as [Hlast|Hlow].
    { exists (size - split_size). rewrite elem_of_grid by done.
      split; [by right|lia]. }
    assert (0 < stride) by nia.
    exists (stride * (x `div` stride)). rewrite elem_of_grid by done.
    pose proof (Z.mul_div_le x stride ltac:(lia)).
    pose proof (Z.mul_succ_div_gt x stride ltac:(lia)).
    split; [|lia]. left. exists (x `div` stride). split; [|done].
    split; [apply Z.div_pos; lia|].
    destruct (decide (x `div` stride <= n)); [done|]. nia.
  - intros (o & Ho & Hx).
    apply (proj1 (Forall_forall _ _) Hin) in Ho. lia.
Qed.

(** The stride a float overlap in [0, 1] gives, when line 25 returns
    one. *)
Lemma stride_of_unit_Ret split_size (f : Q) stride :
  0 <= split_size -> (0 <= f)%Q -> (f <= 1)%Q ->
  stride_of split_size f = Ret stride ->
  0 <= stride /\ (split_size <= 2 ^ 53 -> stride <= split_size).
Proof.
  intros Hws H0 H1 Hs.
  destruct (stride_of_unit split_size f Hws H0 H1) as (s & Heq & Hs0 & Hle).
  rewrite Heq in Hs. destruct (float_of_int split_size); [|done..].
  simpl in Hs. by injection Hs as <-.
Qed.

(** What a finished grid is, for a window of at most [2^53] and a float
    overlap in [0, 1): it starts at 0, stays inside the extent, ends flush
    with it, and its windows cover the extent and nothing else. *)
Lemma start_points_grid fuel size split_size (f : Q) points :
  0 < split_size <= size -> split_size <= 2 ^ 53 ->
  (0 <= f)%Q -> (f < 1)%Q ->
  start_points fuel size split_size f = Ret points ->
  head points = Some 0
  /\ Forall (fun o => 0 <= o /\ o + split_size <= size) points
  /\ last points = Some (size - split_size)
  /\ forall x, 0 <= x < size <-> covered split_size points x.
Proof.
  intros Hsz Hsmall H0 H1 Hrun.
  pose proof (start_points_inv _ _ _ _ _ Hrun) as (s & Hs & _).
  destruct (stride_of_unit_Ret split_size f s ltac:(lia) H0
              (Qlt_le_weak _ _ H1) Hs) as [Hs0 Hle].
  destruct (start_points_in_range _ _ _ _ _ _ Hsz Hs Hs0 Hrun)
    as (Hhead & Hin & Hlast).
  split; [done|]. split; [done|]. split; [done|].
  apply (start_points_covers fuel size split_size f s); [done..|lia|done].
Qed.

(** C1 (as amended). For every extent >= window_size > 0 with
    window_size <= 2^53 and every float 0 <= overlap_fraction < 1, the grid
    a finished call of [start_points] returns starts at 0, has every offset
    [o] with [0 <= o] and [o + window_size <= extent], ends with
    [extent - window_size], and its windows [[o, o + window_size)] together
    are exactly [[0, extent)]. *)
Theorem C1_grid_covers_extent fuel size split_size (overlap : Q) points :
  0 < split_size <= size -> split_size <= 2 ^ 53 ->
  (0 <= overlap)%Q -> (overlap < 1)%Q ->
  start_points fuel size split_size overlap = Ret points ->
  head points = Some 0
  /\ Forall (fun o => 0 <= o /\ o + split_size <= size) points
  /\ last points = Some (size - split_size)
  /\ forall x, 0 <= x < size <-> covered split_size points x.
Proof. apply start_points_grid. Qed.

Lemma C1_grid_covers_extent_witness :
  head [0; 224; 344] = Some 0
  /\ Forall (fun o => 0 <= o /\ o + 256 <= 600) [0; 224; 344]
  /\ last [0; 224; 344] = Some (600 - 256)
  /\ forall x, 0 <= x < 600 <-> covered 256 [0; 224; 344] x.
Proof.
  apply (C1_grid_covers_extent 3 600 256 (1 # 8) [0; 224; 344]);
    [lia|lia|done|done|by vm_compute].
Defined.

(** C1 as stated fails above [2^53].  At window_size [2^53 + 3], extent
    three windows and overlap 0.0 the window is converted to the float
    [2^53 + 4], which is the stride: the grid is
    [[0, 2^53 + 4, 2^54 + 6]], and the position [2^53 + 3] of the extent
    lies in no window. *)
Lemma C1_counterexample :
  start_points 2 27021597764222985 9007199254740995 (PyFloat (Fin 0))
  = Ret [0; 9007199254740996; 18014398509481990]
  /\ 0 <= 9007199254740995 < 27021597764222985
  /\ ~ covered 9007199254740995 [0; 9007199254740996; 18014398509481990]
       9007199254740995.
Proof.
  split; [by vm_compute|]. split; [lia|].
  intros (o & Ho & Hx). rewrite !elem_of_cons in Ho.
  destruct Ho as [->|[->|[->|Ho]]]; [lia..|by apply elem_of_nil in Ho].
Qed.

(** C9. For a fixed extent >= window_size > 0 and two overlap fractions
    f1 <= f2 in [0, 1) on which [start_points] finishes, the grid of f2
    has at least as many offsets as the grid of f1. *)
Theorem C9_more_overlap_more_points fuel1 fuel2 size split_size
    (f1 f2 : Q) points1 points2 :
  0 < split_size <= size -> (0 <= f1)%Q -> (f1 <= f2)%Q -> (f2 < 1)%Q ->
  start_points fuel1 size split_size f1 = Ret points1 ->
  start_points fuel2 size split_size f2 = Ret points2 ->
  (length points1 <= length points2)%nat.
Proof.
  intros Hsz H1 H12 H2
    (s1 & n1 & Hs1 & Hn1 & -> & Hacc1 & Hstop1)%start_points_closed_form
    (s2 & n2 & Hs2 & Hn2 & -> & Hacc2 & Hstop2)%start_points_closed_form.
  pose proof (stride_of_antitone split_size f1 f2 s1 s2 ltac:(lia) H1 H12
                (Qlt_le_weak _ _ H2) Hs1 Hs2) as Hs.
  destruct (stride_of_unit_Ret split_size f2 s2 ltac:(lia)
              (Qle_trans _ _ _ H1 H12) (Qlt_le_weak _ _ H2) Hs2) as [Hs20 _].
  rewrite !length_app, !length_fmap, !length_seqZ. simpl.
  destruct (decide (n1 <= n2)); [lia|].
  specialize (Hacc1 (n2 + 1) ltac:(lia)). nia.
Qed.

Lemma C9_more_overlap_more_points_witness :
  (length [0%Z; 224%Z; 344%Z] <= length [0%Z; 128%Z; 256%Z; 344%Z])%nat.
Proof.
  apply (C9_more_overlap_more_points 3 4 600 256 (1 # 8) (1 # 2));
    [lia|done|done|done|by vm_compute|by vm_compute].
Defined.

(** C4. With a stride of 0 or below, [int(window_size * (1 -
    overlap_fraction)) <= 0], and an extent above one window,
    [start_points] never leaves its loop: the stride is used as computed,
    and no run of any length returns. *)
Theorem C4_zero_stride_never_returns size split_size overlap stride :
  stride_of split_size overlap = Ret stride -> stride <= 0 ->
  split_size < size ->
  diverges size split_size overlap.
Proof.
  intros Hs Hst Hsz fuel. rewrite (start_points_stride _ _ _ _ _ Hs).
  by apply loop_never_breaks.
Qed.

Lemma C4_zero_stride_never_returns_witness : diverges 3 1 (1 # 2).
Proof.
  apply (C4_zero_stride_never_returns 3 1 (1 # 2) 0);
    [by vm_compute|lia|lia].
Defined.

(** The loop does return for every stride of at least 1. *)
Lemma start_points_terminates size split_size overlap stride :
  stride_of split_size overlap = Ret stride ->
  0 < stride -> 0 <= split_size ->
  terminates size split_size overlap.
Proof.
  intros Hs Hst Hws.
  destruct (start_points_returns (S (Z.to_nat size)) size split_size overlap
              stride) as [points Hp]; [done|done|done|lia|].
  by exists (S (Z.to_nat size)), points.
Qed.

(** One window: the offset 0 the list starts with, then the clamped last
    offset, 0 again; before that, line 25 converts the window to a float,
    and a window too large for one is an [OverflowError]. *)
Lemma start_points_one_window fuel split_size (f : Q) :
  0 < split_size -> (0 <= f)%Q -> (f < 1)%Q ->
  start_points (S fuel) split_size split_size f
  = (_ ← float_of_int split_size; Ret [0; 0]).
Proof.
  intros Hs H0 H1. unfold start_points.
  destruct (stride_of_unit split_size f ltac:(lia) H0 (Qlt_le_weak _ _ H1))
    as (s & -> & Hs0 & _).
  destruct (float_of_int split_size); [|done..].
  cbn [mbind result_bind].
  rewrite loop_one_window; [by rewrite Z.sub_diag|lia|done].
Qed.

(** C5 (as amended). For every window_size > 0 and 0 <= overlap_fraction < 1,
    [start_points] with extent equal to window_size returns [[0, 0]]: the
    offset 0 it starts with, and the clamped last offset, which is 0
    again.  (The product on line 25 first converts window_size to a float;
    a window_size of [2^1024 - 2^970] or more does not convert, and the
    call raises [OverflowError].) *)
Theorem C5_one_window_grid fuel split_size (overlap : Q) :
  0 < split_size -> (0 <= overlap)%Q -> (overlap < 1)%Q ->
  start_points (S fuel) split_size split_size overlap
  = (_ ← float_of_int split_size; Ret [0; 0]).
Proof. apply start_points_one_window. Qed.

Lemma C5_one_window_grid_witness : start_points 1 256 256 (1 # 8) = Ret [0; 0].
Proof.
  refine (eq_trans (C5_one_window_grid 0 256 (1 # 8) _ _ _) _);
    [lia|done|done|by vm_compute].
Defined.

(** C5 as stated fails: at extent = window_size = 256 and overlap 1/8 the
    grid is [[0, 0]], and no run returns [[0]]. *)
Lemma C5_counterexample :
  start_points 1 256 256 (1 # 8) = Ret [0; 0]
  /\ forall fuel, start_points fuel 256 256 (1 # 8) <> Ret [0].
Proof.
  split; [by vm_compute|]. intros [|fuel]; [by vm_compute|].
  rewrite (start_points_one_window fuel) by done.
  by rewrite (float_of_int_small 256).
Qed.

End GridClaims.

(** ** Shapes, slices and assignments *)

Section TensorFacts.

Lemma axis_true {A} n (inner : A -> bool) (l : list A) :
  axis n inner l = true <-> shape0 l = n /\ Forall (fun x => inner x = true) l.
Proof.
  unfold axis. rewrite andb_true_iff, Z.eqb_eq, forallb_forall, Forall_forall.
  by setoid_rewrite list_elem_of_In.
Qed.

Lemma has_shape3_spec {A} a b c (t : list (list (list A))) :
  has_shape3 a b c t = true <->
  shape0 t = a /\
  Forall (fun row => shape0 row = b /\ Forall (fun px => shape0 px = c) row) t.
Proof.
  unfold has_shape3. rewrite axis_true. apply and_iff_compat_l.
  apply Forall_proper; [|done]. intros row. rewrite axis_true.
  apply and_iff_compat_l, Forall_proper; [|done]. intros px.
  rewrite axis_true. unfold scalar. rewrite Forall_forall. tauto.
Qed.

Lemma has_shape3_lookup {A} a b c (t : list (list (list A))) r row :
  has_shape3 a b c t = true -> t !! r = Some row ->
  shape0 row = b /\ Forall (fun px => shape0 px = c) row.
Proof.
  intros [_ Hrows]%has_shape3_spec Hr.
  by apply (proj1 (Forall_lookup _ _) Hrows r row).
Qed.

(** The shape read off an array that has no empty axis in front. *)
Lemma has_shape3_shape {A} a b c (t : list (list (list A))) :
  has_shape3 a b c t = true -> 0 < a -> 0 < b -> shape t = (a, b, c).
Proof.
  intros [Ha Hrows]%has_shape3_spec Hpa Hpb. unfold shape, shape2, shape1.
  destruct t as [|row t]; [unfold shape0 in Ha; simpl in Ha; lia|].
  apply Forall_cons in Hrows as [[Hb Hpx] _]. simpl.
  destruct row as [|px row]; [unfold shape0 in Hb; simpl in Hb; lia|].
  apply Forall_cons in Hpx as [Hc _]. simpl. by rewrite Ha, Hb, Hc.
Qed.

Lemma has_shape3_dims {A} a b c (t : list (list (list A))) :
  has_shape3 a b c t = true -> 0 < a -> 0 < b ->
  shape0 t = a /\ shape1 t = b /\ shape2 t = c.
Proof.
  intros H Ha Hb. pose proof (has_shape3_shape a b c t H Ha Hb) as Hs.
  by injection Hs.
Qed.

(** Two arrays of one shape with the same pixels are the same array. *)
Lemma tensor3_ext (a b c : Z) (t1 t2 : tensor3) :
  has_shape3 a b c t1 = true -> has_shape3 a b c t2 = true ->
  (forall r col : nat,
      Z.of_nat r < a -> Z.of_nat col < b -> pixel t1 r col = pixel t2 r col) ->
  t1 = t2.
Proof.
  intros H1 H2 Hpx. apply list_eq. intros r.
  pose proof (proj1 (has_shape3_spec _ _ _ _) H1) as [Ha1 _].
  pose proof (proj1 (has_shape3_spec _ _ _ _) H2) as [Ha2 _].
  unfold shape0 in Ha1, Ha2.
  destruct (decide (Z.of_nat r < a)) as [Hr|Hr].
  2: { rewrite !lookup_ge_None_2; [done|lia|lia]. }
  destruct (lookup_lt_is_Some_2 t1 r) as [row1 Hrow1]; [lia|].
  destruct (lookup_lt_is_Some_2 t2 r) as [row2 Hrow2]; [lia|].
  rewrite Hrow1, Hrow2. f_equal.
  destruct (has_shape3_lookup _ _ _ _ _ _ H1 Hrow1) as [Hb1 _].
  destruct (has_shape3_lookup _ _ _ _ _ _ H2 Hrow2) as [Hb2 _].
  unfold shape0 in Hb1, Hb2.
  apply list_eq. intros col.
  destruct (decide (Z.of_nat col < b)) as [Hc|Hc].
  2: { rewrite !lookup_ge_None_2; [done|lia|lia]. }
  specialize (Hpx r col Hr Hc). unfold pixel in Hpx.
  by rewrite Hrow1, Hrow2 in Hpx.
Qed.

(** *** Slices within bounds *)

Lemma slice_start_in_range {A} (l : list A) (i : Z) :
  0 <= i <= shape0 l -> slice_start l i = Z.to_nat i.
Proof.
  intros Hi. unfold slice_start, slice_bound.
  destruct (Z.ltb_spec i 0); [lia|]. f_equal. lia.
Qed.

Lemma slice_len_in_range {A} (l : list A) (i n : Z) :
  0 <= i -> 0 <= n -> i + n <= shape0 l ->
  slice_len l i (i + n) = Z.to_nat n.
Proof.
  intros Hi Hn Hin. unfold slice_len, slice_bound.
  destruct (Z.ltb_spec i 0), (Z.ltb_spec (i + n) 0); lia.
Qed.

Lemma py_slice_in_range {A} (l : list A) (i n : Z) :
  0 <= i -> 0 <= n -> i + n <= shape0 l ->
  py_slice l i (i + n) = take (Z.to_nat n) (drop (Z.to_nat i) l).
Proof.
  intros. unfold py_slice.
  rewrite slice_len_in_range, slice_start_in_range by lia. done.
Qed.

Lemma py_slice_length {A} (l : list A) (i n : Z) :
  0 <= i -> 0 <= n -> i + n <= shape0 l ->
  length (py_slice l i (i + n)) = Z.to_nat n.
Proof.
  intros. rewrite py_slice_in_range by done.
  rewrite length_take, length_drop. unfold shape0 in *. lia.
Qed.

Lemma py_slice_lookup {A} (l : list A) (i n : Z) (k : nat) :
  0 <= i -> 0 <= n -> i + n <= shape0 l -> Z.of_nat k < n ->
  py_slice l i (i + n) !! k = l !! (Z.to_nat i + k)%nat.
Proof.
  intros. rewrite py_slice_in_range by done.
  rewrite lookup_take_lt by lia. apply lookup_drop.
Qed.

Lemma py_slice_Forall {A} (P : A -> Prop) (l : list A) (i j : Z) :
  Forall P l -> Forall P (py_slice l i j).
Proof. intros. unfold py_slice. by apply Forall_take, Forall_drop. Qed.

(** A crop of one window inside the image has the shape of the window. *)
Lemma slice2_shape {A} (a b c : Z) (t : list (list (list A))) (i j n m : Z) :
  has_shape3 a b c t = true ->
  0 <= i -> 0 <= n -> i + n <= a -> 0 <= j -> 0 <= m -> j + m <= b ->
  has_shape3 n m c (slice2 t i (i + n) j (j + m)) = true.
Proof.
  intros [Ha Hrows]%has_shape3_spec Hi Hn Hin Hj Hm Hjm.
  apply has_shape3_spec. unfold slice2. split.
  - unfold shape0 at 1. rewrite length_fmap, py_slice_length; lia.
  - apply Forall_fmap. apply (py_slice_Forall _ _ i (i + n)) in Hrows.
    eapply Forall_impl; [exact Hrows|]. intros row [Hb Hpx]. simpl. split.
    + unfold shape0 at 1. rewrite py_slice_length; lia.
    + by apply py_slice_Forall.
Qed.

Lemma slice2_pixel (a b c : Z) (t : tensor3) (i j n m : Z) (r col : nat) :
  has_shape3 a b c t = true ->
  0 <= i -> 0 <= n -> i + n <= a -> 0 <= j -> 0 <= m -> j + m <= b ->
  Z.of_nat r < n -> Z.of_nat col < m ->
  pixel (slice2 t i (i + n) j (j + m)) r col
  = pixel t (Z.to_nat i + r) (Z.to_nat j + col).
Proof.
  intros Hsh Hi Hn Hin Hj Hm Hjm Hr Hc.
  pose proof (proj1 (has_shape3_spec _ _ _ _) Hsh) as [Ha _].
  unfold pixel, slice2. rewrite list_lookup_fmap, py_slice_lookup by lia.
  destruct (t !! (Z.to_nat i + r)%nat) as [row|] eqn:Hrow; [|done]. simpl.
  destruct (has_shape3_lookup _ _ _ _ _ _ Hsh Hrow) as [Hb _].
  apply py_slice_lookup; lia.
Qed.

Lemma py_slice_fmap {A B} (g : A -> B) (l : list A) (i j : Z) :
  py_slice (g <$> l) i j = g <$> py_slice l i j.
Proof.
  unfold py_slice, slice_len, slice_start, shape0.
  by rewrite length_fmap, fmap_take, fmap_drop.
Qed.

(** A crop of the mapped image is the mapped crop. *)
Lemma slice2_map3 (f : fl -> fl) (t : tensor3) (i i2 j j2 : Z) :
  slice2 (map3 f t) i i2 j j2 = map3 f (slice2 t i i2 j j2).
Proof.
  unfold slice2, map3. rewrite py_slice_fmap, <- !list_fmap_compose.
  apply list_fmap_ext. intros _ row _. simpl. apply py_slice_fmap.
Qed.

Lemma has_shape3_map3 (f : fl -> fl) (a b c : Z) (t : tensor3) :
  has_shape3 a b c t = true -> has_shape3 a b c (map3 f t) = true.
Proof.
  rewrite !has_shape3_spec. unfold map3, shape0.
  intros [Ha Hrows]. split; [by rewrite length_fmap|].
  apply Forall_fmap. eapply Forall_impl; [exact Hrows|].
  intros row [Hb Hpx]. simpl. split; [by rewrite length_fmap|].
  apply Forall_fmap. eapply Forall_impl; [exact Hpx|].
  intros px Hc. simpl. by rewrite length_fmap.
Qed.

Lemma nth_fmap_lt (f : fl -> fl) (px : list fl) (k : nat) :
  (k < length px)%nat -> nth k (f <$> px) (Fin 0) = f (nth k px (Fin 0)).
Proof.
  revert k. induction px as [|v px IH]; intros [|k] Hk; simpl in *;
    [lia|lia|done|]. apply IH. lia.
Qed.

Lemma pixel_map3 (f : fl -> fl) (t : tensor3) (r col : nat) :
  pixel (map3 f t) r col = (fun px : list fl => f <$> px) <$> pixel t r col.
Proof.
  unfold pixel, map3. rewrite list_lookup_fmap.
  destruct (t !! r) as [row|]; [|done]. simpl.
  by rewrite list_lookup_fmap.
Qed.

(** A map that changes no value of an image leaves the image. *)
Lemma map3_id (f : fl -> fl) (t : tensor3) :
  all_values (fun v => f v = v) t -> map3 f t = t.
Proof.
  intros Hall. unfold map3. rewrite <- (list_fmap_id t) at 2.
  apply Forall_fmap_ext. eapply Forall_impl; [exact Hall|].
  intros row Hrow. simpl. rewrite <- (list_fmap_id row) at 2.
  apply Forall_fmap_ext. eapply Forall_impl; [exact Hrow|].
  intros px Hpx. simpl. rewrite <- (list_fmap_id px) at 2.
  by apply Forall_fmap_ext.
Qed.

End TensorFacts.

Section AssignFacts.

(** *** Assignments within bounds *)

Lemma splice_in_range {A} (l src : list A) (i n : Z) :
  0 <= i -> 0 <= n -> i + n <= shape0 l ->
  splice l i (i + n) src
  = take (Z.to_nat i) l ++ src ++ drop (Z.to_nat i + Z.to_nat n) l.
Proof.
  intros. unfold splice.
  rewrite slice_len_in_range, slice_start_in_range by lia. done.
Qed.

Lemma splice_length {A} (l src : list A) (i n : Z) :
  0 <= i -> 0 <= n -> i + n <= shape0 l -> length src = Z.to_nat n ->
  length (splice l i (i + n) src) = length l.
Proof.
  intros Hi Hn Hin Hsrc. rewrite splice_in_range by done.
  rewrite !length_app, length_take, length_drop, Hsrc.
  unfold shape0 in Hin. lia.
Qed.

Lemma splice_lookup {A} (l src : list A) (i n : Z) (k : nat) :
  0 <= i -> 0 <= n -> i + n <= shape0 l -> length src = Z.to_nat n ->
  splice l i (i + n) src !! k
  = if decide (i <= Z.of_nat k < i + n) then src !! (k - Z.to_nat i)%nat
    else l !! k.
Proof.
  intros Hi Hn Hin Hsrc. rewrite splice_in_range by done.
  unfold shape0 in Hin.
  destruct (decide (Z.of_nat k < i)) as [Hlt|Hge].
  { rewrite decide_False by lia.
    rewrite lookup_app_l by (rewrite length_take; lia).
    apply lookup_take_lt. lia. }
  rewrite lookup_app_r by (rewrite length_take; lia).
  rewrite length_take, Nat.min_l by lia.
  destruct (decide (Z.of_nat k < i + n)) as [Hin2|Hout].
  { rewrite decide_True by lia. apply lookup_app_l. lia. }
  rewrite decide_False by lia.
  rewrite lookup_app_r by lia. rewrite lookup_drop. f_equal. lia.
Qed.

Lemma splice_Forall {A} (P : A -> Prop) (l src : list A) (i j : Z) :
  Forall P l -> Forall P src -> Forall P (splice l i j src).
Proof.
  intros Hl Hsrc. unfold splice.
  repeat apply Forall_app_2; auto using Forall_take, Forall_drop.
Qed.

(** A value of the shape of the region is assigned as it is. *)
Lemma expand_same {A} (n : nat) (l : list A) : length l = n -> expand n l = l.
Proof. intros <-. unfold expand. by rewrite Nat.eqb_refl. Qed.

Lemma fits_same {A} (n : nat) (l : list A) : length l = n -> fits n l = true.
Proof. intros <-. unfold fits. by rewrite Nat.eqb_refl. Qed.

Lemma broadcast_same (h w c : nat) (src : tensor3) :
  has_shape3 (Z.of_nat h) (Z.of_nat w) (Z.of_nat c) src = true ->
  can_broadcast h w c src = true /\ broadcast h w c src = src.
Proof.
  intros [Hh Hrows]%has_shape3_spec. unfold shape0 in Hh.
  unfold can_broadcast, broadcast. split.
  - rewrite fits_same by lia. simpl. apply forallb_forall.
    intros row Hrow%list_elem_of_In.
    apply (proj1 (Forall_forall _ _) Hrows) in Hrow as [Hw Hpx].
    unfold shape0 in Hw. rewrite fits_same by lia. simpl.
    apply forallb_forall. intros px Hin%list_elem_of_In.
    apply (proj1 (Forall_forall _ _) Hpx) in Hin. unfold shape0 in Hin.
    apply fits_same. lia.
  - rewrite expand_same by (rewrite length_fmap; lia).
    rewrite <- (list_fmap_id src) at 2. apply Forall_fmap_ext.
    eapply Forall_impl; [exact Hrows|]. intros row [Hw Hpx]. simpl.
    unfold shape0 in Hw.
    rewrite expand_same by (rewrite length_fmap; lia).
    rewrite <- (list_fmap_id row) at 2. apply Forall_fmap_ext.
    eapply Forall_impl; [exact Hpx|]. intros px Hc. simpl.
    unfold shape0 in Hc. apply expand_same. lia.
Qed.

(** The effect of [result[i:i+n, j:j+m] = patch] for a window inside the
    canvas and a patch of the shape of the window: the canvas keeps its
    shape, takes the pixels of the patch, converted to float32, inside the
    window and keeps its own outside. *)
Lemma assign_region_spec (a b c : Z) (res patch : tensor3) (i j n m : Z) :
  has_shape3 a b c res = true -> has_shape3 n m c patch = true ->
  0 <= i -> 0 < n -> i + n <= a -> 0 <= j -> 0 < m -> j + m <= b ->
  exists res',
    assign_region res i (i + n) j (j + m) patch = Ret res'
    /\ has_shape3 a b c res' = true
    /\ forall r col : nat,
         pixel res' r col
         = if decide ((i <= Z.of_nat r < i + n) /\ (j <= Z.of_nat col < j + m))
           then (fun px : list fl => cast binary32 <$> px)
                  <$> pixel patch (r - Z.to_nat i) (col - Z.to_nat j)
           else pixel res r col.
Proof.
  intros Hres Hpatch0 Hi Hn Hin Hj Hm Hjm.
  enough (exists res',
    assign_region res i (i + n) j (j + m) patch = Ret res'
    /\ has_shape3 a b c res' = true
    /\ forall r col : nat,
         pixel res' r col
         = if decide ((i <= Z.of_nat r < i + n) /\ (j <= Z.of_nat col < j + m))
           then pixel (map3 (cast binary32) patch)
                  (r - Z.to_nat i) (col - Z.to_nat j)
           else pixel res r col) as (res' & Hrun & Hshape & Hpx).
  { exists res'. split; [done|]. split; [done|]. intros r col.
    by rewrite Hpx, pixel_map3. }
  unfold assign_region.
  destruct (has_shape3_dims a b c res Hres) as (Hd0 & Hd1 & Hd2); [lia..|].
  rewrite slice_len_in_range by lia.
  rewrite (slice_len_in_range (hd [] res)) by (fold (shape1 res); lia).
  destruct (broadcast_same (Z.to_nat n) (Z.to_nat m)
              (length (hd [] (hd [] res))) patch) as [-> _].
  { rewrite !Z2Nat.id by lia. by rewrite <- Hd2 in Hpatch0. }
  pose proof (has_shape3_map3 (cast binary32) _ _ _ _ Hpatch0) as Hpatch.
  revert Hpatch. generalize (map3 (cast binary32) patch). clear patch Hpatch0.
  intros patch Hpatch.
  destruct (broadcast_same (Z.to_nat n) (Z.to_nat m)
              (length (hd [] (hd [] res))) patch) as [_ ->].
  { rewrite !Z2Nat.id by lia. by rewrite <- Hd2 in Hpatch. }
  clear Hd0 Hd1 Hd2.
  eexists. split; [done|].
  pose proof (proj1 (has_shape3_spec _ _ _ _) Hres) as [Ha Hrows].
  pose proof (proj1 (has_shape3_spec _ _ _ _) Hpatch) as [Hpn Hprows].
  assert (Hzlen : length (zip_with (fun row v : list (list fl) =>
                                      splice row j (j + m) v)
                            (py_slice res i (i + n)) patch) = Z.to_nat n).
  { rewrite length_zip_with, py_slice_length by lia.
    unfold shape0 in Hpn. lia. }
  assert (Hzrows : Forall (fun row : list (list fl) =>
              shape0 row = b /\ Forall (fun px => shape0 px = c) row)
            (zip_with (fun row v : list (list fl) => splice row j (j + m) v)
                      (py_slice res i (i + n)) patch)).
  { eapply Forall_zip_with_fst; [by apply py_slice_Forall, Hrows|].
    eapply Forall_impl; [exact Hprows|]. intros v [Hv Hvpx] row [Hb Hpx].
    split.
    - unfold shape0 at 1. rewrite splice_length; unfold shape0 in *; lia.
    - by apply splice_Forall. }
  split.
  - apply has_shape3_spec. split.
    + unfold shape0 at 1. rewrite splice_length; unfold shape0 in *; lia.
    + by apply splice_Forall.
  - intros r col. unfold pixel at 1.
    rewrite splice_lookup by lia.
    destruct (decide (i <= Z.of_nat r < i + n)) as [Hr|Hr].
    2: { rewrite decide_False by tauto. done. }
    rewrite lookup_zip_with, py_slice_lookup by lia.
    replace (Z.to_nat i + (r - Z.to_nat i))%nat with r by lia.
    destruct (res !! r) as [row|] eqn:Hrow.
    2: { apply lookup_ge_None_1 in Hrow. unfold shape0 in Ha. lia. }
    destruct (patch !! (r - Z.to_nat i)%nat) as [prow|] eqn:Hprow.
    2: { apply lookup_ge_None_1 in Hprow. unfold shape0 in Hpn. lia. }
    simpl.
    destruct (has_shape3_lookup _ _ _ _ _ _ Hres Hrow) as [Hb _].
    destruct (has_shape3_lookup _ _ _ _ _ _ Hpatch Hprow) as [Hpm _].
    rewrite splice_lookup by (unfold shape0 in *; lia).
    unfold pixel. rewrite Hrow, Hprow. simpl.
    destruct (decide (j <= Z.of_nat col < j + m)).
    + by rewrite decide_True by tauto.
    + by rewrite decide_False by tauto.
Qed.

End AssignFacts.

(** ** The loops of [patchify] and [reconstruct] *)

Section LoopFacts.

Lemma for_in_app {X S} (xs ys : list X) (body : X -> S -> result S) (s : S) :
  for_in (xs ++ ys) body s = (s' ← for_in xs body s; for_in ys body s').
Proof.
  revert s. induction xs as [|x xs IH]; intros s; [done|]. simpl.
  destruct (body x s); simpl; [apply IH|done|done].
Qed.

(** Two nested loops are one loop over the pairs they visit. *)
Lemma for_in_nested {S} (ys xs : list Z) (body : Z -> Z -> S -> result S) s :
  for_in ys (fun i => for_in xs (body i)) s
  = for_in (visits ys xs) (fun p => body p.1 p.2) s.
Proof.
  unfold visits. revert s. induction ys as [|i ys IH]; intros s; [done|].
  rewrite bind_cons, for_in_app. simpl.
  assert (Hrow : forall s, for_in xs (body i) s
            = for_in (xs ≫= fun j => [(i, j)]) (fun p => body p.1 p.2) s).
  { clear. induction xs as [|j xs IHx]; intros s; [done|]. simpl.
    destruct (body i j s); simpl; [apply IHx|done|done]. }
  rewrite Hrow. destruct (for_in _ _ s); simpl; [apply IH|done|done].
Qed.

Lemma visits_fmap {B} (f : Z -> Z -> B) (ys xs : list Z) :
  (i ← ys; j ← xs; [f i j]) = (fun p => f p.1 p.2) <$> visits ys xs.
Proof.
  unfold visits. induction ys as [|i ys IH]; [done|].
  rewrite !bind_cons, fmap_app, IH. f_equal.
  clear. induction xs as [|j xs IHx]; [done|].
  rewrite !bind_cons, fmap_app, IHx. done.
Qed.

Lemma elem_of_visits (ys xs : list Z) (i j : Z) :
  (i, j) ∈ visits ys xs <-> i ∈ ys /\ j ∈ xs.
Proof.
  unfold visits. rewrite list_elem_of_bind. split.
  - intros (i' & (j' & Hp & Hj)%list_elem_of_bind & Hi).
    apply list_elem_of_singleton in Hp. by simplify_eq.
  - intros [Hi Hj]. exists i. split; [|done].
    apply list_elem_of_bind. exists j. split; [|done].
    by apply list_elem_of_singleton.
Qed.

Lemma length_visits (ys xs : list Z) :
  length (visits ys xs) = (length ys * length xs)%nat.
Proof.
  unfold visits. induction ys as [|i ys IH]; [done|].
  rewrite bind_cons, length_app, IH. simpl. f_equal.
  clear. induction xs as [|j xs IHx]; [done|].
  rewrite bind_cons, length_app, IHx. done.
Qed.

(** The loop of [reconstruct] over windows inside the canvas, fed with
    patches of the shape of the window: it runs to the end, consumes one
    patch per window, keeps the shape of the canvas, and carries any
    invariant that each single assignment carries. *)
Lemma paste_loop (a b c split_size : Z) (splits : tensor4)
    (pairs : list (Z * Z)) (P : nat -> tensor3 -> Prop) (count : nat)
    (res : tensor3) :
  0 < split_size ->
  Forall (fun p => 0 <= p.1 /\ p.1 + split_size <= a
                   /\ 0 <= p.2 /\ p.2 + split_size <= b) pairs ->
  (forall k, (k < length pairs)%nat ->
     exists patch, splits !! (count + k)%nat = Some patch
                   /\ has_shape3 split_size split_size c patch = true) ->
  has_shape3 a b c res = true ->
  P O res ->
  (forall k p patch res res',
     pairs !! k = Some p -> splits !! (count + k)%nat = Some patch ->
     P k res ->
     (forall r col : nat,
        pixel res' r col
        = if decide (in_window split_size p r col)
          then (fun px : list fl => cast binary32 <$> px)
                 <$> pixel patch (r - Z.to_nat p.1) (col - Z.to_nat p.2)
          else pixel res r col) ->
     P (S k) res') ->
  exists res',
    for_in pairs (fun p => paste splits split_size p.1 p.2) (res, count)
    = Ret (res', (count + length pairs)%nat)
    /\ has_shape3 a b c res' = true
    /\ P (length pairs) res'.
Proof.
  intros Hws. revert P count res.
  induction pairs as [|[i j] pairs IH]; intros P count res Hpairs Hsplits Hres HP0 Hstep.
  { exists res. simpl. by rewrite Nat.add_0_r. }
  apply Forall_cons in Hpairs as [(Hi & Hin & Hj & Hjn) Hpairs]. simpl in *.
  destruct (Hsplits O ltac:(lia)) as (patch & Hpatch & Hshape).
  rewrite Nat.add_0_r in Hpatch. rewrite Hpatch.
  destruct (assign_region_spec a b c res patch i j split_size split_size)
    as (res1 & -> & Hres1 & Hpx); [done..|]. simpl.
  destruct (IH (fun k => P (S k)) (S count) res1) as (res' & Hrun & Hres' & HP).
  - done.
  - intros k Hk. destruct (Hsplits (S k) ltac:(lia)) as (q & Hq & Hqs).
    exists q. split; [|done]. by replace (S count + k)%nat with (count + S k)%nat by lia.
  - done.
  - apply (Hstep O (i, j) patch res res1); [done|by rewrite Nat.add_0_r|done|].
    intros r col. rewrite Hpx. unfold in_window. simpl.
    repeat case_decide; tauto || done.
  - intros k p q r0 r1 Hp Hq. apply (Hstep (S k) p q r0 r1); [done|].
    by replace (count + S k)%nat with (S count + k)%nat by lia.
  - exists res'. split; [|done]. rewrite Hrun. f_equal. f_equal. lia.
Qed.

End LoopFacts.

(** ** [patchify] followed by [reconstruct] *)

Section PipelineFacts.

Lemma zeros_shape (a b c : Z) :
  0 <= a -> 0 <= b -> 0 <= c ->
  exists z, zeros (a, b, c) = Ret z /\ has_shape3 a b c z = true.
Proof.
  intros Ha Hb Hc. unfold zeros.
  destruct (Z.ltb_spec a 0), (Z.ltb_spec b 0), (Z.ltb_spec c 0); try lia.
  simpl. eexists. split; [done|]. apply has_shape3_spec.
  unfold shape0. rewrite length_replicate. split; [lia|].
  apply Forall_replicate. rewrite length_replicate. split; [lia|].
  apply Forall_replicate. rewrite length_replicate. lia.
Qed.

Lemma np_asarray_same_shape (n m c : Z) (splits : list tensor3) :
  0 < n -> 0 < m ->
  Forall (fun p => has_shape3 n m c p = true) splits ->
  np_asarray splits = Ret splits.
Proof.
  intros Hn Hm Hall. unfold np_asarray.
  assert (Hshapes : Forall (fun p => shape p = (n, m, c)) splits).
  { eapply Forall_impl; [exact Hall|]. intros p Hp.
    by apply has_shape3_shape. }
  rewrite (proj2 (forallb_forall _ _)); [done|].
  intros p Hp%list_elem_of_In. apply bool_decide_eq_true.
  rewrite (proj1 (Forall_forall _ _) Hshapes p Hp).
  destruct splits as [|q splits]; [by apply elem_of_nil in Hp|].
  apply Forall_cons in Hshapes as [Hq _]. simpl. by rewrite Hq.
Qed.

(** Windows of a pair of grids that stay inside their extents. *)
Lemma visits_in_range (a b split_size : Z) (ys xs : list Z) :
  Forall (fun o => 0 <= o /\ o + split_size <= a) ys ->
  Forall (fun o => 0 <= o /\ o + split_size <= b) xs ->
  Forall (fun p => 0 <= p.1 /\ p.1 + split_size <= a
                   /\ 0 <= p.2 /\ p.2 + split_size <= b) (visits ys xs).
Proof.
  intros Hy Hx. apply Forall_forall. intros [i j] [Hi Hj]%elem_of_visits.
  apply (proj1 (Forall_forall _ _) Hy) in Hi.
  apply (proj1 (Forall_forall _ _) Hx) in Hj. simpl. lia.
Qed.

(** [reconstruct] on patches of the window's shape, for grids inside the
    target: it returns an array of the target shape. *)
Lemma reconstruct_shape (a b c split_size : Z) (overlap : pynum)
    (splits : tensor4) (xs ys : list Z) :
  0 < split_size -> 0 <= a -> 0 <= b -> 0 <= c ->
  Forall (fun o => 0 <= o /\ o + split_size <= a) ys ->
  Forall (fun o => 0 <= o /\ o + split_size <= b) xs ->
  (length ys * length xs <= length splits)%nat ->
  Forall (fun p => has_shape3 split_size split_size c p = true) splits ->
  exists r, reconstruct splits split_size overlap (a, b, c) xs ys = Ret r
            /\ has_shape3 a b c r = true.
Proof.
  intros Hws Ha Hb Hc Hy Hx Hlen Hsplits. unfold reconstruct.
  destruct (zeros_shape a b c) as (z & -> & Hz); [done..|]. simpl.
  rewrite (for_in_nested ys xs (paste splits split_size)).
  destruct (paste_loop a b c split_size splits (visits ys xs)
              (fun _ _ => True) O z) as (r & -> & Hr & _); try done.
  - by apply visits_in_range.
  - intros k Hk. rewrite length_visits in Hk.
    destruct (lookup_lt_is_Some_2 splits k) as [patch Hpatch]; [lia|].
    exists patch. split; [done|].
    by apply (proj1 (Forall_lookup _ _) Hsplits k).
  - by exists r.
Qed.

(** What [patchify] returns for two finished grids inside the image: the
    crops at the pairs of offsets, each of the shape of the window. *)
Lemma patchify_returns fuel (image : tensor3) (a b c split_size : Z)
    (overlap : pynum) (xs ys : list Z) :
  has_shape3 a b c image = true ->
  0 < split_size <= a -> split_size <= b ->
  start_points fuel a split_size overlap = Ret ys ->
  start_points fuel b split_size overlap = Ret xs ->
  Forall (fun o => 0 <= o /\ o + split_size <= a) ys ->
  Forall (fun o => 0 <= o /\ o + split_size <= b) xs ->
  patchify fuel image split_size overlap
  = Ret ((fun p : Z * Z => slice2 image p.1 (p.1 + split_size)
                             p.2 (p.2 + split_size)) <$> visits ys xs, xs, ys)
  /\ Forall (fun p => has_shape3 split_size split_size c p = true)
       ((fun p : Z * Z => slice2 image p.1 (p.1 + split_size)
                            p.2 (p.2 + split_size)) <$> visits ys xs).
Proof.
  intros Himg Ha Hb Hys Hxs Hyr Hxr.
  pose proof (has_shape3_shape _ _ _ _ Himg ltac:(lia) ltac:(lia)) as Hshape.
  pose proof (visits_in_range a b split_size ys xs Hyr Hxr) as Hrange.
  set (crop := fun p : Z * Z =>
         slice2 image p.1 (p.1 + split_size) p.2 (p.2 + split_size)).
  assert (Hcrops : Forall (fun p => has_shape3 split_size split_size c p = true)
                     (crop <$> visits ys xs)).
  { apply Forall_fmap. eapply Forall_impl; [exact Hrange|].
    intros [i j] (Hi1 & Hi2 & Hj1 & Hj2). simpl in Hi1, Hi2, Hj1, Hj2.
    unfold compose, crop. simpl. apply (slice2_shape a b); [done|lia..]. }
  split; [|done].
  unfold patchify. injection Hshape as Hs0 Hs1 _.
  rewrite Hs0, Hs1, Hys, Hxs. simpl.
  rewrite (visits_fmap (fun i j => slice2 image i (i + split_size)
                                      j (j + split_size))).
  fold crop. rewrite (np_asarray_same_shape split_size split_size c);
    [done|lia|lia|done].
Qed.

(** [reconstruct] on the crops of an image at two grids whose windows lie
    inside the image and cover it: every pixel is written, the last time
    with its own value, converted to float32. *)
Lemma reconstruct_crops (image : tensor3) (a b c split_size : Z)
    (overlap : pynum) (xs ys : list Z) :
  has_shape3 a b c image = true ->
  0 < split_size <= a -> split_size <= b ->
  Forall (fun o => 0 <= o /\ o + split_size <= a) ys ->
  Forall (fun o => 0 <= o /\ o + split_size <= b) xs ->
  (forall x, 0 <= x < a -> covered split_size ys x) ->
  (forall x, 0 <= x < b -> covered split_size xs x) ->
  reconstruct ((fun p : Z * Z => slice2 image p.1 (p.1 + split_size)
                                   p.2 (p.2 + split_size)) <$> visits ys xs)
    split_size overlap (shape image) xs ys
  = Ret (map3 (cast binary32) image).
Proof.
  intros Himg Ha Hb Hyr Hxr Hycov Hxcov.
  pose proof (has_shape3_shape _ _ _ _ Himg ltac:(lia) ltac:(lia)) as Hshape.
  assert (0 <= c) as Hc.
  { injection Hshape as _ _ <-. unfold shape2, shape1, shape0. lia. }
  pose proof (visits_in_range a b split_size ys xs Hyr Hxr) as Hrange.
  set (crop := fun p : Z * Z =>
         slice2 image p.1 (p.1 + split_size) p.2 (p.2 + split_size)).
  assert (Hcrops : Forall (fun p => has_shape3 split_size split_size c p = true)
                     (crop <$> visits ys xs)).
  { apply Forall_fmap. eapply Forall_impl; [exact Hrange|].
    intros [i j] (Hi1 & Hi2 & Hj1 & Hj2). simpl in Hi1, Hi2, Hj1, Hj2.
    unfold compose, crop. simpl. apply (slice2_shape a b); [done|lia..]. }
  rewrite Hshape. unfold reconstruct.
  destruct (zeros_shape a b c) as (z & -> & Hz); [lia..|]. simpl.
  rewrite (for_in_nested ys xs (paste (crop <$> visits ys xs) split_size)).
  destruct (paste_loop a b c split_size (crop <$> visits ys xs)
              (visits ys xs)
              (fun k res => forall r col,
                 (exists p, p ∈ take k (visits ys xs)
                            /\ in_window split_size p r col) ->
                 pixel res r col = pixel (map3 (cast binary32) image) r col)
              O z)
    as (r & -> & Hr & Hpx); try done.
  - lia.
  - intros k Hk. simpl.
    destruct (lookup_lt_is_Some_2 (visits ys xs) k) as [p Hp]; [done|].
    exists (crop p). rewrite list_lookup_fmap, Hp. split; [done|].
    apply (proj1 (Forall_lookup _ _) Hcrops k).
    by rewrite list_lookup_fmap, Hp.
  - intros r col (p & Hp & _). by apply elem_of_nil in Hp.
  - intros k p patch res res' Hp Hpatch Hinv Hres' r col (q & Hq & Hwin).
    simpl in Hpatch. rewrite list_lookup_fmap, Hp in Hpatch.
    injection Hpatch as <-. rewrite Hres'.
    pose proof (proj1 (Forall_lookup _ _) Hrange k p Hp) as Hpr.
    cbv beta in Hpr.
    destruct (decide (in_window split_size p r col)) as [[Hwr Hwc]|Hout].
    + unfold crop. rewrite (slice2_pixel a b c) by (done || lia).
      rewrite pixel_map3. do 2 f_equal; lia.
    + apply Hinv. exists q. split; [|done].
      rewrite (take_S_r _ _ _ Hp) in Hq.
      apply elem_of_app in Hq as [Hq|Hq%list_elem_of_singleton]; [done|].
      by subst q.
  - simpl. f_equal. symmetry.
    apply (tensor3_ext a b c); [by apply has_shape3_map3|done|].
    intros r0 col Hr0 Hcol. symmetry. apply Hpx.
    destruct (Hycov (Z.of_nat r0) ltac:(lia)) as (i & Hi & Hir).
    destruct (Hxcov (Z.of_nat col) ltac:(lia)) as (j & Hj & Hjc).
    exists (i, j). rewrite take_ge by done. split.
    + by apply elem_of_visits.
    + by split.
Qed.

(** [patchify] on an image at least one window large, with a stride that
    is not negative: whenever both grids are finished, it returns one patch
    of the window's shape per pair of offsets. *)
Lemma patchify_shapes fuel (image : tensor3) (a b c split_size : Z)
    (overlap : pynum) (stride : Z) (xs ys : list Z) :
  has_shape3 a b c image = true ->
  0 < split_size <= a -> split_size <= b ->
  stride_of split_size overlap = Ret stride -> 0 <= stride ->
  start_points fuel a split_size overlap = Ret ys ->
  start_points fuel b split_size overlap = Ret xs ->
  exists splits,
    patchify fuel image split_size overlap = Ret (splits, xs, ys)
    /\ length splits = (length ys * length xs)%nat
    /\ Forall (fun p => has_shape3 split_size split_size c p = true) splits
    /\ Forall (fun o => 0 <= o /\ o + split_size <= a) ys
    /\ Forall (fun o => 0 <= o /\ o + split_size <= b) xs.
Proof.
  intros Himg Ha Hb Hs Hs0 Hys Hxs.
  destruct (start_points_in_range _ _ _ _ _ _ Ha Hs Hs0 Hys) as (_ & Hyr & _).
  destruct (start_points_in_range fuel b split_size overlap stride xs)
    as (_ & Hxr & _); [lia|done..|].
  destruct (patchify_returns fuel image a b c split_size overlap xs ys)
    as [Hp Hshapes]; [done..|].
  eexists. split; [exact Hp|].
  split; [by rewrite length_fmap, length_visits|done].
Qed.

(** The general round trip: whenever both grids are finished grids of an
    image at least one window large, with a stride between 0 and the
    window, [patchify] returns one patch of the window's shape per pair of
    offsets, and [reconstruct] puts the image back together from them, its
    values converted to float32. *)
Lemma reconstruct_patchify fuel (image : tensor3) (a b c split_size : Z)
    (overlap : pynum) (stride : Z) (xs ys : list Z) :
  has_shape3 a b c image = true ->
  0 < split_size <= a -> split_size <= b ->
  stride_of split_size overlap = Ret stride -> 0 <= stride <= split_size ->
  start_points fuel a split_size overlap = Ret ys ->
  start_points fuel b split_size overlap = Ret xs ->
  exists splits,
    patchify fuel image split_size overlap = Ret (splits, xs, ys)
    /\ length splits = (length ys * length xs)%nat
    /\ Forall (fun p => has_shape3 split_size split_size c p = true) splits
    /\ reconstruct splits split_size overlap (shape image) xs ys
       = Ret (map3 (cast binary32) image).
Proof.
  intros Himg Ha Hb Hs Hs0 Hys Hxs.
  destruct (start_points_in_range _ _ _ _ _ _ Ha Hs ltac:(lia) Hys)
    as (_ & Hyr & _).
  destruct (start_points_in_range fuel b split_size overlap stride xs)
    as (_ & Hxr & _); [lia|done|lia|done|].
  pose proof (start_points_covers _ _ _ _ _ _ Ha Hs Hs0 Hys) as Hycov.
  pose proof (start_points_covers fuel b split_size overlap stride xs
                ltac:(lia) Hs Hs0 Hxs) as Hxcov.
  destruct (patchify_returns fuel image a b c split_size overlap xs ys)
    as [Hp Hshapes]; [done..|].
  eexists. split; [exact Hp|].
  split; [by rewrite length_fmap, length_visits|]. split; [done|].
  apply (reconstruct_crops image a b c); [done..| |].
  - intros x Hx. by apply Hycov.
  - intros x Hx. by apply Hxcov.
Qed.

End PipelineFacts.

Section PipelineClaims.

(** C2 (as amended). For an image whose height and width are positive
    multiples of window_size, [patchify] with overlap 0 followed by
    [reconstruct] with the same window_size, the grids [patchify] returned
    and the shape of the image gives back the image with every value
    converted to float32, the element type of the canvas: the image
    itself when its values are float32 values, as those of an 8-bit image
    are.  The overlap is the int 0, or the float 0.0 with a window_size of
    at most [2^53]. *)
Theorem C2_patchify_reconstruct_round_trip fuel (image : tensor3)
    (split_size a b c : Z) (overlap : pynum) :
  0 < split_size -> 0 < a -> 0 < b ->
  overlap = PyInt 0 \/ (overlap = PyFloat (Fin 0) /\ split_size <= 2 ^ 53) ->
  has_shape3 (a * split_size) (b * split_size) c image = true ->
  (Z.to_nat (a * split_size) < fuel)%nat ->
  (Z.to_nat (b * split_size) < fuel)%nat ->
  exists splits X_points Y_points,
    patchify fuel image split_size overlap
    = Ret (splits, X_points, Y_points)
    /\ reconstruct splits split_size overlap (shape image)
         X_points Y_points
       = Ret (map3 (cast binary32) image)
    /\ (all_values (is_float binary32) image ->
        reconstruct splits split_size overlap (shape image)
          X_points Y_points
        = Ret image).
Proof.
  intros Hws Ha Hb Hzero Himg Hfa Hfb.
  assert (Hstride : stride_of split_size overlap = Ret split_size).
  { destruct Hzero as [->|[-> Hsmall]].
    - rewrite stride_of_int. f_equal. lia.
    - apply stride_of_zero. lia. }
  destruct (start_points_returns fuel (a * split_size) split_size overlap
              split_size) as [ys Hys]; [done|done|lia|done|].
  destruct (start_points_returns fuel (b * split_size) split_size overlap
              split_size) as [xs Hxs]; [done|done|lia|done|].
  destruct (reconstruct_patchify fuel image (a * split_size) (b * split_size)
              c split_size overlap split_size xs ys)
    as (splits & Hp & _ & _ & Hr); [done|nia|nia|done|lia|done|done|].
  exists splits, xs, ys. split; [done|]. split; [done|].
  intros Hall. rewrite Hr. f_equal. by apply map3_id.
Qed.

Lemma C2_patchify_reconstruct_round_trip_witness :
  exists splits X_points Y_points,
    patchify 7 [[[Fin 1]; [Fin 2]; [Fin 3]; [Fin 4]];
                [[Fin 5]; [Fin 6]; [Fin 7]; [Fin 8]]] 2 (PyInt 0)
    = Ret (splits, X_points, Y_points)
    /\ reconstruct splits 2 (PyInt 0)
         (shape [[[Fin 1]; [Fin 2]; [Fin 3]; [Fin 4]];
                 [[Fin 5]; [Fin 6]; [Fin 7]; [Fin 8]]])
         X_points Y_points
       = Ret (map3 (cast binary32)
                [[[Fin 1]; [Fin 2]; [Fin 3]; [Fin 4]];
                 [[Fin 5]; [Fin 6]; [Fin 7]; [Fin 8]]])
    /\ (all_values (is_float binary32)
          [[[Fin 1]; [Fin 2]; [Fin 3]; [Fin 4]];
           [[Fin 5]; [Fin 6]; [Fin 7]; [Fin 8]]] ->
        reconstruct splits 2 (PyInt 0)
          (shape [[[Fin 1]; [Fin 2]; [Fin 3]; [Fin 4]];
                  [[Fin 5]; [Fin 6]; [Fin 7]; [Fin 8]]])
          X_points Y_points
        = Ret [[[Fin 1]; [Fin 2]; [Fin 3]; [Fin 4]];
               [[Fin 5]; [Fin 6]; [Fin 7]; [Fin 8]]]).
Proof.
  apply (C2_patchify_reconstruct_round_trip 7 _ 2 1 2 1 (PyInt 0));
    [lia|lia|lia|by left|reflexivity|simpl; lia|simpl; lia].
Defined.

(** C2 as stated fails on a float64 image.  The one pixel of this image is
    the float nearest 0.1; its window is written into the float32 canvas,
    and [reconstruct] returns the float32 nearest to it, which is another
    number. *)
Lemma C2_counterexample :
  patchify 2 [[[Fin (3602879701896397 # 36028797018963968)]]] 1 (PyInt 0)
  = Ret ([[[[Fin (3602879701896397 # 36028797018963968)]]];
          [[[Fin (3602879701896397 # 36028797018963968)]]];
          [[[Fin (3602879701896397 # 36028797018963968)]]];
          [[[Fin (3602879701896397 # 36028797018963968)]]]], [0; 0], [0; 0])
  /\ reconstruct [[[[Fin (3602879701896397 # 36028797018963968)]]];
                  [[[Fin (3602879701896397 # 36028797018963968)]]];
                  [[[Fin (3602879701896397 # 36028797018963968)]]];
                  [[[Fin (3602879701896397 # 36028797018963968)]]]]
       1 (PyInt 0)
       (shape [[[Fin (3602879701896397 # 36028797018963968)]]]) [0; 0] [0; 0]
     = Ret [[[Fin (13421773 # 134217728)]]]
  /\ [[[Fin (13421773 # 134217728)]]]
     <> [[[Fin (3602879701896397 # 36028797018963968)]]].
Proof. split; [by vm_compute|]. split; [by vm_compute|discriminate]. Qed.

(** C6. [start_points] on extent 600, window 256 and overlap 0.125 returns
    [[0, 224, 344]]; [patchify] on a (600, 600, 3) image with that window
    and overlap returns 9 patches on 3 offsets per axis; and [reconstruct]
    of those patches with target shape (600, 600, 3) returns an array of
    shape (600, 600, 3). *)
Theorem C6_scenario_600 fuel (image : tensor3) :
  (3 <= fuel)%nat -> has_shape3 600 600 3 image = true ->
  start_points fuel 600 256 (1 # 8) = Ret [0; 224; 344]
  /\ exists splits,
       patchify fuel image 256 (1 # 8)
       = Ret (splits, [0; 224; 344], [0; 224; 344])
       /\ length splits = 9%nat
       /\ exists r,
            reconstruct splits 256 (1 # 8) (600, 600, 3)
              [0; 224; 344] [0; 224; 344] = Ret r
            /\ has_shape3 600 600 3 r = true.
Proof.
  intros Hfuel Himg.
  assert (Hgrid : start_points fuel 600 256 (1 # 8) = Ret [0; 224; 344]).
  { apply (start_points_fuel_mono 3); [done|by vm_compute]. }
  split; [done|].
  destruct (reconstruct_patchify fuel image 600 600 3 256 (1 # 8) 224
              [0; 224; 344] [0; 224; 344])
    as (splits & Hp & Hlen & _ & Hr);
    [done|lia|lia|by vm_compute|lia|done|done|].
  exists splits. split; [done|]. split; [done|].
  exists (map3 (cast binary32) image). split; [|by apply has_shape3_map3].
  by rewrite (has_shape3_shape 600 600 3 image) in Hr.
Qed.

Lemma C6_scenario_600_witness :
  start_points 3 600 256 (1 # 8) = Ret [0; 224; 344]
  /\ exists splits,
       patchify 3 (replicate 600 (replicate 600 [Fin 0; Fin 0; Fin 0]))
         256 (1 # 8)
       = Ret (splits, [0; 224; 344], [0; 224; 344])
       /\ length splits = 9%nat
       /\ exists r,
            reconstruct splits 256 (1 # 8) (600, 600, 3)
              [0; 224; 344] [0; 224; 344] = Ret r
            /\ has_shape3 600 600 3 r = true.
Proof.
  apply (C6_scenario_600 3
           (replicate 600 (replicate 600 [Fin 0; Fin 0; Fin 0])));
    [lia|vm_compute; reflexivity].
Defined.

End PipelineClaims.

(** ** Axis permutations and the normalisation *)

Section PermuteFacts.

(** [(H, W, C)] to [(C, H, W)]. *)
Lemma hwc_to_chw_shape (a b c : Z) (t : tensor3) :
  has_shape3 a b c t = true -> 0 < a -> 0 < b ->
  has_shape3 c a b (hwc_to_chw t) = true.
Proof.
  intros Ht Ha Hb. destruct (has_shape3_dims a b c t Ht Ha Hb) as (H0 & _ & H2).
  apply has_shape3_spec in Ht as [_ Hrows]. apply has_shape3_spec.
  unfold hwc_to_chw. rewrite H2. split.
  - unfold shape0 at 1. rewrite length_fmap, length_seq.
    unfold shape2, shape1, shape0 in H2. lia.
  - apply Forall_fmap, Forall_forall. intros ch _. simpl. split.
    + unfold shape0 at 1. by rewrite length_fmap.
    + apply Forall_fmap. eapply Forall_impl; [exact Hrows|].
      intros row [Hb' _]. simpl. unfold shape0 at 1. by rewrite length_fmap.
Qed.

(** [(C, H, W)] to [(H, W, C)]. *)
Lemma chw_to_hwc_shape (a b c : Z) (t : tensor3) :
  has_shape3 c a b t = true -> 0 < c -> 0 < a ->
  has_shape3 a b c (chw_to_hwc t) = true.
Proof.
  intros Ht Hc Ha. destruct (has_shape3_dims c a b t Ht Hc Ha) as (H0 & H1 & H2).
  apply has_shape3_spec. unfold chw_to_hwc. rewrite H1, H2. split.
  - unfold shape0 at 1. rewrite length_fmap, length_seq.
    unfold shape1, shape0 in H1. lia.
  - apply Forall_fmap, Forall_forall. intros r _. simpl. split.
    + unfold shape0 at 1. rewrite length_fmap, length_seq.
      unfold shape2, shape1, shape0 in H2. lia.
    + apply Forall_fmap, Forall_forall. intros col _. simpl.
      unfold shape0 at 1. by rewrite length_fmap.
Qed.

Lemma has_shape4_spec {A} n a b c (t : list (list (list (list A)))) :
  has_shape4 n a b c t = true <->
  shape0 t = n /\ Forall (fun im => has_shape3 a b c im = true) t.
Proof. apply axis_true. Qed.

Lemma div255_shape (dt : dtype) (n a b c : Z) (t : tensor4) :
  has_shape4 n a b c t = true -> has_shape4 n a b c (div255 dt t) = true.
Proof.
  rewrite !has_shape4_spec. unfold div255, shape0.
  intros [Hn Hims]. split; [by rewrite length_fmap|].
  apply Forall_fmap. eapply Forall_impl; [exact Hims|].
  intros im Him. by apply has_shape3_map3.
Qed.

(** The tensor handed to the network, for a batch of images of one
    shape. *)
Lemma net_input_shape (dt : dtype) (n a b c : Z) (batch : tensor4) :
  has_shape4 n a b c batch = true -> 0 < a -> 0 < b ->
  has_shape4 n c a b (net_input dt batch) = true.
Proof.
  intros [Hn Hims]%has_shape4_spec Ha Hb. apply div255_shape, has_shape4_spec.
  split; [unfold shape0 in *; by rewrite length_fmap|].
  apply Forall_fmap. eapply Forall_impl; [exact Hims|].
  intros im Him. simpl. by apply hwc_to_chw_shape.
Qed.

(** *** The values of a batch *)

Lemma concat_fmap {A B} (f : A -> B) (l : list (list A)) :
  concat ((fun x : list A => f <$> x) <$> l) = f <$> concat l.
Proof.
  induction l as [|x l IH]; [done|].
  rewrite fmap_cons. cbn [concat]. by rewrite fmap_app, IH.
Qed.

(** [torch.div] divides every value, whatever it is. *)
Lemma values_div255 (dt : dtype) (t : tensor4) :
  values (div255 dt t) = div255_value dt <$> values t.
Proof.
  unfold values, div255, map3. by rewrite <- !concat_fmap.
Qed.

Lemma Forall_values (P : fl -> Prop) (t : tensor4) :
  Forall P (values t) <-> Forall (Forall (Forall (Forall P))) t.
Proof. unfold values. by rewrite !Forall_concat. Qed.

Lemma nth_Forall {A} (P : A -> Prop) (l : list A) (k : nat) (d : A) :
  Forall P l -> P d -> P (nth k l d).
Proof.
  intros Hl Hd. revert k. induction Hl; intros [|k]; simpl; auto.
Qed.

(** The permutation reads its values from the batch; where a pixel is
    shorter than the first one it reads the filler [0]. *)
Lemma values_hwc_to_chw (P : fl -> Prop) (batch : tensor4) :
  P (Fin 0) -> Forall P (values batch) ->
  Forall P (values (hwc_to_chw <$> batch)).
Proof.
  intros H0. rewrite !Forall_values. intros Hb.
  apply Forall_fmap. eapply Forall_impl; [exact Hb|].
  intros im Him. unfold hwc_to_chw. simpl.
  apply Forall_fmap, Forall_forall. intros ch _. simpl.
  apply Forall_fmap. eapply Forall_impl; [exact Him|].
  intros row Hrow. simpl.
  apply Forall_fmap. eapply Forall_impl; [exact Hrow|].
  intros px Hpx. simpl. by apply nth_Forall.
Qed.

(** *** The division by 255 *)

Lemma div_format_cases (dt : dtype) :
  div_format dt = binary32 \/ div_format dt = binary64.
Proof. destruct dt; auto. Qed.

Lemma div_format_prec (dt : dtype) : 1 <= prec (div_format dt).
Proof. by destruct dt. Qed.

(** The values 0, 1 and 255 are values of both formats, far inside their
    range, and so is what 1/255 is rounded to. *)
Lemma div_format_facts (dt : dtype) :
  round (div_format dt) 0 = 0%Q
  /\ round (div_format dt) 1 = 1%Q
  /\ round (div_format dt) 255 = 255%Q
  /\ (255 < pow2 (emax (div_format dt)))%Q.
Proof. destruct (div_format_cases dt) as [-> | ->]; by vm_compute. Qed.

(** A value between 0 and [hi <= 255] arrives between 0 and what
    [hi / 255] is rounded to. *)
Lemma div255_value_between (dt : dtype) (hi : Q) (v : fl) :
  (0 <= hi)%Q -> (hi <= 255)%Q -> round (div_format dt) hi = hi ->
  between 0 hi v ->
  between 0 (round (div_format dt) (hi / 255)) (div255_value dt v).
Proof.
  intros Hhi0 Hhi Hfix Hv. destruct v as [q| | |]; [|done..].
  destruct Hv as [Hq0 Hq1]. unfold div255_value.
  destruct (div_format_facts dt) as (H0 & H1 & H255 & Hmax).
  pose proof (div_format_prec dt) as Hprec.
  set (fmt := div_format dt) in *.
  destruct (round_fl_between fmt Hprec 0 hi q) as (Hfin & Hlo & Hup);
    [done|done|rewrite H0; lra|rewrite Hfix; lra|].
  rewrite H0 in Hlo. rewrite Hfix in Hup.
  cbn [cast]. rewrite Hfin. cbn [fl_div_pos].
  assert (round fmt (hi / 255) <= 1)%Q as Hone.
  { rewrite <- H1. apply (round_mono fmt Hprec).
    apply Qle_shift_div_r; [done|]. lra. }
  destruct (round_fl_between fmt Hprec 0 (hi / 255) (round fmt q / 255))
    as (Hfin' & Hlo' & Hup').
  - apply Qle_shift_div_l; [done|]. lra.
  - apply Qmult_le_compat_r; [done|]. by apply Qinv_le_0_compat.
  - rewrite H0. lra.
  - lra.
  - rewrite H0 in Hlo'. rewrite Hfin'. by split.
Qed.

End PermuteFacts.

(** ** [_inference] *)

Section InferenceClaims.

Implicit Types (w : world) (net : network) (inp : pyobj) (dt : dtype).

(** A path [np.load] reads: what happens next is decided by [Image.open]
    alone. *)
Lemma resolve_input_ignores_numpy w path (a : dtype * tensor3) :
  np_load w path = Ret a ->
  resolve_input w (PyStr path)
  = (image ← try_load (pil_open w path);
     match image with
     | None => Raise (ValueError "Invalid path.")
     | Some (dt, image) => Ret (dt, image, path)
     end).
Proof. intros Hnp. unfold resolve_input. by rewrite Hnp. Qed.

(** [_inference] once the input is resolved and the batch is made. *)
Lemma inference_unfold fuel w net inp image_size dt image name batch locals :
  resolve_input w inp = Ret (dt, image, name) ->
  make_batch fuel image image_size = Ret (batch, locals) ->
  _inference fuel w net inp image_size
  = (r ← assemble (net (net_input dt batch)).1.2 image_size locals;
     Ret (r, name)).
Proof.
  intros Hin Hb. unfold _inference. rewrite Hin. simpl. rewrite Hb. simpl.
  by destruct (net (net_input dt batch)) as [[ei_1 ei] A].
Qed.

(** C3. A path that [np.load] reads and [Image.open] does not: the array
    [np.load] returned is dropped when the second [try] binds [image]
    again, and [_inference] raises [ValueError("Invalid path.")]. *)
Theorem C3_numpy_result_is_dropped fuel w net path image_size
    (a : dtype * tensor3) :
  np_load w path = Ret a -> pil_open w path = Raise IOError ->
  _inference fuel w net (PyStr path) image_size
  = Raise (ValueError "Invalid path.").
Proof. intros Hnp Hpil. unfold _inference. simpl. by rewrite Hnp, Hpil. Qed.

Lemma C3_numpy_result_is_dropped_witness :
  _inference 0
    (World (fun _ => Ret (UInt8, [[[Fin 1; Fin 2; Fin 3]]]))
           (fun _ => Raise IOError) "tmp")
    (fun x => (x, x, x)) (PyStr "night.npy") 256
  = Raise (ValueError "Invalid path.").
Proof.
  by apply (C3_numpy_result_is_dropped 0 _ _ "night.npy" 256
              (UInt8, [[[Fin 1; Fin 2; Fin 3]]])).
Defined.

(** The two branches of the split decision. *)
Lemma make_batch_whole fuel (image : tensor3) (image_size : Z) :
  shape0 image <= image_size * 2 -> shape1 image <= image_size * 2 ->
  make_batch fuel image image_size = Ret ([image], None).
Proof.
  intros H0 H1. unfold make_batch.
  destruct (Z.gtb_spec (shape0 image) (image_size * 2)); [lia|].
  destruct (Z.gtb_spec (shape1 image) (image_size * 2)); [lia|]. done.
Qed.

Lemma make_batch_split fuel (image : tensor3) (image_size : Z) :
  image_size * 2 < shape0 image \/ image_size * 2 < shape1 image ->
  make_batch fuel image image_size
  = ('(splits, X_points, Y_points) ← patchify fuel image image_size (1 # 8);
     Ret (splits, Some (shape image, X_points, Y_points))).
Proof.
  intros Hc. unfold make_batch.
  destruct (Z.gtb_spec (shape0 image) (image_size * 2));
    destruct (Z.gtb_spec (shape1 image) (image_size * 2)); simpl; try done.
  lia.
Qed.

(** C7. [_inference] makes its batch with [patchify] at overlap 1/8 exactly
    when the height or the width of the image exceeds 2 * window_size;
    otherwise, and so for an image of 2 * window_size by 2 * window_size
    and for a (256, 256, 3) image at window_size 256, the batch is the
    image alone. *)
Theorem C7_split_decision fuel (image : tensor3) (image_size : Z) :
  (image_size * 2 < shape0 image \/ image_size * 2 < shape1 image ->
   make_batch fuel image image_size
   = ('(splits, X_points, Y_points) ← patchify fuel image image_size (1 # 8);
      Ret (splits, Some (shape image, X_points, Y_points))))
  /\ (make_batch fuel image image_size = Ret ([image], None)
      <-> shape0 image <= image_size * 2 /\ shape1 image <= image_size * 2)
  /\ (shape0 image = image_size * 2 /\ shape1 image = image_size * 2 ->
      make_batch fuel image image_size = Ret ([image], None))
  /\ (has_shape3 256 256 3 image = true ->
      make_batch fuel image 256 = Ret ([image], None)).
Proof.
  split; [apply make_batch_split|]. split; [|split].
  - split; [|intros []; by apply make_batch_whole]. intros Hb.
    destruct (decide (image_size * 2 < shape0 image
                      \/ image_size * 2 < shape1 image)) as [Hc|Hc]; [|lia].
    rewrite (make_batch_split _ _ _ Hc) in Hb.
    destruct (patchify fuel image image_size (1 # 8)) as [[[s xs] ys]| |];
      discriminate.
  - intros [H0 H1]. apply make_batch_whole; lia.
  - intros Hs.
    destruct (has_shape3_dims 256 256 3 image Hs) as (H0 & H1 & _); [lia..|].
    apply make_batch_whole; lia.
Qed.

(** The zero stride is within reach of [_inference]: at window_size 1 the
    stride is [int(0.875) = 0], and an image more than 2 pixels high sends
    [patchify] into the loop that never breaks. *)
Lemma inference_window_one_never_returns fuel w net inp dt (image : tensor3)
    name :
  resolve_input w inp = Ret (dt, image, name) -> 2 < shape0 image ->
  _inference fuel w net inp 1 = Timeout.
Proof.
  intros Hin Hh. unfold _inference. rewrite Hin. simpl.
  rewrite make_batch_split by lia. unfold patchify.
  rewrite (start_points_stride fuel (shape0 image) 1 (1 # 8) 0)
    by by vm_compute.
  by rewrite loop_never_breaks by lia.
Qed.

(** C10 (as amended). Whatever the values and the element type of the
    batch are, the network receives each value divided by 255, the
    division taken in float32, or in float64 for a float64 batch, and
    rounded there: values in [0, 255] arrive in [0, 1], and values already
    in [0, 1] arrive between 0 and what 1/255 is rounded to. *)
Theorem C10_always_divided_by_255 fuel w net inp image_size dt image name
    batch locals :
  resolve_input w inp = Ret (dt, image, name) ->
  make_batch fuel image image_size = Ret (batch, locals) ->
  _inference fuel w net inp image_size
  = (r ← assemble (net (net_input dt batch)).1.2 image_size locals;
     Ret (r, name))
  /\ values (net_input dt batch)
     = (fun v => fl_div_pos (div_format dt) (cast (div_format dt) v) 255)
         <$> values (hwc_to_chw <$> batch)
  /\ (Forall (between 0 255) (values batch) ->
      Forall (between 0 1) (values (net_input dt batch)))
  /\ (Forall (between 0 1) (values batch) ->
      Forall (between 0 (round (div_format dt) (1 # 255)))
        (values (net_input dt batch))).
Proof.
  intros Hin Hb. split; [by eapply inference_unfold|].
  split; [apply values_div255|].
  destruct (div_format_facts dt) as (H0 & H1 & H255 & Hmax).
  unfold net_input. rewrite values_div255. split; intros Hv.
  - apply Forall_fmap.
    apply (values_hwc_to_chw _ batch) in Hv; [|by split].
    eapply Forall_impl; [exact Hv|]. intros v Hbetween. simpl.
    rewrite <- H1.
    rewrite <- (round_comp (div_format dt) (255 / 255) 1) by reflexivity.
    by apply div255_value_between.
  - apply Forall_fmap.
    apply (values_hwc_to_chw _ batch) in Hv; [|by split].
    eapply Forall_impl; [exact Hv|]. intros v Hbetween. simpl.
    rewrite <- (round_comp (div_format dt) (1 / 255) (1 # 255)) by reflexivity.
    by apply div255_value_between.
Qed.

End InferenceClaims.

Section ShapeClaims.

Implicit Types (w : world) (net : network) (inp : pyobj) (dt : dtype).

Lemma C10_always_divided_by_255_witness :
  _inference 0 (World (fun _ => Raise IOError) (fun _ => Raise IOError) "tmp")
    (fun x => (x, x, x)) (PyArray UInt8 [[[Fin 255; Fin 0; Fin 51]]]) 1
  = (r ← assemble
           ((fun x : tensor4 => (x, x, x))
              (net_input UInt8 [[[[Fin 255; Fin 0; Fin 51]]]])).1.2
           1 None;
     Ret (r, "tmp.jpg"%string))
  /\ values (net_input UInt8 [[[[Fin 255; Fin 0; Fin 51]]]])
     = (fun v => fl_div_pos (div_format UInt8) (cast (div_format UInt8) v) 255)
         <$> values (hwc_to_chw <$> [[[[Fin 255; Fin 0; Fin 51]]]])
  /\ (Forall (between 0 255) (values [[[[Fin 255; Fin 0; Fin 51]]]]) ->
      Forall (between 0 1)
        (values (net_input UInt8 [[[[Fin 255; Fin 0; Fin 51]]]])))
  /\ (Forall (between 0 1) (values [[[[Fin 255; Fin 0; Fin 51]]]]) ->
      Forall (between 0 (round (div_format UInt8) (1 # 255)))
        (values (net_input UInt8 [[[[Fin 255; Fin 0; Fin 51]]]]))).
Proof.
  apply (C10_always_divided_by_255 0 _ _
           (PyArray UInt8 [[[Fin 255; Fin 0; Fin 51]]]) 1 UInt8
           [[[Fin 255; Fin 0; Fin 51]]] "tmp.jpg"
           [[[[Fin 255; Fin 0; Fin 51]]]] None);
    reflexivity.
Defined.

(** C10 as stated fails by the rounding of the division.  A float32 image
    whose one value is 1, in [0, 1], is handed to the network as the
    float32 [8421505 / 2^31], which is what 1/255 is rounded to and lies
    above 1/255, outside [0, 1/255]. *)
Lemma C10_counterexample :
  _inference 0 (World (fun _ => Raise IOError) (fun _ => Raise IOError) "tmp")
    (fun x => (x, x, x)) (PyArray Float32 [[[Fin 1]]]) 256
  = Ret ([[[Fin (8421505 # 2147483648)]]], "tmp.jpg"%string)
  /\ values (net_input Float32 [[[[Fin 1]]]]) = [Fin (8421505 # 2147483648)]
  /\ (1 # 255 < 8421505 # 2147483648)%Q
  /\ ~ between 0 (1 # 255) (Fin (8421505 # 2147483648)).
Proof.
  split; [by vm_compute|]. split; [by vm_compute|]. split; [done|].
  intros [_ Hle]. by vm_compute in Hle.
Qed.

(** A grid has at least its first and its last offset. *)
Lemma start_points_length fuel size split_size (overlap : pynum) points :
  start_points fuel size split_size overlap = Ret points ->
  (2 <= length points)%nat.
Proof.
  intros (s & n & _ & Hn & -> & _)%start_points_closed_form.
  rewrite length_app, length_fmap, length_seqZ. simpl. lia.
Qed.

Lemma has_shape4_of_Forall (a b c : Z) (t : tensor4) :
  Forall (fun im => has_shape3 a b c im = true) t ->
  has_shape4 (Z.of_nat (length t)) a b c t = true.
Proof. intros H. by apply has_shape4_spec. Qed.

(** The split branch of [_inference] up to the network: for a window of at
    least 2 that converts to a float and an image at least one window high
    and wide, both grids finish and the batch is one patch of the window's
    shape per pair of offsets, at least four. *)
Lemma make_batch_splits fuel (image : tensor3) (image_size H W C : Z) :
  has_shape3 H W C image = true ->
  image_size * 2 < H \/ image_size * 2 < W ->
  2 <= image_size < float_int_limit -> image_size <= H -> image_size <= W ->
  (Z.to_nat H < fuel)%nat -> (Z.to_nat W < fuel)%nat ->
  exists splits xs ys stride,
    make_batch fuel image image_size
    = Ret (splits, Some (shape image, xs, ys))
    /\ patchify fuel image image_size (1 # 8) = Ret (splits, xs, ys)
    /\ stride_of image_size (1 # 8) = Ret stride /\ 0 < stride
    /\ start_points fuel H image_size (1 # 8) = Ret ys
    /\ start_points fuel W image_size (1 # 8) = Ret xs
    /\ length splits = (length ys * length xs)%nat
    /\ (4 <= length splits)%nat
    /\ Forall (fun p => has_shape3 image_size image_size C p = true) splits
    /\ Forall (fun o => 0 <= o /\ o + image_size <= H) ys
    /\ Forall (fun o => 0 <= o /\ o + image_size <= W) xs.
Proof.
  intros Himg Hc Hws HwH HwW HfH HfW.
  assert (0 < H) as HH by lia. assert (0 < W) as HW by lia.
  destruct (has_shape3_dims H W C image Himg HH HW) as (Hs0 & Hs1 & Hs2).
  destruct (stride_eighth_pos image_size Hws) as (stride & Hstride & Hpos).
  destruct (start_points_returns fuel H image_size (1 # 8) stride)
    as [ys Hys]; [done|done|lia|done|].
  destruct (start_points_returns fuel W image_size (1 # 8) stride)
    as [xs Hxs]; [done|done|lia|done|].
  destruct (patchify_shapes fuel image H W C image_size (1 # 8) stride xs ys)
    as (splits & Hp & Hlen & Hshapes & Hyr & Hxr); [done|lia|lia|done|lia|done..|].
  pose proof (start_points_length _ _ _ _ _ Hys) as Hly.
  pose proof (start_points_length _ _ _ _ _ Hxs) as Hlx.
  exists splits, xs, ys, stride.
  split; [|repeat split; try done; nia].
  rewrite make_batch_split by (rewrite Hs0, Hs1; done). by rewrite Hp.
Qed.

(** C8 (as amended). For an input image of shape (H, W, 3) and a network
    that answers C_out channels, [_inference] returns a result of shape
    (C_out, H, W): channels first, then rows and columns, with the height
    and the width of the input.  When the image is split this is for
    C_out = 3, the channels of the canvas, a window_size of at least 2,
    and small enough for a float, and an image at least one window high
    and wide. *)
Theorem C8_result_is_channel_first fuel w net inp image_size dt
    (image : tensor3) name (H W c_out : Z) :
  resolve_input w inp = Ret (dt, image, name) ->
  has_shape3 H W 3 image = true -> 0 < H -> 0 < W ->
  shape_preserving 3 c_out net ->
  (image_size * 2 < H \/ image_size * 2 < W ->
   c_out = 3 /\ 2 <= image_size < float_int_limit
   /\ image_size <= H /\ image_size <= W
   /\ (Z.to_nat H < fuel)%nat /\ (Z.to_nat W < fuel)%nat) ->
  exists r, _inference fuel w net inp image_size = Ret (r, name)
            /\ has_shape3 c_out H W r = true.
Proof.
  intros Hin Himg HH HW Hnet Hsplit.
  destruct (has_shape3_dims H W 3 image Himg HH HW) as (Hs0 & Hs1 & Hs2).
  destruct (decide (image_size * 2 < H \/ image_size * 2 < W)) as [Hc|Hc].
  - (* the image is split *)
    destruct (Hsplit Hc) as (-> & Hws & HwH & HwW & HfH & HfW).
    destruct (make_batch_splits fuel image image_size H W 3)
      as (splits & xs & ys & stride & Hb & _ & _ & _ & _ & _ & Hlen & Hfour
          & Hshapes & Hyr & Hxr); [done..|].
    rewrite (inference_unfold fuel w net inp image_size dt image name splits
               (Some (shape image, xs, ys))); [|done..].
    pose proof (Hnet _ _ _ _
      (net_input_shape dt _ _ _ _ _ (has_shape4_of_Forall _ _ _ _ Hshapes)
         ltac:(lia) ltac:(lia))) as Hei.
    set (ei := (net (net_input dt splits)).1.2) in *.
    apply has_shape4_spec in Hei as [Hn Heis]. unfold shape0 in Hn.
    assert (Hpatches : Forall (fun p => has_shape3 image_size image_size 3 p = true)
                         (chw_to_hwc <$> ei)).
    { apply Forall_fmap. eapply Forall_impl; [exact Heis|].
      intros im Him. simpl. apply chw_to_hwc_shape; [done|lia..]. }
    destruct (reconstruct_shape H W 3 image_size (1 # 8) (chw_to_hwc <$> ei)
                xs ys) as (r & Hr & Hrs); [lia..|done|done| |done|].
    { rewrite length_fmap. lia. }
    assert (Hassemble : assemble ei image_size (Some (shape image, xs, ys))
                        = Ret (hwc_to_chw r)).
    { unfold assemble. destruct ei as [|e1 [|e2 ei']].
      - simpl in Hn. lia.
      - simpl in Hn. lia.
      - unfold shape. rewrite Hs0, Hs1, Hs2, Hr. simpl.
        unfold squeeze0_permute201.
        destruct (has_shape3_dims H W 3 r Hrs HH HW) as (-> & _).
        destruct (Z.eqb_spec H 1); [lia|done]. }
    rewrite Hassemble. simpl. exists (hwc_to_chw r). split; [done|].
    by apply hwc_to_chw_shape.
  - (* the image is the batch *)
    rewrite (inference_unfold fuel w net inp image_size dt image name [image]
               None); [|done|apply make_batch_whole; lia].
    assert (Hb : has_shape4 1 H W 3 [image] = true).
    { apply has_shape4_spec. split; [done|]. by apply Forall_singleton. }
    pose proof (Hnet _ _ _ _ (net_input_shape dt _ _ _ _ _ Hb HH HW)) as Hei.
    set (ei := (net (net_input dt [image])).1.2) in *.
    apply has_shape4_spec in Hei as [Hn Heis]. unfold shape0 in Hn.
    destruct ei as [|item [|e2 ei']]; simpl in Hn; [lia| |lia].
    apply Forall_cons in Heis as [Hitem _]. simpl. by exists item.
Qed.

Lemma C8_result_is_channel_first_witness :
  exists r,
    _inference 7 (World (fun _ => Raise IOError) (fun _ => Raise IOError) "tmp")
      (fun x => (x, x, x))
      (PyArray UInt8 (replicate 5 (replicate 6 [Fin 1; Fin 2; Fin 3]))) 2
    = Ret (r, "tmp.jpg"%string)
    /\ has_shape3 3 5 6 r = true.
Proof.
  apply (C8_result_is_channel_first 7 _ _ _ 2 UInt8
           (replicate 5 (replicate 6 [Fin 1; Fin 2; Fin 3])) "tmp.jpg" 5 6 3).
  - reflexivity.
  - reflexivity.
  - lia.
  - lia.
  - intros n h w' x Hx. exact Hx.
  - intros _. repeat split; lia.
Defined.

(** C8 as stated fails: a (2, 1, 3) image of 8-bit values, not split at
    window_size 256, through a network that answers the 3 channels it is
    given comes back with shape (3, 2, 1), not (2, 1, 3). *)
Lemma C8_counterexample :
  _inference 0 (World (fun _ => Raise IOError) (fun _ => Raise IOError) "tmp")
    (fun x => (x, x, x))
    (PyArray UInt8 [[[Fin 51; Fin 102; Fin 153]]; [[Fin 204; Fin 255; Fin 0]]])
    256
  = Ret ([[[Fin (13421773 # 67108864)]; [Fin (13421773 # 16777216)]];
          [[Fin (13421773 # 33554432)]; [Fin 1]];
          [[Fin (5033165 # 8388608)]; [Fin 0]]], "tmp.jpg"%string)
  /\ has_shape3 3 2 1
       [[[Fin (13421773 # 67108864)]; [Fin (13421773 # 16777216)]];
        [[Fin (13421773 # 33554432)]; [Fin 1]];
        [[Fin (5033165 # 8388608)]; [Fin 0]]] = true
  /\ has_shape3 2 1 3
       [[[Fin (13421773 # 67108864)]; [Fin (13421773 # 16777216)]];
        [[Fin (13421773 # 33554432)]; [Fin 1]];
        [[Fin (5033165 # 8388608)]; [Fin 0]]] = false.
Proof. split; [by vm_compute|]. by split. Qed.

End ShapeClaims.

(** * Further properties *)

(** ** [start_points] beyond the claims *)

Section GridExtras.

Implicit Types (size split_size stride counter : Z) (points : list Z).

(** A stride of zero or below never reaches the [break] once its first
    test has failed. *)
Lemma loop_stuck fuel size split_size stride points counter :
  stride <= 0 -> 1 <= counter -> stride + split_size < size ->
  loop fuel size split_size stride (points, counter) = Timeout.
Proof.
  intros Hst. revert points counter.
  induction fuel as [|fuel IH]; intros points counter Hc Hsz; [done|].
  simpl. destruct (Z.geb_spec (stride * counter + split_size) size); [nia|].
  apply IH; lia.
Qed.

(** The run that returns after accepting [n] multiples of the stride uses
    [n + 1] passes of the loop. *)
Lemma loop_returns_exactly fuel size split_size stride points counter (n : Z) :
  0 <= n -> (Z.to_nat n < fuel)%nat ->
  (forall k, counter <= k < counter + n -> stride * k + split_size < size) ->
  size <= stride * (counter + n) + split_size ->
  loop fuel size split_size stride (points, counter)
  = Ret (points ++ (Z.mul stride <$> seqZ counter n) ++ [size - split_size]).
Proof.
  revert points counter n.
  induction fuel as [|fuel IH]; intros points counter n Hn Hfuel Hacc Hstop; [lia|].
  simpl. destruct (Z.geb_spec (stride * counter + split_size) size) as [Hge|Hlt].
  - destruct (decide (n = 0)) as [->|Hn0].
    + by rewrite seqZ_nil.
    + specialize (Hacc counter ltac:(lia)). lia.
  - destruct (decide (n = 0)) as [->|Hn0].
    { rewrite Z.add_0_r in Hstop. lia. }
    rewrite (IH _ (counter + 1) (n - 1)); [|lia|lia| |].
    + rewrite (seqZ_cons counter n) by lia.
      by rewrite fmap_cons, <- !app_assoc.
    + intros k Hk. apply Hacc. lia.
    + by replace (counter + 1 + (n - 1)) with (counter + n) by lia.
Qed.

Lemma loop_closed_form_fuel fuel size split_size stride points counter res :
  loop fuel size split_size stride (points, counter) = Ret res ->
  exists n, 0 <= n /\ (Z.to_nat n < fuel)%nat
    /\ res = points ++ (Z.mul stride <$> seqZ counter n) ++ [size - split_size]
    /\ (forall k, counter <= k < counter + n -> stride * k + split_size < size)
    /\ size <= stride * (counter + n) + split_size.
Proof.
  revert points counter.
  induction fuel as [|fuel IH]; intros points counter; [done|].
  simpl. destruct (Z.geb_spec (stride * counter + split_size) size) as [Hge|Hlt].
  - intros [= <-]. exists 0. rewrite Z.add_0_r.
    split; [lia|]. split; [lia|]. split; [by rewrite seqZ_nil|].
    split; [lia|done].
  - intros (n & Hn & Hf & -> & Hacc & Hstop)%IH. exists (n + 1).
    split; [lia|]. split; [lia|]. split; [|split].
    + rewrite (seqZ_cons counter (n + 1)) by lia.
      replace (Z.pred (n + 1)) with n by lia.
      by rewrite fmap_cons, <- !app_assoc.
    + intros k Hk. destruct (decide (k = counter)) as [->|]; [lia|].
      apply Hacc. lia.
    + by replace (counter + (n + 1)) with (Z.succ counter + n) by lia.
Qed.

(** X1. [start_points] returns exactly when line 25 gives a stride, and
    the stride is positive or the first candidate already reaches the end,
    [stride + split_size >= size]; with any other stride the loop runs
    forever. *)
Theorem start_points_terminates_iff size split_size (overlap : pynum) :
  terminates size split_size overlap
  <-> exists stride, stride_of split_size overlap = Ret stride
        /\ (0 < stride \/ size <= stride + split_size).
Proof.
  unfold terminates. split.
  - intros (fuel & points & (s & Hs & Hrun)%start_points_inv).
    exists s. split; [done|].
    destruct (decide (0 < s)) as [|Hs0]; [by left|right].
    destruct (decide (size <= s + split_size)) as [|Hsz]; [done|].
    rewrite loop_stuck in Hrun; [done|lia..].
  - intros (s & Hs & [Hpos|Hsz]).
    + destruct (loop_returns (S (Z.to_nat (size - split_size - s * 1)))
                  size split_size s [0] 1) as [res Hres]; [done|lia|].
      eexists _, _. by rewrite (start_points_stride _ _ _ _ _ Hs).
    + exists 1%nat, [0; size - split_size].
      rewrite (start_points_stride _ _ _ _ _ Hs). simpl.
      destruct (Z.geb_spec (s * 1 + split_size) size); [done|lia].
Qed.

(** The runs of [start_points] that return, and what they return. *)
Lemma start_points_run fuel size split_size (overlap : pynum) points :
  start_points fuel size split_size overlap = Ret points
  <-> exists s n, stride_of split_size overlap = Ret s
        /\ 0 <= n /\ (Z.to_nat n < fuel)%nat
        /\ points = (Z.mul s <$> seqZ 0 (n + 1)) ++ [size - split_size]
        /\ (forall k, 1 <= k <= n -> s * k + split_size < size)
        /\ size <= s * (n + 1) + split_size.
Proof.
  assert (Hhead : forall s n, 0 <= n ->
            [0] ++ (Z.mul s <$> seqZ 1 n) = Z.mul s <$> seqZ 0 (n + 1)).
  { intros s n Hn. rewrite (seqZ_cons 0 (n + 1)) by lia.
    replace (Z.pred (n + 1)) with n by lia.
    rewrite fmap_cons, Z.mul_0_r. reflexivity. }
  split.
  - intros (s & Hs & (n & Hn & Hf & -> & Hacc & Hstop)%loop_closed_form_fuel)
             %start_points_inv.
    exists s, n. split; [done|]. split; [done|]. split; [done|].
    split; [|split].
    + by rewrite app_assoc, Hhead.
    + intros k Hk. apply Hacc. lia.
    + by replace (n + 1) with (1 + n) by lia.
  - intros (s & n & Hs & Hn & Hf & -> & Hacc & Hstop).
    rewrite (start_points_stride _ _ _ _ _ Hs).
    rewrite (loop_returns_exactly fuel size split_size s [0] 1 n);
      [by rewrite app_assoc, Hhead|done|done| |].
    + intros k Hk. apply Hacc. lia.
    + by replace (1 + n) with (n + 1) by lia.
Qed.

(** X2. The complete description of a call: [start_points] returns [points]
    within its fuel exactly when line 25 gives a stride [s] and [points] is
    [0, s, 2s, .., n*s] followed by [size - split_size], where each
    accepted multiple leaves room for a further window,
    [k*s + split_size < size], the next one does not, and the [n + 1]
    passes fit the fuel. *)
Theorem start_points_returns_iff fuel size split_size (overlap : pynum)
    points :
  start_points fuel size split_size overlap = Ret points
  <-> exists s n, stride_of split_size overlap = Ret s
        /\ 0 <= n /\ (Z.to_nat n < fuel)%nat
        /\ points = (Z.mul s <$> seqZ 0 (n + 1)) ++ [size - split_size]
        /\ (forall k, 1 <= k <= n -> s * k + split_size < size)
        /\ size <= s * (n + 1) + split_size.
Proof. apply start_points_run. Qed.

Lemma StronglySorted_lookup {A} (R : A -> A -> Prop) (l : list A) :
  (forall (i j : nat) x y,
     (i < j)%nat -> l !! i = Some x -> l !! j = Some y -> R x y) ->
  StronglySorted R l.
Proof.
  induction l as [|a l IH]; intros Hl; constructor.
  - apply IH. intros i j x y Hij Hi Hj. by apply (Hl (S i) (S j)); [lia|..].
  - apply Forall_lookup. intros j y Hj. by apply (Hl O (S j)); [lia|..].
Qed.

Lemma start_points_lookup_increasing fuel size split_size (overlap : pynum)
    points (i j : nat) (x y : Z) :
  split_size < size ->
  start_points fuel size split_size overlap = Ret points ->
  (i < j)%nat -> points !! i = Some x -> points !! j = Some y -> x < y.
Proof.
  intros Hsz (s & n & _ & Hn & -> & Hacc & Hstop)%start_points_closed_form
    Hij Hi Hj.
  assert (0 < s) as Hs by nia.
  assert (Hlen : length (Z.mul s <$> seqZ 0 (n + 1)) = Z.to_nat (n + 1)).
  { by rewrite length_fmap, length_seqZ. }
  assert (Hlook : forall k v,
            ((Z.mul s <$> seqZ 0 (n + 1)) ++ [size - split_size]) !! k = Some v ->
            (Z.of_nat k <= n /\ v = s * Z.of_nat k)
            \/ (Z.of_nat k = n + 1 /\ v = size - split_size)).
  { intros k v Hk. apply lookup_app_Some in Hk as [Hk|[Hge Hk]].
    - left. rewrite list_lookup_fmap in Hk.
      apply fmap_Some in Hk as (m & Hm & ->).
      apply lookup_seqZ in Hm as [-> Hm]. split; [lia|]. f_equal; lia.
    - right. rewrite Hlen in Hge, Hk.
      apply list_lookup_singleton_Some in Hk as [Hk <-]. split; [lia|done]. }
  apply Hlook in Hi as [[Hi ->]|[Hi ->]], Hj as [[Hj ->]|[Hj ->]]; try lia.
  - nia.
  - destruct (decide (i = 0%nat)) as [->|]; [lia|].
    specialize (Hacc (Z.of_nat i) ltac:(lia)). lia.
Qed.

(** X3. When the extent exceeds one window, the offsets of a returned grid
    are strictly increasing: no window is listed twice. *)
Theorem start_points_strictly_increasing fuel size split_size
    (overlap : pynum) points :
  split_size < size ->
  start_points fuel size split_size overlap = Ret points ->
  StronglySorted Z.lt points.
Proof.
  intros Hsz Hrun. apply StronglySorted_lookup. intros i j x y.
  by apply (start_points_lookup_increasing fuel size split_size overlap).
Qed.

Lemma start_points_strictly_increasing_witness :
  StronglySorted Z.lt [0; 224; 344].
Proof.
  apply (start_points_strictly_increasing 3 600 256 (1 # 8));
    [lia|by vm_compute].
Defined.

(** X4. The number of offsets of a returned grid, for an extent above one
    window: [2 + (size - split_size - 1) // stride], with the stride line
    25 gives. *)
Theorem start_points_length_formula fuel size split_size (overlap : pynum)
    stride points :
  split_size < size ->
  stride_of split_size overlap = Ret stride ->
  start_points fuel size split_size overlap = Ret points ->
  Z.of_nat (length points) = 2 + (size - split_size - 1) `div` stride.
Proof.
  intros Hsz Hstride
    (s & n & Hs & Hn & -> & Hacc & Hstop)%start_points_closed_form.
  assert (s = stride) as -> by congruence.
  assert (0 < stride) as Hpos by nia.
  rewrite length_app, length_fmap, length_seqZ. simpl.
  assert (n = (size - split_size - 1) `div` stride); [|lia].
  apply (Z.div_unique_pos _ _ _ (size - split_size - 1 - stride * n)); [|lia].
  destruct (decide (n = 0)) as [->|]; [lia|].
  specialize (Hacc n ltac:(lia)). lia.
Qed.

Lemma start_points_length_formula_witness :
  Z.of_nat (length [0; 9; 18; 27; 36; 45; 54; 63; 72; 81; 90])
  = 2 + (100 - 10 - 1) `div` 9.
Proof.
  apply (start_points_length_formula 11 100 10
           (3602879701896397 # 36028797018963968));
    [lia|by vm_compute|by vm_compute].
Defined.

(** X5. An extent no larger than one window: with a float overlap in
    [0, 1] the stride is not negative and the grid is
    [[0, size - split_size]], whose second offset is zero or negative; the
    window then starts before the image.  (A window too large to be
    converted to a float is an [OverflowError] on line 25.) *)
Theorem start_points_small_extent fuel size split_size (overlap : Q) :
  0 <= split_size -> (0 <= overlap)%Q -> (overlap <= 1)%Q ->
  size <= split_size ->
  start_points (S fuel) size split_size overlap
  = (_ ← float_of_int split_size; Ret [0; size - split_size])
  /\ size - split_size <= 0.
Proof.
  intros Hs Ho0 Ho1 Hsz. split; [|lia]. unfold start_points.
  destruct (stride_of_unit split_size overlap Hs Ho0 Ho1)
    as (s & -> & Hs0 & _).
  destruct (float_of_int split_size); [|done..].
  cbn [mbind result_bind]. by apply loop_one_window.
Qed.

Lemma start_points_small_extent_witness :
  start_points 1 100 256 (1 # 8) = Ret [0; 100 - 256] /\ 100 - 256 <= 0.
Proof.
  destruct (start_points_small_extent 0 100 256 (1 # 8)) as [Hrun Hlast];
    [lia|done|done|lia|].
  split; [|exact Hlast]. rewrite Hrun. by vm_compute.
Defined.

(** X6. With overlap the int 0, the default of [start_points], on an
    extent of [a >= 2] windows the grid is the plain tiling
    [0, split_size, .., (a - 1) * split_size]: the windows do not overlap
    and the clamped last offset is the last tile. *)
Theorem start_points_exact_tiling fuel split_size (a : Z) :
  0 < split_size -> 2 <= a -> (Z.to_nat a <= S fuel)%nat ->
  start_points (S fuel) (a * split_size) split_size (PyInt 0)
  = Ret (Z.mul split_size <$> seqZ 0 a).
Proof.
  intros Hs Ha Hfuel.
  apply start_points_run. exists split_size, (a - 2).
  split; [rewrite stride_of_int; f_equal; lia|].
  split; [lia|]. split; [lia|]. split; [|split; [intros k Hk; nia|nia]].
  assert (Hseq : seqZ 0 a = seqZ 0 (a - 1) ++ [a - 1]).
  { replace a with ((a - 1) + 1) at 1 by lia. rewrite seqZ_app by lia.
    f_equal. }
  rewrite Hseq, fmap_app. replace (a - 2 + 1) with (a - 1) by lia.
  f_equal. simpl. f_equal. lia.
Qed.

Lemma start_points_exact_tiling_witness :
  start_points 3 (3 * 256) 256 (PyInt 0) = Ret (Z.mul 256 <$> seqZ 0 3).
Proof. apply (start_points_exact_tiling 2 256 3); lia. Defined.

End GridExtras.

(** ** [patchify] and [reconstruct] beyond the claims *)

Section PipelineExtras.

Lemma visits_cons (i : Z) (ys xs : list Z) :
  visits (i :: ys) xs = ((fun j => (i, j)) <$> xs) ++ visits ys xs.
Proof.
  unfold visits. rewrite bind_cons. f_equal.
Qed.

(** The pair the loops visit at step [k * len(X_points) + l]. *)
Lemma lookup_visits (ys xs : list Z) (k l : nat) (i j : Z) :
  ys !! k = Some i -> xs !! l = Some j ->
  visits ys xs !! (k * length xs + l)%nat = Some (i, j).
Proof.
  revert k. induction ys as [|i0 ys IH]; intros k Hk Hl; [done|].
  rewrite visits_cons. destruct k as [|k]; simpl in Hk.
  - injection Hk as ->. change (0 * length xs + l)%nat with l.
    rewrite lookup_app_l.
    + by rewrite list_lookup_fmap, Hl.
    + rewrite length_fmap. by apply lookup_lt_Some in Hl.
  - rewrite lookup_app_r by (rewrite length_fmap; lia).
    rewrite length_fmap.
    replace (S k * length xs + l - length xs)%nat with (k * length xs + l)%nat
      by lia.
    by apply IH.
Qed.

(** What [patchify] returns, whenever it returns. *)
Lemma patchify_inv fuel (image : tensor3) split_size (overlap : pynum)
    (splits : tensor4) (xs ys : list Z) :
  patchify fuel image split_size overlap = Ret (splits, xs, ys) ->
  start_points fuel (shape0 image) split_size overlap = Ret ys
  /\ start_points fuel (shape1 image) split_size overlap = Ret xs
  /\ splits = (fun p : Z * Z => slice2 image p.1 (p.1 + split_size)
                                   p.2 (p.2 + split_size)) <$> visits ys xs.
Proof.
  unfold patchify.
  destruct (start_points fuel (shape0 image) split_size overlap)
    as [ys'| |] eqn:Hys; [|done..].
  destruct (start_points fuel (shape1 image) split_size overlap)
    as [xs'| |] eqn:Hxs; [|done..].
  simpl. unfold np_asarray. destruct (forallb _ _); [|done]. simpl.
  intros [= <- <- <-].
  by rewrite (visits_fmap (fun i j => slice2 image i (i + split_size)
                                         j (j + split_size))).
Qed.

(** X7. What [patchify] returns, whenever it returns: the two grids of the
    height and the width, one patch per pair of offsets, at least four of
    them, and in row-major order: patch [k * len(X_points) + l] is the crop
    at [(Y_points[k], X_points[l])]. *)
Theorem patchify_row_major fuel (image : tensor3) split_size (overlap : pynum)
    (splits : tensor4) (X_points Y_points : list Z) :
  patchify fuel image split_size overlap = Ret (splits, X_points, Y_points) ->
  start_points fuel (shape0 image) split_size overlap = Ret Y_points
  /\ start_points fuel (shape1 image) split_size overlap = Ret X_points
  /\ length splits = (length Y_points * length X_points)%nat
  /\ (4 <= length splits)%nat
  /\ forall (k l : nat) (i j : Z),
       Y_points !! k = Some i -> X_points !! l = Some j ->
       splits !! (k * length X_points + l)%nat
       = Some (slice2 image i (i + split_size) j (j + split_size)).
Proof.
  intros (Hys & Hxs & ->)%patchify_inv.
  pose proof (start_points_length _ _ _ _ _ Hys).
  pose proof (start_points_length _ _ _ _ _ Hxs).
  split; [done|]. split; [done|].
  rewrite length_fmap, length_visits. split; [done|]. split; [nia|].
  intros k l i j Hk Hl.
  by rewrite list_lookup_fmap, (lookup_visits _ _ _ _ i j).
Qed.

Lemma patchify_row_major_witness :
  start_points 5
    (shape0 [[[Fin 1]; [Fin 2]; [Fin 3]; [Fin 4]];
             [[Fin 5]; [Fin 6]; [Fin 7]; [Fin 8]]]) 2 (PyInt 0)
  = Ret [0; 0]
  /\ start_points 5
       (shape1 [[[Fin 1]; [Fin 2]; [Fin 3]; [Fin 4]];
                [[Fin 5]; [Fin 6]; [Fin 7]; [Fin 8]]]) 2 (PyInt 0)
     = Ret [0; 2]
  /\ length [[[[Fin 1]; [Fin 2]]; [[Fin 5]; [Fin 6]]];
             [[[Fin 3]; [Fin 4]]; [[Fin 7]; [Fin 8]]];
             [[[Fin 1]; [Fin 2]]; [[Fin 5]; [Fin 6]]];
             [[[Fin 3]; [Fin 4]]; [[Fin 7]; [Fin 8]]]]
     = (length [0; 0] * length [0; 2])%nat
  /\ (4 <= length [[[[Fin 1]; [Fin 2]]; [[Fin 5]; [Fin 6]]];
                   [[[Fin 3]; [Fin 4]]; [[Fin 7]; [Fin 8]]];
                   [[[Fin 1]; [Fin 2]]; [[Fin 5]; [Fin 6]]];
                   [[[Fin 3]; [Fin 4]]; [[Fin 7]; [Fin 8]]]])%nat
  /\ forall (k l : nat) (i j : Z),
       [0; 0] !! k = Some i -> [0; 2] !! l = Some j ->
       [[[[Fin 1]; [Fin 2]]; [[Fin 5]; [Fin 6]]];
        [[[Fin 3]; [Fin 4]]; [[Fin 7]; [Fin 8]]];
        [[[Fin 1]; [Fin 2]]; [[Fin 5]; [Fin 6]]];
        [[[Fin 3]; [Fin 4]]; [[Fin 7]; [Fin 8]]]]
         !! (k * length [0; 2] + l)%nat
       = Some (slice2 [[[Fin 1]; [Fin 2]; [Fin 3]; [Fin 4]];
                       [[Fin 5]; [Fin 6]; [Fin 7]; [Fin 8]]]
                 i (i + 2) j (j + 2)).
Proof.
  apply (patchify_row_major 5 [[[Fin 1]; [Fin 2]; [Fin 3]; [Fin 4]];
                               [[Fin 5]; [Fin 6]; [Fin 7]; [Fin 8]]]
           2 (PyInt 0)). by vm_compute.
Defined.

(** X8. The round trip for every overlap: for an image at least one window
    high and wide and an overlap whose stride is positive and not above
    the window, [patchify] returns patches that all have the shape of the
    window, and [reconstruct] on them, the grids and the shape of the image
    returns the image with its values converted to float32, whatever the
    windows share: the image itself when its values are float32 values. *)
Theorem round_trip_any_overlap fuel (image : tensor3) (a b c split_size : Z)
    (overlap : pynum) (stride : Z) :
  has_shape3 a b c image = true ->
  0 < split_size <= a -> split_size <= b ->
  stride_of split_size overlap = Ret stride -> 0 < stride <= split_size ->
  (Z.to_nat a < fuel)%nat -> (Z.to_nat b < fuel)%nat ->
  exists splits X_points Y_points,
    patchify fuel image split_size overlap = Ret (splits, X_points, Y_points)
    /\ Forall (fun p => has_shape3 split_size split_size c p = true) splits
    /\ reconstruct splits split_size overlap (shape image) X_points Y_points
       = Ret (map3 (cast binary32) image)
    /\ (all_values (is_float binary32) image ->
        reconstruct splits split_size overlap (shape image) X_points Y_points
        = Ret image).
Proof.
  intros Himg Ha Hb Hs Hs0 Hfa Hfb.
  destruct (start_points_returns fuel a split_size overlap stride)
    as [ys Hys]; [done|lia|lia|done|].
  destruct (start_points_returns fuel b split_size overlap stride)
    as [xs Hxs]; [done|lia|lia|done|].
  destruct (reconstruct_patchify fuel image a b c split_size overlap stride
              xs ys) as (splits & Hp & _ & Hshapes & Hr);
    [done|done|done|done|lia|done|done|].
  exists splits, xs, ys. split; [done|]. split; [done|]. split; [done|].
  intros Hall. rewrite Hr. f_equal. by apply map3_id.
Qed.

Lemma round_trip_any_overlap_witness :
  exists splits X_points Y_points,
    patchify 6 [[[Fin 1]; [Fin 2]; [Fin 3]; [Fin 4]; [Fin 5]];
                [[Fin 6]; [Fin 7]; [Fin 8]; [Fin 9]; [Fin 10]]] 2 (1 # 2)
    = Ret (splits, X_points, Y_points)
    /\ Forall (fun p => has_shape3 2 2 1 p = true) splits
    /\ reconstruct splits 2 (1 # 2)
         (shape [[[Fin 1]; [Fin 2]; [Fin 3]; [Fin 4]; [Fin 5]];
                 [[Fin 6]; [Fin 7]; [Fin 8]; [Fin 9]; [Fin 10]]])
         X_points Y_points
       = Ret (map3 (cast binary32)
                [[[Fin 1]; [Fin 2]; [Fin 3]; [Fin 4]; [Fin 5]];
                 [[Fin 6]; [Fin 7]; [Fin 8]; [Fin 9]; [Fin 10]]])
    /\ (all_values (is_float binary32)
          [[[Fin 1]; [Fin 2]; [Fin 3]; [Fin 4]; [Fin 5]];
           [[Fin 6]; [Fin 7]; [Fin 8]; [Fin 9]; [Fin 10]]] ->
        reconstruct splits 2 (1 # 2)
          (shape [[[Fin 1]; [Fin 2]; [Fin 3]; [Fin 4]; [Fin 5]];
                  [[Fin 6]; [Fin 7]; [Fin 8]; [Fin 9]; [Fin 10]]])
          X_points Y_points
        = Ret [[[Fin 1]; [Fin 2]; [Fin 3]; [Fin 4]; [Fin 5]];
               [[Fin 6]; [Fin 7]; [Fin 8]; [Fin 9]; [Fin 10]]]).
Proof.
  apply (round_trip_any_overlap 6 _ 2 5 1 2 (1 # 2) 1);
    [reflexivity|lia|lia|by vm_compute|lia|simpl; lia|simpl; lia].
Defined.

End PipelineExtras.

Section ReconstructExtras.

(** A pixel of the fresh canvas. *)
Lemma zeros_pixel (a b c : Z) (z : tensor3) (row col : nat) :
  zeros (a, b, c) = Ret z -> Z.of_nat row < a -> Z.of_nat col < b ->
  pixel z row col = Some (replicate (Z.to_nat c) (Fin 0)).
Proof.
  unfold zeros. destruct (_ || _); [done|]. intros [= <-] Hr Hc.
  unfold pixel. rewrite lookup_replicate_2 by lia. simpl.
  by rewrite lookup_replicate_2 by lia.
Qed.

(** X9. Last write wins.  For windows inside the target and patches of the
    window's shape, [reconstruct] returns an array of the target shape in
    which a pixel carries the value of the last patch, in the order of the
    loops, whose window contains it, converted to float32, and is zero
    when no window does. *)
Theorem reconstruct_last_write_wins (a b c split_size : Z) (overlap : pynum)
    (splits : tensor4) (X_points Y_points : list Z) :
  0 < split_size -> 0 <= a -> 0 <= b -> 0 <= c ->
  Forall (fun o => 0 <= o /\ o + split_size <= a) Y_points ->
  Forall (fun o => 0 <= o /\ o + split_size <= b) X_points ->
  (length Y_points * length X_points <= length splits)%nat ->
  Forall (fun p => has_shape3 split_size split_size c p = true) splits ->
  exists r,
    reconstruct splits split_size overlap (a, b, c) X_points Y_points = Ret r
    /\ has_shape3 a b c r = true
    /\ forall row col : nat,
         (forall (k : nat) p patch,
            visits Y_points X_points !! k = Some p ->
            splits !! k = Some patch ->
            in_window split_size p row col ->
            (forall (k' : nat) p',
               (k < k')%nat -> visits Y_points X_points !! k' = Some p' ->
               ~ in_window split_size p' row col) ->
            pixel r row col
            = (fun px : list fl => cast binary32 <$> px)
                <$> pixel patch (row - Z.to_nat p.1) (col - Z.to_nat p.2))
         /\ (Z.of_nat row < a -> Z.of_nat col < b ->
             (forall p, p ∈ visits Y_points X_points ->
                        ~ in_window split_size p row col) ->
             pixel r row col = Some (replicate (Z.to_nat c) (Fin 0))).
Proof.
  intros Hws Ha Hb Hc Hy Hx Hlen Hsplits. unfold reconstruct.
  destruct (zeros_shape a b c) as (z & Hzeros & Hz); [done..|].
  rewrite Hzeros. simpl.
  rewrite (for_in_nested Y_points X_points (paste splits split_size)).
  set (pairs := visits Y_points X_points).
  destruct (paste_loop a b c split_size splits pairs
    (fun n res => forall row col : nat,
       (forall (k : nat) p patch,
          (k < n)%nat -> pairs !! k = Some p -> splits !! k = Some patch ->
          in_window split_size p row col ->
          (forall (k' : nat) p',
             (k < k' < n)%nat -> pairs !! k' = Some p' ->
             ~ in_window split_size p' row col) ->
          pixel res row col
          = (fun px : list fl => cast binary32 <$> px)
              <$> pixel patch (row - Z.to_nat p.1) (col - Z.to_nat p.2))
       /\ ((forall (k : nat) p, (k < n)%nat -> pairs !! k = Some p ->
              ~ in_window split_size p row col) ->
           pixel res row col = pixel z row col)) O z)
    as (r & -> & Hr & Hinv); try done.
  - by apply visits_in_range.
  - intros k Hk. unfold pairs in Hk. rewrite length_visits in Hk.
    destruct (lookup_lt_is_Some_2 splits k) as [patch Hpatch]; [lia|].
    exists patch. split; [done|].
    by apply (proj1 (Forall_lookup _ _) Hsplits k).
  - intros row col. split; [intros k p patch Hk; lia|done].
  - intros k p patch res res' Hp Hpatch HP Hres' row col.
    simpl in Hpatch. destruct (HP row col) as [HP1 HP2]. split.
    + intros k0 p0 patch0 Hk0 Hp0 Hpatch0 Hwin Hlater. rewrite Hres'.
      destruct (decide (k0 = k)) as [->|Hne].
      * rewrite Hp in Hp0. rewrite Hpatch in Hpatch0.
        injection Hp0 as <-. injection Hpatch0 as <-.
        by rewrite decide_True.
      * rewrite decide_False by (apply (Hlater k p); [lia|done]).
        apply (HP1 k0 p0 patch0); [lia|done|done|done|].
        intros k' p' Hk'. apply Hlater. lia.
    + intros Hnone. rewrite Hres'.
      rewrite decide_False by (apply (Hnone k p); [lia|done]).
      apply HP2. intros k0 p0 Hk0. apply Hnone. lia.
  - exists r. split; [done|]. split; [done|].
    intros row col. destruct (Hinv row col) as [H1 H2]. split.
    + intros k p patch Hp Hpatch Hwin Hlater.
      apply (H1 k p patch); [by apply lookup_lt_Some in Hp|done..|].
      intros k' p' [Hk' _]. by apply Hlater.
    + intros Hrow Hcol Hnone.
      rewrite H2; [by apply (zeros_pixel a b c)|].
      intros k p _ Hp. apply Hnone. by apply list_elem_of_lookup_2 in Hp.
Qed.

Lemma reconstruct_last_write_wins_witness :
  exists r,
    reconstruct [[[[Fin 1]; [Fin 1]]; [[Fin 1]; [Fin 1]]];
                 [[[Fin 2]; [Fin 2]]; [[Fin 2]; [Fin 2]]]] 2 (PyInt 0)
      (2, 4, 1) [0; 1] [0] = Ret r
    /\ has_shape3 2 4 1 r = true
    /\ forall row col : nat,
         (forall (k : nat) p patch,
            visits [0] [0; 1] !! k = Some p ->
            [[[[Fin 1]; [Fin 1]]; [[Fin 1]; [Fin 1]]];
             [[[Fin 2]; [Fin 2]]; [[Fin 2]; [Fin 2]]]] !! k
            = Some patch ->
            in_window 2 p row col ->
            (forall (k' : nat) p',
               (k < k')%nat -> visits [0] [0; 1] !! k' = Some p' ->
               ~ in_window 2 p' row col) ->
            pixel r row col
            = (fun px : list fl => cast binary32 <$> px)
                <$> pixel patch (row - Z.to_nat p.1) (col - Z.to_nat p.2))
         /\ (Z.of_nat row < 2 -> Z.of_nat col < 4 ->
             (forall p, p ∈ visits [0] [0; 1] -> ~ in_window 2 p row col) ->
             pixel r row col = Some (replicate (Z.to_nat 1) (Fin 0))).
Proof.
  apply (reconstruct_last_write_wins 2 4 1 2 (PyInt 0)); try lia.
  - repeat constructor; lia.
  - repeat constructor; lia.
  - simpl. lia.
  - repeat constructor.
Defined.

(** The loop reads [splits] at the indices it counts through only. *)
Lemma paste_loop_reads (splits splits' : tensor4) (split_size : Z)
    (pairs : list (Z * Z)) (res : tensor3) (count : nat) :
  (forall k, (k < length pairs)%nat ->
     splits !! (count + k)%nat = splits' !! (count + k)%nat) ->
  for_in pairs (fun p => paste splits split_size p.1 p.2) (res, count)
  = for_in pairs (fun p => paste splits' split_size p.1 p.2) (res, count).
Proof.
  revert res count. induction pairs as [|p pairs IH]; intros res count Hagree;
    [done|].
  pose proof (Hagree O ltac:(simpl; lia)) as H0. rewrite Nat.add_0_r in H0.
  cbn [for_in]. unfold paste at 1 3. simpl. rewrite <- H0.
  destruct (splits !! count) as [patch|]; [|done]. simpl.
  destruct (assign_region _ _ _ _ _ _) as [res'| |]; [|done..]. simpl.
  apply IH. intros k Hk.
  replace (S count + k)%nat with (count + S k)%nat by lia.
  apply Hagree. simpl. lia.
Qed.

(** X10. [reconstruct] reads the first [len(Y_points) * len(X_points)]
    patches and no other: patches beyond them change nothing. *)
Theorem reconstruct_reads_prefix (splits : tensor4) (split_size : Z)
    (overlap : pynum) (image_size : Z * Z * Z) (X_points Y_points : list Z) :
  reconstruct splits split_size overlap image_size X_points Y_points
  = reconstruct (take (length Y_points * length X_points) splits)
      split_size overlap image_size X_points Y_points.
Proof.
  unfold reconstruct. destruct (zeros image_size) as [z| |]; [|done..].
  simpl. rewrite !for_in_nested.
  rewrite (paste_loop_reads splits
             (take (length Y_points * length X_points) splits)); [done|].
  intros k Hk. rewrite length_visits in Hk. simpl.
  by rewrite lookup_take_lt.
Qed.

(** X11. Too few patches: for windows inside the target and patches of the
    window's shape, [reconstruct] raises [IndexError] when there are fewer
    patches than pairs of offsets. *)
Theorem reconstruct_too_few (a b c split_size : Z) (overlap : pynum)
    (splits : tensor4) (X_points Y_points : list Z) :
  0 < split_size -> 0 <= a -> 0 <= b -> 0 <= c ->
  Forall (fun o => 0 <= o /\ o + split_size <= a) Y_points ->
  Forall (fun o => 0 <= o /\ o + split_size <= b) X_points ->
  (length splits < length Y_points * length X_points)%nat ->
  Forall (fun p => has_shape3 split_size split_size c p = true) splits ->
  reconstruct splits split_size overlap (a, b, c) X_points Y_points
  = Raise IndexError.
Proof.
  intros Hws Ha Hb Hc Hy Hx Hlen Hsplits. unfold reconstruct.
  destruct (zeros_shape a b c) as (z & -> & Hz); [done..|]. simpl.
  rewrite (for_in_nested Y_points X_points (paste splits split_size)).
  pose proof (visits_in_range a b split_size _ _ Hy Hx) as Hrange.
  rewrite <- (take_drop (length splits) (visits Y_points X_points)).
  rewrite for_in_app.
  destruct (paste_loop a b c split_size splits
              (take (length splits) (visits Y_points X_points))
              (fun _ _ => True) O z) as (r & -> & _); try done.
  - by apply Forall_take.
  - intros k Hk. rewrite length_take in Hk.
    destruct (lookup_lt_is_Some_2 splits k) as [patch Hpatch]; [lia|].
    exists patch. split; [done|].
    by apply (proj1 (Forall_lookup _ _) Hsplits k).
  - simpl. rewrite length_take, length_visits, Nat.min_l by lia.
    destruct (drop (length splits) (visits Y_points X_points))
      as [|p rest] eqn:Hdrop.
    { apply (f_equal length) in Hdrop.
      rewrite length_drop, length_visits in Hdrop. simpl in Hdrop. lia. }
    simpl. by rewrite lookup_ge_None_2.
Qed.

Lemma reconstruct_too_few_witness :
  reconstruct [[[[Fin 1]; [Fin 1]]; [[Fin 1]; [Fin 1]]]] 2 (PyInt 0)
    (2, 4, 1) [0; 1] [0]
  = Raise IndexError.
Proof.
  apply (reconstruct_too_few 2 4 1 2 (PyInt 0)); try lia.
  - repeat constructor; lia.
  - repeat constructor; lia.
  - simpl. lia.
  - repeat constructor.
Defined.

(** The first assignment of [reconstruct] with channels that do not fit. *)
Lemma reconstruct_first_patch_mismatch (a b c h w c' split_size : Z)
    (overlap : pynum) (patch : tensor3) (rest : tensor4) (i j : Z)
    (xs ys : list Z) :
  0 < a -> 0 < b -> 0 <= c ->
  has_shape3 h w c' patch = true -> 0 < h -> 0 < w ->
  c' <> c -> c' <> 1 ->
  reconstruct (patch :: rest) split_size overlap (a, b, c) (j :: xs) (i :: ys)
  = Raise RuntimeError.
Proof.
  intros Ha Hb Hc Hpatch Hh Hw Hne Hne1. unfold reconstruct.
  destruct (zeros_shape a b c) as (z & -> & Hz); [lia..|]. simpl.
  destruct (has_shape3_dims a b c z Hz Ha Hb) as (_ & _ & Hz2).
  destruct (has_shape3_dims h w c' patch Hpatch Hh Hw) as (_ & _ & Hp2).
  unfold assign_region.
  assert (Hno : forall n m, can_broadcast n m (length (hd [] (hd [] z))) patch
                            = false).
  { intros n m. unfold can_broadcast.
    destruct patch as [|[|px row] patch'].
    - apply has_shape3_spec in Hpatch as [Hl _]. unfold shape0 in Hl.
      simpl in Hl. lia.
    - apply has_shape3_spec in Hpatch as [_ Hrows].
      apply Forall_cons in Hrows as [[Hl _] _]. unfold shape0 in Hl.
      simpl in Hl. lia.
    - unfold shape2, shape1, shape0 in Hz2, Hp2. simpl in Hp2.
      simpl. replace (fits (length (hd [] (hd [] z))) px) with false.
      + by rewrite !andb_false_r.
      + symmetry. unfold fits. apply orb_false_iff.
        split; apply Nat.eqb_neq; lia. }
  by rewrite Hno.
Qed.

(** X12. Channels that do not fit: when the first patch has pixels of [c']
    channels and the target has [c], with [c'] neither [c] nor 1, the
    first assignment cannot be broadcast and [reconstruct] raises
    [RuntimeError]. *)
Theorem reconstruct_channel_mismatch (a b c h w c' split_size : Z)
    (overlap : pynum) (patch : tensor3) (rest : tensor4) (i j : Z)
    (xs ys : list Z) :
  0 < a -> 0 < b -> 0 <= c ->
  has_shape3 h w c' patch = true -> 0 < h -> 0 < w ->
  c' <> c -> c' <> 1 ->
  reconstruct (patch :: rest) split_size overlap (a, b, c) (j :: xs) (i :: ys)
  = Raise RuntimeError.
Proof. apply reconstruct_first_patch_mismatch. Qed.

Lemma reconstruct_channel_mismatch_witness :
  reconstruct ([[[Fin 1; Fin 2]]] :: []) 1 (PyInt 0) (1, 1, 3)
    (0 :: []) (0 :: [])
  = Raise RuntimeError.
Proof.
  apply (reconstruct_channel_mismatch 1 1 3 1 1 2); try lia. reflexivity.
Defined.

End ReconstructExtras.

(** ** [_inference] beyond the claims *)

Section InferenceExtras.

Implicit Types (w : world) (net : network) (inp : pyobj) (dt : dtype).

(** X13. A path that [Image.open] reads, [np.load] not letting an exception
    escape, is processed exactly as the array [Image.open] returned would
    be, and comes back under the path itself. *)
Theorem inference_path_as_array fuel w net path image_size dt
    (image : tensor3) (loaded : option (dtype * tensor3)) :
  try_load (np_load w path) = Ret loaded ->
  pil_open w path = Ret (dt, image) ->
  _inference fuel w net (PyStr path) image_size
  = ('(r, _) ← _inference fuel w net (PyArray dt image) image_size;
     Ret (r, path)).
Proof.
  intros Hnp Hpil. unfold _inference. simpl. rewrite Hnp, Hpil. simpl.
  destruct (make_batch fuel image image_size) as [[batch locals]| |];
    [|done..].
  simpl. destruct (net (net_input dt batch)) as [[ei_1 ei] A].
  by destruct (assemble ei image_size locals).
Qed.

Lemma inference_path_as_array_witness :
  _inference 0
    (World (fun _ => Raise (ValueError "not an array"))
           (fun _ => Ret (UInt8, [[[Fin 255; Fin 0; Fin 51]]])) "tmp")
    (fun x => (x, x, x)) (PyStr "dir/night.png") 256
  = ('(r, _) ← _inference 0
                 (World (fun _ => Raise (ValueError "not an array"))
                        (fun _ => Ret (UInt8, [[[Fin 255; Fin 0; Fin 51]]]))
                        "tmp")
                 (fun x => (x, x, x))
                 (PyArray UInt8 [[[Fin 255; Fin 0; Fin 51]]]) 256;
     Ret (r, "dir/night.png"%string)).
Proof.
  by apply (inference_path_as_array 0 _ _ "dir/night.png" 256 UInt8
              [[[Fin 255; Fin 0; Fin 51]]] None).
Defined.

(** X14. An exception of [np.load] that is neither a [ValueError] nor an
    [IOError] escapes [_inference] as it is: [Image.open] is not tried. *)
Theorem inference_numpy_exception_escapes fuel w net path image_size e :
  np_load w path = Raise e ->
  e <> IOError -> (forall msg, e <> ValueError msg) ->
  _inference fuel w net (PyStr path) image_size = Raise e.
Proof.
  intros Hnp Hio Hval. unfold _inference. simpl. rewrite Hnp.
  destruct e; simpl; try done.
  - by destruct (Hval msg).
Qed.

Lemma inference_numpy_exception_escapes_witness :
  _inference 0
    (World (fun _ => Raise OtherError)
           (fun _ => Ret (UInt8, [[[Fin 255; Fin 0; Fin 51]]])) "tmp")
    (fun x => (x, x, x)) (PyStr "night.npy") 256
  = Raise OtherError.
Proof.
  by apply (inference_numpy_exception_escapes 0 _ _ "night.npy" 256 OtherError).
Defined.

(** X15. The small-image bypass: an image no larger than 2 * image_size in
    both directions never reaches [patchify], so no run is out of fuel; the
    result is the one item the network answers, under the resolved name,
    and a network answering any other number of items ends in the unbound
    [original_shape]. *)
Theorem inference_small_image fuel w net inp image_size dt (image : tensor3)
    name :
  resolve_input w inp = Ret (dt, image, name) ->
  shape0 image <= image_size * 2 -> shape1 image <= image_size * 2 ->
  _inference fuel w net inp image_size
  = match (net (net_input dt [image])).1.2 with
    | [item] => Ret (item, name)
    | _ => Raise UnboundLocalError
    end.
Proof.
  intros Hin H0 H1.
  rewrite (inference_unfold fuel w net inp image_size dt image name [image]
             None); [|done|by apply make_batch_whole].
  by destruct ((net (net_input dt [image])).1.2) as [|item [|item2 rest]].
Qed.

Lemma inference_small_image_witness :
  _inference 0 (World (fun _ => Raise IOError) (fun _ => Raise IOError) "tmp")
    (fun x => (x, x, x)) (PyArray UInt8 [[[Fin 255; Fin 0; Fin 51]]]) 1
  = match ((fun x : tensor4 => (x, x, x))
             (net_input UInt8 [[[[Fin 255; Fin 0; Fin 51]]]])).1.2
    with
    | [item] => Ret (item, "tmp.jpg"%string)
    | _ => Raise UnboundLocalError
    end.
Proof.
  apply (inference_small_image 0 _ _
           (PyArray UInt8 [[[Fin 255; Fin 0; Fin 51]]]));
    [reflexivity|simpl; unfold shape0; simpl; lia
    |simpl; unfold shape1, shape0; simpl; lia].
Defined.

(** X16. A window of at most 1 pixel: every image that takes the splitting
    branch sends [start_points] into its endless loop, and [_inference]
    never returns.  (Line 25 first converts the window to a float; a
    window of [-(2^1024 - 2^970)] or below does not convert, and the call
    raises [OverflowError].) *)
Theorem inference_tiny_window_never_returns fuel w net inp image_size dt
    (image : tensor3) name :
  resolve_input w inp = Ret (dt, image, name) ->
  image_size <= 1 ->
  image_size * 2 < shape0 image \/ image_size * 2 < shape1 image ->
  _inference fuel w net inp image_size
  = (_ ← float_of_int image_size; Timeout).
Proof.
  intros Hin Hws Hsplit. unfold _inference. rewrite Hin. simpl.
  rewrite make_batch_split by done. unfold patchify.
  assert (0 <= shape0 image) by (unfold shape0; lia).
  destruct (decide (image_size = 1)) as [->|Hne].
  { (* a window of 1: the stride is [int(0.875) = 0] *)
    rewrite float_of_int_1. cbn [mbind result_bind].
    assert (stride_of 1 (1 # 8) = Ret 0) as Hs by by vm_compute.
    rewrite !(start_points_stride _ _ 1 (1 # 8) 0 Hs).
    destruct (decide (1 < shape0 image)) as [Hy|Hy].
    - by rewrite (loop_never_breaks fuel (shape0 image)) by lia.
    - (* one row: the rows return, the columns do not *)
      rewrite (loop_never_breaks fuel (shape1 image)) by lia.
      destruct fuel as [|fuel]; [done|].
      by rewrite (loop_one_window fuel (shape0 image) 1) by lia. }
  destruct (stride_eighth_nonpos image_size Hws) as (s & Hs & Hle).
  unfold start_points. rewrite Hs.
  destruct (float_of_int image_size) as [x|e|]; [|done..].
  cbn [mbind result_bind].
  destruct (decide (s + image_size < shape0 image)) as [Hy|Hy].
  { by rewrite (loop_stuck fuel (shape0 image)) by lia. }
  (* no window and no row: the image is not split *)
  assert (image_size = 0) as -> by lia.
  destruct image; unfold shape1, shape0 in *; simpl in *; lia.
Qed.

Lemma inference_tiny_window_never_returns_witness :
  _inference 9 (World (fun _ => Raise IOError) (fun _ => Raise IOError) "tmp")
    (fun x => (x, x, x))
    (PyArray UInt8 [[[Fin 1; Fin 2; Fin 3]; [Fin 4; Fin 5; Fin 6];
                     [Fin 7; Fin 8; Fin 9]]]) 1
  = Timeout.
Proof.
  refine (eq_trans
            (inference_tiny_window_never_returns 9 _ _ _ 1 UInt8
               [[[Fin 1; Fin 2; Fin 3]; [Fin 4; Fin 5; Fin 6];
                 [Fin 7; Fin 8; Fin 9]]] "tmp.jpg" _ _ _) _);
    [reflexivity|lia|right; by vm_compute|by vm_compute].
Defined.

End InferenceExtras.

(** ** Tiling is transparent *)

Section Transparency.

Implicit Types (w : world) (net : network) (inp : pyobj) (f : fl -> fl).

(** The permutation of the mapped image is the mapped permutation. *)
Lemma hwc_to_chw_map3 (f : fl -> fl) (a b c : Z) (t : tensor3) :
  has_shape3 a b c t = true -> 0 < a -> 0 < b ->
  hwc_to_chw (map3 f t) = map3 f (hwc_to_chw t).
Proof.
  intros Ht Ha Hb.
  destruct (has_shape3_dims a b c t Ht Ha Hb) as (_ & _ & H2).
  destruct (has_shape3_dims a b c _ (has_shape3_map3 f _ _ _ _ Ht) Ha Hb)
    as (_ & _ & H2').
  apply has_shape3_spec in Ht as [_ Hrows].
  unfold hwc_to_chw. rewrite H2, H2'. unfold map3.
  rewrite <- !list_fmap_compose. apply list_fmap_ext.
  intros idx ch [-> Hlt]%lookup_seq. simpl.
  rewrite <- !list_fmap_compose. apply Forall_fmap_ext.
  eapply Forall_impl; [exact Hrows|]. intros row [_ Hpx]. simpl.
  rewrite <- !list_fmap_compose. apply Forall_fmap_ext.
  eapply Forall_impl; [exact Hpx|]. intros px Hc. simpl.
  apply nth_fmap_lt. unfold shape0 in Hc. lia.
Qed.

(** Channels first and back. *)
Lemma chw_to_hwc_to_chw (a b c : Z) (t : tensor3) :
  has_shape3 a b c t = true -> 0 < a -> 0 < b -> 0 < c ->
  chw_to_hwc (hwc_to_chw t) = t.
Proof.
  intros Ht Ha Hb Hc.
  pose proof (hwc_to_chw_shape a b c t Ht Ha Hb) as Hu.
  pose proof (chw_to_hwc_shape a b c _ Hu Hc Ha) as Hv.
  apply (tensor3_ext a b c); [done..|]. intros r col Hr Hcol.
  destruct (has_shape3_dims c a b _ Hu Hc Ha) as (_ & H1 & H2).
  destruct (has_shape3_dims a b c t Ht Ha Hb) as (H0t & _ & H2t).
  unfold chw_to_hwc. rewrite H1, H2. unfold pixel at 1.
  rewrite list_lookup_fmap, lookup_seq_lt by lia. simpl.
  rewrite list_lookup_fmap, lookup_seq_lt by lia. simpl.
  unfold hwc_to_chw. rewrite H2t, <- list_fmap_compose.
  unfold shape0 in H0t.
  destruct (lookup_lt_is_Some_2 t r) as [row Hrow]; [lia|].
  destruct (has_shape3_lookup _ _ _ _ _ _ Ht Hrow) as [Hb' Hpx].
  unfold shape0 in Hb'.
  destruct (lookup_lt_is_Some_2 row col) as [px Hp]; [lia|].
  pose proof (proj1 (Forall_lookup _ _) Hpx col px Hp) as Hlen.
  unfold shape0 in Hlen.
  unfold pixel. rewrite Hrow. simpl. rewrite Hp. f_equal.
  apply list_eq. intros k. rewrite list_lookup_fmap.
  destruct (decide (k < length px)%nat) as [Hk|Hk].
  - rewrite lookup_seq_lt by lia. simpl.
    rewrite (nth_lookup_Some _ r []
               ((fun px0 : list fl => nth k px0 (Fin 0)) <$> row))
      by (by rewrite list_lookup_fmap, Hrow).
    rewrite (nth_lookup_Some _ col (Fin 0) (nth k px (Fin 0)))
      by (by rewrite list_lookup_fmap, Hp).
    destruct (lookup_lt_is_Some_2 px k) as [v Hv']; [done|].
    rewrite Hv'. f_equal. by apply nth_lookup_Some.
  - rewrite lookup_seq_ge by lia. simpl. symmetry.
    apply lookup_ge_None_2. lia.
Qed.

(** A second map that changes no value of the first. *)
Lemma map3_map3_id (f g : fl -> fl) (t : tensor3) :
  (forall v, g (f v) = f v) -> map3 g (map3 f t) = map3 f t.
Proof.
  intros Hgf. unfold map3. rewrite <- list_fmap_compose.
  apply list_fmap_ext. intros _ row _. simpl.
  rewrite <- list_fmap_compose. apply list_fmap_ext. intros _ px _. simpl.
  rewrite <- list_fmap_compose. apply list_fmap_ext. intros _ v _. simpl.
  apply Hgf.
Qed.

(** What [torch.div] returns for a batch that is not float64 is float32. *)
Lemma div255_value_float32 (dt : dtype) (v : fl) :
  dt <> Float64 -> cast binary32 (div255_value dt v) = div255_value dt v.
Proof.
  intros Hdt. unfold div255_value.
  assert (div_format dt = binary32) as -> by by destruct dt.
  destruct (cast binary32 v) as [q| | |]; [|done..].
  apply (round_fl_idem _ binary32_prec).
Qed.

End Transparency.

Section TransparencyTheorems.

Implicit Types (w : world) (net : network) (inp : pyobj) (dt : dtype).

(** X17. Tiling is transparent.  For a network that answers the batch it
    is given and an image of shape (H, W, C) whose element type is not
    float64, the image comes back from [_inference] as the normalised,
    channel-first image, the one item of the tensor an unsplit image is
    handed to the network as, whether it was split into overlapping
    patches and reassembled or not.  (The split case is for a window of
    at most [2^53]; a float64 image comes back in float64 when it is not
    split and in float32 when it is.) *)
Theorem tiling_is_transparent fuel w net inp image_size dt (image : tensor3)
    name (H W C : Z) :
  resolve_input w inp = Ret (dt, image, name) ->
  has_shape3 H W C image = true -> 0 < H -> 0 < W -> 0 < C ->
  pass_through net -> dt <> Float64 ->
  (image_size * 2 < H \/ image_size * 2 < W ->
   2 <= image_size <= 2 ^ 53 /\ image_size <= H /\ image_size <= W
   /\ (Z.to_nat H < fuel)%nat /\ (Z.to_nat W < fuel)%nat) ->
  exists r, _inference fuel w net inp image_size = Ret (r, name)
            /\ net_input dt [image] = [r].
Proof.
  intros Hin Himg HH HW HC Hnet Hdt Hsplit.
  set (f := div255_value dt).
  assert (Hone : net_input dt [image] = [map3 f (hwc_to_chw image)]) by done.
  destruct (has_shape3_dims H W C image Himg HH HW) as (Hs0 & Hs1 & Hs2).
  destruct (decide (image_size * 2 < H \/ image_size * 2 < W)) as [Hc|Hc].
  - destruct (Hsplit Hc) as (Hws & HwH & HwW & HfH & HfW).
    pose proof float_int_limit_above as Hlimit.
    destruct (make_batch_splits fuel image image_size H W C)
      as (splits & xs & ys & stride & Hb & Hp & Hstride & Hpos & Hys & Hxs
          & Hlen & Hfour & Hshapes & Hyr & Hxr); [done|done|lia|done..|].
    destruct (stride_of_unit_Ret image_size (1 # 8) stride ltac:(lia)
                ltac:(done) ltac:(done) Hstride) as [_ Hle].
    specialize (Hle ltac:(lia)).
    pose proof (has_shape3_map3 f _ _ _ _ Himg) as Himg'.
    pose proof (start_points_covers fuel H image_size (1 # 8) stride ys
                  ltac:(lia) Hstride ltac:(lia) Hys) as Hycov.
    pose proof (start_points_covers fuel W image_size (1 # 8) stride xs
                  ltac:(lia) Hstride ltac:(lia) Hxs) as Hxcov.
    pose proof (reconstruct_crops (map3 f image) H W C image_size (1 # 8)
                  xs ys Himg' ltac:(lia) ltac:(lia) Hyr Hxr
                  (fun x Hx => proj1 (Hycov x) Hx)
                  (fun x Hx => proj1 (Hxcov x) Hx)) as Hr'.
    rewrite (map3_map3_id f (cast binary32))
      in Hr' by (intros v; by apply div255_value_float32).
    destruct (patchify_returns fuel image H W C image_size (1 # 8) xs ys)
      as [Hp' _]; [done|lia|lia|done..|].
    assert (Hsplits : splits
              = (fun p : Z * Z => slice2 image p.1 (p.1 + image_size)
                                    p.2 (p.2 + image_size)) <$> visits ys xs)
      by congruence.
    assert (Hback : chw_to_hwc <$> net_input dt splits
              = (fun p : Z * Z => slice2 (map3 f image) p.1 (p.1 + image_size)
                                    p.2 (p.2 + image_size)) <$> visits ys xs).
    { unfold net_input, div255. fold f.
      rewrite <- !list_fmap_compose.
      transitivity (map3 f <$> splits).
      - apply Forall_fmap_ext. eapply Forall_impl; [exact Hshapes|].
        intros p Hps. simpl.
        rewrite <- (hwc_to_chw_map3 f image_size image_size C) by (done || lia).
        apply (chw_to_hwc_to_chw image_size image_size C); [|lia..].
        by apply has_shape3_map3.
      - rewrite Hsplits, <- list_fmap_compose. apply list_fmap_ext.
        intros idx p _. simpl. symmetry. apply slice2_map3. }
    rewrite (inference_unfold fuel w net inp image_size dt image name splits
               (Some (shape image, xs, ys))); [|done..].
    rewrite Hnet.
    assert (Hn : length (net_input dt splits) = length splits).
    { unfold net_input, div255. by rewrite !length_fmap. }
    assert (Hassemble : assemble (net_input dt splits) image_size
                          (Some (shape image, xs, ys))
                        = Ret (hwc_to_chw (map3 f image))).
    { unfold assemble.
      destruct (net_input dt splits) as [|e1 [|e2 ei']] eqn:Hei.
      - simpl in Hn. lia.
      - simpl in Hn. lia.
      - rewrite Hback.
        assert (shape image = shape (map3 f image)) as ->.
        { by rewrite !(has_shape3_shape H W C). }
        rewrite Hr'. simpl. unfold squeeze0_permute201.
        destruct (has_shape3_dims H W C _ Himg' HH HW) as (-> & _).
        destruct (Z.eqb_spec H 1); [lia|done]. }
    rewrite Hassemble. simpl. exists (hwc_to_chw (map3 f image)).
    split; [done|]. rewrite Hone. f_equal. symmetry.
    by apply (hwc_to_chw_map3 f H W C).
  - rewrite (inference_unfold fuel w net inp image_size dt image name [image]
               None); [|done|apply make_batch_whole; lia].
    rewrite Hnet, Hone. simpl. by eexists.
Qed.

Lemma tiling_is_transparent_witness :
  exists r,
    _inference 7 (World (fun _ => Raise IOError) (fun _ => Raise IOError) "tmp")
      (fun x => (x, x, x))
      (PyArray UInt8 (replicate 5 (replicate 6 [Fin 255; Fin 0; Fin 51]))) 2
    = Ret (r, "tmp.jpg"%string)
    /\ net_input UInt8 [replicate 5 (replicate 6 [Fin 255; Fin 0; Fin 51])]
       = [r].
Proof.
  apply (tiling_is_transparent 7 _ _ _ 2 UInt8
           (replicate 5 (replicate 6 [Fin 255; Fin 0; Fin 51])) "tmp.jpg"
           5 6 3).
  - reflexivity.
  - reflexivity.
  - lia.
  - lia.
  - lia.
  - intros x. reflexivity.
  - discriminate.
  - intros _. repeat split; lia.
Defined.

(** X18. A split image needs a network of 3 channels, or of 1: with any
    other number of channels the first patch cannot be assigned into the
    canvas, which has the shape of the input, and [_inference] raises
    [RuntimeError].  This is for a window_size of at least 2, and small
    enough for a float, and an image at least one window high and wide. *)
Theorem inference_split_channel_mismatch fuel w net inp image_size dt
    (image : tensor3) name (H W c_out : Z) :
  resolve_input w inp = Ret (dt, image, name) ->
  has_shape3 H W 3 image = true ->
  shape_preserving 3 c_out net ->
  0 < c_out -> c_out <> 3 -> c_out <> 1 ->
  image_size * 2 < H \/ image_size * 2 < W ->
  2 <= image_size < float_int_limit -> image_size <= H -> image_size <= W ->
  (Z.to_nat H < fuel)%nat -> (Z.to_nat W < fuel)%nat ->
  _inference fuel w net inp image_size = Raise RuntimeError.
Proof.
  intros Hin Himg Hnet Hc0 Hc3 Hc1 Hc Hws HwH HwW HfH HfW.
  assert (0 < H) as HH by lia. assert (0 < W) as HW by lia.
  destruct (has_shape3_dims H W 3 image Himg HH HW) as (Hs0 & Hs1 & Hs2).
  destruct (make_batch_splits fuel image image_size H W 3)
    as (splits & xs & ys & stride & Hb & _ & _ & _ & Hys & Hxs & Hlen & Hfour
        & Hshapes & _); [done..|].
  pose proof (start_points_length _ _ _ _ _ Hys) as Hly.
  pose proof (start_points_length _ _ _ _ _ Hxs) as Hlx.
  rewrite (inference_unfold fuel w net inp image_size dt image name splits
             (Some (shape image, xs, ys))); [|done..].
  pose proof (Hnet _ _ _ _
    (net_input_shape dt _ _ _ _ _ (has_shape4_of_Forall _ _ _ _ Hshapes)
       ltac:(lia) ltac:(lia))) as Hei.
  set (ei := (net (net_input dt splits)).1.2) in *.
  apply has_shape4_spec in Hei as [Hn Heis]. unfold shape0 in Hn.
  destruct ei as [|e1 [|e2 ei']]; [simpl in Hn; lia..|].
  destruct ys as [|i ys]; [simpl in Hly; lia|].
  destruct xs as [|j xs]; [simpl in Hlx; lia|].
  apply Forall_cons in Heis as [He1 _].
  unfold assemble, shape. rewrite Hs0, Hs1, Hs2. rewrite fmap_cons.
  rewrite (reconstruct_first_patch_mismatch H W 3 image_size image_size c_out);
    [done|lia..| |lia|lia|done|done].
  apply chw_to_hwc_shape; [done|lia..].
Qed.

Lemma inference_split_channel_mismatch_witness :
  _inference 7 (World (fun _ => Raise IOError) (fun _ => Raise IOError) "tmp")
    (fun x => (x, (fun im : list (list (list fl)) => im ++ im) <$> x, x))
    (PyArray UInt8 (replicate 5 (replicate 6 [Fin 255; Fin 0; Fin 51]))) 2
  = Raise RuntimeError.
Proof.
  apply (inference_split_channel_mismatch 7 _ _ _ 2 UInt8
           (replicate 5 (replicate 6 [Fin 255; Fin 0; Fin 51])) "tmp.jpg"
           5 6 6);
    try lia; try reflexivity.
  - intros n h w' x. rewrite !has_shape4_spec. unfold shape0.
    intros [Hn Hx]. simpl. split; [by rewrite length_fmap|].
    apply Forall_fmap. eapply Forall_impl; [exact Hx|].
    intros im. simpl. rewrite !has_shape3_spec. unfold shape0.
    intros [H3 Hrows]. split; [rewrite length_app; lia|].
    by apply Forall_app_2.
  - split; [lia|done].
Defined.

End TransparencyTheorems.

(** ** [generateRandomString], the saved names and [inference] *)

Section NameExtras.

Local Open Scope nat_scope.

Lemma choice_lowercase (draw : nat) :
  exists c, Random.choice draw Random.ascii_lowercase = Ret c
            /\ 97 <= nat_of_ascii c <= 122.
Proof.
  unfold Random.choice.
  assert (draw mod String.length Random.ascii_lowercase < 26) as Hlt.
  { apply Nat.mod_upper_bound. by vm_compute. }
  revert Hlt. generalize (draw mod String.length Random.ascii_lowercase).
  intros i Hi.
  do 26 (destruct i as [|i];
         [eexists; split; [reflexivity|vm_compute; lia]|]).
  lia.
Qed.

Lemma join_choices_lowercase (draws : nat -> nat) (k n : nat) :
  exists s, Random.join_choices draws k n Random.ascii_lowercase = Ret s
            /\ String.length s = n
            /\ Forall (fun c => 97 <= nat_of_ascii c <= 122)
                 (list_ascii_of_string s).
Proof.
  revert k. induction n as [|n IH]; intros k.
  { exists EmptyString. by repeat split. }
  destruct (choice_lowercase (draws k)) as (c & Hc & Hrange).
  destruct (IH (S k)) as (s & Hs & Hlen & Hall).
  exists (String c s). cbn [Random.join_choices]. rewrite Hc. simpl.
  rewrite Hs. simpl. split; [done|]. split; [by rewrite Hlen|].
  by constructor.
Qed.

(** X19. Whatever the generator draws, [generateRandomString(length)]
    returns a string of exactly [length] characters (none for a negative
    length), each of them a lowercase letter [a] to [z]. *)
Theorem generateRandomString_lowercase (draws : nat -> nat) (length : Z) :
  exists s, Random.generateRandomString draws length = Ret s
            /\ String.length s = Z.to_nat length
            /\ Forall (fun c => 97 <= nat_of_ascii c <= 122)
                 (list_ascii_of_string s).
Proof. apply join_choices_lowercase. Qed.

(** The pieces of a split are never none. *)
Lemma split_on_nonempty (sep : ascii) (s : string) : split_on sep s <> [].
Proof.
  destruct s as [|c s]; [done|]. simpl.
  destruct (Ascii.eqb c sep); [done|]. by destruct (split_on sep s).
Qed.

(** [split] and [join] on one separator. *)
Lemma split_on_join (sep : ascii) (s : string) :
  join_with sep (split_on sep s) = s
  /\ Forall (fun piece => Forall (fun c => c <> sep)
                            (list_ascii_of_string piece))
       (split_on sep s).
Proof.
  induction s as [|c s [IHj IHp]]; [by repeat constructor|].
  simpl. destruct (Ascii.eqb_spec c sep) as [->|Hne].
  - split; [|by repeat constructor].
    pose proof (split_on_nonempty sep s).
    destruct (split_on sep s) as [|piece pieces]; [done|].
    simpl in *. by rewrite IHj.
  - pose proof (split_on_nonempty sep s).
    destruct (split_on sep s) as [|piece pieces]; [done|].
    apply Forall_cons in IHp as [Hpiece Hpieces]. split.
    + destruct pieces; simpl in *; by rewrite <- IHj.
    + constructor; [|done]. simpl. by constructor.
Qed.

(** X20. Splitting a path at ['/'] and joining the pieces with ['/'] gives
    the path back, and no piece holds a ['/']. *)
Theorem split_join_round_trip (sep : ascii) (s : string) :
  join_with sep (split_on sep s) = s
  /\ Forall (fun piece => Forall (fun c => c <> sep)
                            (list_ascii_of_string piece))
       (split_on sep s).
Proof. apply split_on_join. Qed.

Lemma last_cons_nonempty {A} (x : A) (l : list A) (d : A) :
  l <> [] -> List.last (x :: l) d = List.last l d.
Proof. by destruct l. Qed.

(** What precedes the last piece of a split. *)
Lemma split_on_last (s : string) :
  exists dir,
    s = (dir ++ List.last (split_on "/"%char s) EmptyString)%string
    /\ match split_on "/"%char s with
       | [_] => dir = EmptyString
       | _ => exists d, dir = (d ++ String "/"%char EmptyString)%string
       end.
Proof.
  induction s as [|c s (dir & IHd & IHe)]; [by exists EmptyString|].
  pose proof (split_on_nonempty "/"%char s) as Hne.
  simpl. destruct (Ascii.eqb_spec c "/"%char) as [->|Hc].
  - rewrite last_cons_nonempty by done.
    exists (String "/"%char dir). split; [simpl; by rewrite <- IHd|].
    destruct (split_on "/"%char s) as [|piece [|piece' pieces]]; [done| |].
    + subst dir. by exists EmptyString.
    + destruct IHe as (d & ->). by exists (String "/"%char d).
  - destruct (split_on "/"%char s) as [|piece [|piece' pieces]]; [done| |].
    + subst dir. exists EmptyString. simpl in *. by rewrite <- IHd.
    + destruct IHe as (d & ->). exists (String c (d ++ "/")).
      split; [simpl in *; by rewrite <- IHd|]. by exists (String c d).
Qed.

Lemma last_Forall {A} (P : A -> Prop) (l : list A) (d : A) :
  l <> [] -> Forall P l -> P (List.last l d).
Proof.
  induction l as [|x [|y l] IH]; intros Hne Hl; [done| |].
  - by apply Forall_cons in Hl as [Hx _].
  - apply Forall_cons in Hl as [_ Hl]. by apply IH.
Qed.

(** X21. The name a result is saved under, [image_path.split('/')[-1]]:
    it holds no ['/'], it ends the path, and what precedes it is empty or
    ends in ['/']. *)
Theorem basename_spec (image_path : string) :
  Forall (fun c => c <> "/"%char) (list_ascii_of_string (basename image_path))
  /\ exists dir,
       image_path = (dir ++ basename image_path)%string
       /\ (dir = EmptyString
           \/ exists d, dir = (d ++ String "/"%char EmptyString)%string).
Proof.
  unfold basename. split.
  - apply (last_Forall (fun piece => Forall (fun c => c <> "/"%char)
                                       (list_ascii_of_string piece))).
    + apply split_on_nonempty.
    + apply split_on_join.
  - destruct (split_on_last image_path) as (dir & Hd & He).
    exists dir. split; [done|].
    destruct (split_on "/"%char image_path) as [|piece [|piece' pieces]];
      [by right|by left|by right].
Qed.

End NameExtras.

Section BatchExtras.

Implicit Types (h : host) (net : network).

(** The calls of [_inference] up to the first that raises. *)
Lemma infer_each_fails fuel h net (pre : list pyobj) (inp : pyobj)
    (post : list pyobj) image_size (k : nat) (e : exn) :
  (forall (j : nat) inp_j, pre !! j = Some inp_j ->
     exists r, _inference fuel (world_of_call h (k + j)) net inp_j image_size
               = Ret r) ->
  _inference fuel (world_of_call h (k + length pre)) net inp image_size
  = Raise e ->
  infer_each fuel h net (pre ++ inp :: post) image_size k = Raise e.
Proof.
  revert k. induction pre as [|inp0 pre IH]; intros k Hpre Hfail.
  - simpl in *. rewrite Nat.add_0_r in Hfail. by rewrite Hfail.
  - simpl. destruct (Hpre O inp0 eq_refl) as [r Hr].
    rewrite Nat.add_0_r in Hr. rewrite Hr. simpl.
    rewrite (IH (S k)); [done| |].
    + intros j inp_j Hj. destruct (Hpre (S j) inp_j Hj) as [r' Hr'].
      exists r'. by replace (S k + j)%nat with (k + S j)%nat by lia.
    + by replace (S k + length pre)%nat with (k + length (inp0 :: pre))%nat
        by (simpl; lia).
Qed.

(** The calls of [_inference] when each returns. *)
Lemma infer_each_returns fuel h net (images : list pyobj) image_size
    (k : nat) (results : list (tensor3 * string)) :
  length results = length images ->
  (forall (j : nat) inp r, images !! j = Some inp -> results !! j = Some r ->
     _inference fuel (world_of_call h (k + j)) net inp image_size = Ret r) ->
  infer_each fuel h net images image_size k = Ret results.
Proof.
  revert k results. induction images as [|inp images IH];
    intros k [|r results] Hlen Hall; try done.
  simpl. pose proof (Hall O inp r eq_refl eq_refl) as Hr.
  rewrite Nat.add_0_r in Hr. rewrite Hr. simpl.
  rewrite (IH (S k) results); [done|by injection Hlen|].
  intros j inp_j r_j Hi Hrj.
  replace (S k + j)%nat with (k + S j)%nat by lia. by apply Hall.
Qed.

(** The saving loop when [mkdir] and [save_image] succeed. *)
Lemma save_each_succeeds h (outdir : string)
    (results : list (tensor3 * string)) :
  mkdir h outdir = Ret tt ->
  (forall r, r ∈ results ->
     save_image h r.1 outdir (basename r.2) = Ret tt) ->
  save_each h outdir results = (saved_events outdir results, Ret tt).
Proof.
  intros Hmk. induction results as [|[ei path] results IH]; intros Hsave;
    [done|].
  pose proof (Hsave (ei, path) ltac:(apply elem_of_cons; by left)) as Hs.
  simpl in Hs. simpl. rewrite Hmk, Hs.
  rewrite IH; [done|]. intros r Hr. apply Hsave, elem_of_cons. by right.
Qed.

(** X22. No partial output: when the call of [_inference] for one input
    raises, the inputs before it having returned, [inference] raises the
    same exception and has written nothing, whatever the output directory:
    saving starts after the last input is processed. *)
Theorem inference_failure_writes_nothing fuel h (weights : string) net
    (pre : list pyobj) (inp : pyobj) (post : list pyobj) image_size
    (outdir : option string) (e : exn) :
  load_network h weights = Ret net ->
  (forall (j : nat) inp_j, pre !! j = Some inp_j ->
     exists r, _inference fuel (world_of_call h j) net inp_j image_size
               = Ret r) ->
  _inference fuel (world_of_call h (length pre)) net inp image_size
  = Raise e ->
  inference fuel h weights (ImageList (pre ++ inp :: post)) image_size outdir
  = ([], Raise e).
Proof.
  intros Hload Hpre Hfail. unfold inference. rewrite Hload. simpl.
  by rewrite (infer_each_fails fuel h net pre inp post image_size 0 e).
Qed.

Lemma inference_failure_writes_nothing_witness :
  inference 0
    (Host (fun _ => Ret (fun x => (x, x, x)))
          (fun _ => World (fun _ => Raise IOError) (fun _ => Raise IOError)
                      "tmp")
          (fun _ => Ret tt) (fun _ _ _ => Ret tt))
    "weights.pth"
    (ImageList ([PyArray UInt8 [[[Fin 255; Fin 0; Fin 51]]]]
                ++ PyStr "missing.png" :: []))
    256 (Some "out"%string)
  = ([], Raise (ValueError "Invalid path.")).
Proof.
  apply (inference_failure_writes_nothing 0 _ "weights.pth"
           (fun x => (x, x, x)) [PyArray UInt8 [[[Fin 255; Fin 0; Fin 51]]]]
           (PyStr "missing.png") [] 256 (Some "out"%string)).
  - reflexivity.
  - intros [|j] inp_j Hj; [|done]. injection Hj as <-. by eexists.
  - reflexivity.
Defined.

(** X23. A batch in which every call returns: [inference] returns the
    results in the order of the inputs; without an output directory it
    writes nothing, and with one it makes the directory and saves each
    result under the base name of its path, in that order. *)
Theorem inference_success fuel h (weights : string) net
    (images : list pyobj) image_size (outdir : option string)
    (results : list (tensor3 * string)) :
  load_network h weights = Ret net ->
  length results = length images ->
  (forall (j : nat) inp r, images !! j = Some inp -> results !! j = Some r ->
     _inference fuel (world_of_call h j) net inp image_size = Ret r) ->
  (forall d, outdir = Some d ->
     mkdir h d = Ret tt
     /\ forall r, r ∈ results -> save_image h r.1 d (basename r.2) = Ret tt) ->
  inference fuel h weights (ImageList images) image_size outdir
  = (match outdir with
     | None => []
     | Some d => saved_events d results
     end, Ret results).
Proof.
  intros Hload Hlen Hall Hdisk. unfold inference. rewrite Hload. simpl.
  rewrite (infer_each_returns fuel h net images image_size 0 results)
    by done.
  destruct outdir as [d|]; [|done].
  destruct (Hdisk d eq_refl) as [Hmk Hsave].
  by rewrite save_each_succeeds.
Qed.

Lemma inference_success_witness :
  inference 0
    (Host (fun _ => Ret (fun x => (x, x, x)))
          (fun _ => World (fun _ => Raise IOError)
                      (fun _ => Ret (UInt8, [[[Fin 255; Fin 0; Fin 51]]]))
                      "tmp")
          (fun _ => Ret tt) (fun _ _ _ => Ret tt))
    "weights.pth" (ImageList [PyStr "dir/night.png"]) 256
    (Some "out"%string)
  = (match Some "out"%string with
     | None => []
     | Some d =>
         saved_events d
           [([[[Fin 1]]; [[Fin 0]]; [[Fin (13421773 # 67108864)]]],
             "dir/night.png"%string)]
     end,
     Ret [([[[Fin 1]]; [[Fin 0]]; [[Fin (13421773 # 67108864)]]],
           "dir/night.png"%string)]).
Proof.
  apply (inference_success 0 _ "weights.pth" (fun x => (x, x, x))).
  - reflexivity.
  - reflexivity.
  - intros [|j] inp r Hi Hr; [|done].
    injection Hi as <-. injection Hr as <-. by vm_compute.
  - intros d _. split; [reflexivity|]. intros r _. reflexivity.
Defined.

(** X24. A save that fails: the results before it are on the disk, the
    directory has been made once more, nothing after it is written, and
    [inference] raises the exception instead of returning the results. *)
Theorem inference_save_failure fuel h (weights : string) net
    (images : list pyobj) image_size (outdir : string)
    (saved : list (tensor3 * string)) (ei : tensor3) (image_path : string)
    (rest : list (tensor3 * string)) (e : exn) :
  load_network h weights = Ret net ->
  infer_each fuel h net images image_size 0
  = Ret (saved ++ (ei, image_path) :: rest) ->
  mkdir h outdir = Ret tt ->
  (forall r, r ∈ saved -> save_image h r.1 outdir (basename r.2) = Ret tt) ->
  save_image h ei outdir (basename image_path) = Raise e ->
  inference fuel h weights (ImageList images) image_size (Some outdir)
  = (saved_events outdir saved ++ [Mkdir outdir], Raise e).
Proof.
  intros Hload Hrun Hmk Hsaved Hfail. unfold inference.
  rewrite Hload. simpl. rewrite Hrun.
  assert (Hloop : save_each h outdir (saved ++ (ei, image_path) :: rest)
                  = (saved_events outdir saved ++ [Mkdir outdir], Raise e)).
  { clear Hrun. induction saved as [|[ei0 p0] saved IH].
    - simpl. by rewrite Hmk, Hfail.
    - pose proof (Hsaved (ei0, p0) ltac:(apply elem_of_cons; by left))
        as Hs.
      simpl in Hs. simpl. rewrite Hmk, Hs.
      rewrite IH; [done|]. intros r Hr. apply Hsaved, elem_of_cons.
      by right. }
  by rewrite Hloop.
Qed.

Lemma inference_save_failure_witness :
  inference 0
    (Host (fun _ => Ret (fun x => (x, x, x)))
          (fun _ => World (fun _ => Raise IOError)
                      (fun _ => Ret (UInt8, [[[Fin 255; Fin 0; Fin 51]]]))
                      "tmp")
          (fun _ => Ret tt)
          (fun _ _ name => if String.eqb name "b.png" then Raise IOError
                           else Ret tt))
    "weights.pth" (ImageList [PyStr "x/a.png"; PyStr "y/b.png"]) 256
    (Some "out"%string)
  = (saved_events "out"
       [([[[Fin 1]]; [[Fin 0]]; [[Fin (13421773 # 67108864)]]],
         "x/a.png"%string)]
     ++ [Mkdir "out"], Raise IOError).
Proof.
  apply (inference_save_failure 0 _ "weights.pth" (fun x => (x, x, x))
           [PyStr "x/a.png"; PyStr "y/b.png"] 256 "out"
           [([[[Fin 1]]; [[Fin 0]]; [[Fin (13421773 # 67108864)]]],
             "x/a.png"%string)]
           [[[Fin 1]]; [[Fin 0]]; [[Fin (13421773 # 67108864)]]] "y/b.png" []).
  - reflexivity.
  - by vm_compute.
  - reflexivity.
  - intros r Hr. apply list_elem_of_singleton in Hr as ->. reflexivity.
  - reflexivity.
Defined.

(** A split at a ['/'] between two strings. *)
Lemma split_on_app (a b : string) :
  split_on "/"%char (a ++ String "/"%char b)
  = split_on "/"%char a ++ split_on "/"%char b.
Proof.
  induction a as [|c a IH]; [done|]. simpl.
  destruct (Ascii.eqb c "/"%char); [by rewrite IH|].
  rewrite IH. pose proof (split_on_nonempty "/"%char a).
  by destruct (split_on "/"%char a).
Qed.

Lemma last_app_nonempty {A} (l1 l2 : list A) (d : A) :
  l2 <> [] -> List.last (l1 ++ l2) d = List.last l2 d.
Proof.
  intros Hne. induction l1 as [|x l1 IH]; [done|].
  simpl app. rewrite last_cons_nonempty; [done|].
  destruct l1; [done|discriminate].
Qed.

(** X25. Only what follows the last ['/'] names the saved file: a path
    [dir/name] is saved under the base name of [name], so inputs of one
    file name in different directories are saved to one file. *)
Theorem basename_drops_directory (dir name : string) :
  basename (dir ++ String "/"%char name) = basename name.
Proof.
  unfold basename. rewrite split_on_app.
  apply last_app_nonempty, split_on_nonempty.
Qed.

End BatchExtras.
